(** * Attention-tensor decoder and forward/inverse attention queries

    A shallow embedding of the numeric core of the visualisation demos:
    - [AttentionDecode]: shared/attentionDecode.js, the file that starts with
      [normalizePrecision] (precision normalisation, variant resolution,
      fp32 / int8 / packed-int4 decoding);
    - [InverseAttention]: class InverseAttentionVisualizer of
      interactive_invattention_js (token layout, patch-to-BEV query);
    - [ForwardAttention]: class ForwardAttentionVisualizer of
      interactive_forwardattention_js/src/forwardAttention.js (token layout,
      BEV-query-to-patch query);
    - [CameraOrder]: shared/cameraOrder.js (canonical camera names and the
      UI order of the cameras), and [SceneLoader]: the display order that
      both scene loaders compute from it.

    Sizes, indices and image dimensions are natural numbers; integers that
    go through a bitwise operator are in [Z] with the 32-bit wrap-around of
    the operator written out.

    JavaScript numbers are IEEE binary64 values; they are modelled with the
    Standard Library's executable [spec_float] at precision 53, and a store
    into a [Float32Array] rounds to precision 24 ([Math.fround]). *)

From Stdlib Require Import ZArith List String Ascii Bool Lia SpecFloat Sorted.
From stdpp Require Import base option list strings gmap.

Local Open Scope nat_scope.

(** ** Errors and results *)

(** One constructor per [throw] site of the sources (the interpolated
    values of the message are the constructor's arguments), plus the two
    errors raised by the host itself. *)
Inductive JsError : Type :=
  | InvalidShape                               (* Missing or invalid attn_weights_shape ... *)
  | FetchFailed (file : string) (status : nat) (* Failed to load <url>: <status> <text> *)
  | NoVariantsProvided (requested : string)    (* This scene does not provide <r> attention variants. *)
  | NoBinaryReference                          (* Scene manifest does not contain an attention binary reference. *)
  | NoUsableVariants                           (* No usable attention variants found in scene manifest. *)
  | RequestedVariantMissing (requested : string) (* Requested <r> attention variant is missing for this scene. *)
  | VariantUnavailable (key : string)          (* Requested attention variant '<key>' is unavailable. *)
  | Fp32MissingFile                            (* Attention fp32 variant is missing file path. *)
  | Fp32SizeMismatch (got expected : nat)
  | Int8MissingFiles                           (* Int8 attention variant requires file and scale_file. *)
  | Int8UnsupportedEncoding (enc : option string)
  | BatchSizeUnsupported (b : nat)             (* Only batch size 1 is supported, got <b>. *)
  | Int8SizeMismatch (got expected : nat)
  | Int8ScalesMismatch (got expected : nat)
  | Int4MissingFiles                           (* Int4 attention variant requires file and scale_file. *)
  | Int4PackedMismatch (got expected : nat)
  | Int4ScalesMismatch (got expected : nat)
  | UnknownImageFormat (camName : string)      (* Unknown image format for camera <name> *)
  | ZeroSizeImage (camName : string)           (* Camera image has zero size for <name> ... *)
  | HeadNotSpecified                           (* Specify headIdx or set meanHeads=true *)
  | UnknownAggregation (aggregation : string)  (* Unknown aggregation: <aggregation> *)
  | UnknownCamera (camName : string)           (* Unknown camera: <camName> *)
  | HostTypeError                              (* property read on undefined, iteration of a non-iterable *)
  | HostRangeError.                            (* misaligned typed-array view, too many spread arguments *)

Inductive result (A : Type) : Type :=
  | Ok (a : A)
  | Err (e : JsError).
Arguments Ok {A} a.
Arguments Err {A} e.

#[global] Instance result_ret : MRet result := fun A a => Ok a.
#[global] Instance result_bind : MBind result := fun A B f r =>
  match r with
  | Ok a => f a
  | Err e => Err e
  end.
#[global] Instance result_fmap : FMap result := fun A B f r =>
  match r with
  | Ok a => Ok (f a)
  | Err e => Err e
  end.

Definition is_err {A} (r : result A) : Prop :=
  match r with
  | Ok _ => False
  | Err _ => True
  end.

(** [for (let i = 0; i < n; i++) acc = body(i, acc)]. *)
Definition for_loop {A} (n : nat) (body : nat -> A -> A) (init : A) : A :=
  fold_left (fun acc i => body i acc) (seq 0 n) init.

(** The same loop when the body may throw. *)
Definition for_loopM {A} (n : nat) (body : nat -> A -> result A) (init : A) : result A :=
  fold_left (fun acc i => a ← acc; body i a) (seq 0 n) (Ok init).

(** [xs.map(f)] when [f] may throw: the first failing element ends the map. *)
Fixpoint mapM {A B} (f : A -> result B) (xs : list A) : result (list B) :=
  match xs with
  | [] => Ok []
  | x :: rest => y ← f x; ys ← mapM f rest; Ok (y :: ys)
  end.

(** ** Numbers *)
Module Js.

(** A JavaScript Number. *)
Definition number : Type := spec_float.

Definition NaN : number := S754_nan.
Definition zero : number := S754_zero false.
Definition neg_infinity : number := S754_infinity true.

Definition add (x y : number) : number := SFadd 53 1024 x y.
Definition mul (x y : number) : number := SFmul 53 1024 x y.
Definition div (x y : number) : number := SFdiv 53 1024 x y.

(** The Number of an integer literal or integer-valued variable. *)
Definition of_Z (z : Z) : number := binary_normalize 53 1024 z 0 false.
Definition of_nat (n : nat) : number := of_Z (Z.of_nat n).

(** The canonical binary64 representation of a finite value [m * 2^e]
    (comparison of [spec_float]s relies on canonical mantissas). *)
Definition canon64 (x : number) : number :=
  match x with
  | S754_finite s m e => binary_normalize 53 1024 (cond_Zopp s (Zpos m)) e s
  | _ => x
  end.

(** [Math.fround]: what a store into a Float32Array keeps of a Number
    (round to nearest binary32, ties to even, then read back as a Number). *)
Definition fround (x : number) : number :=
  match x with
  | S754_finite s m e => canon64 (binary_normalize 24 128 (cond_Zopp s (Zpos m)) e s)
  | _ => x
  end.

(** ToNumber of a possibly missing array element ([undefined] is NaN). *)
Definition toNumber (v : option number) : number := default NaN v.

(** Numeric order used by [Math.max] and [>]; [None] when a NaN is involved. *)
Definition compare (x y : number) : option comparison := SFcompare x y.

(** One step of [Math.max]: NaN is contagious and +0 is above -0. *)
Definition max2 (x y : number) : number :=
  match compare x y with
  | None => NaN
  | Some Lt => y
  | Some Gt => x
  | Some Eq =>
      match x, y with
      | S754_zero true, S754_zero false => y
      | _, _ => x
      end
  end.

(** [Math.max] of the arguments [xs]; the empty call gives -Infinity. *)
Definition Math_max (xs : list (option number)) : number :=
  fold_left (fun acc v => max2 acc (toNumber v)) xs neg_infinity.

(** [f(...args)]: the arguments of a spread call are passed on the stack,
    and the host throws a RangeError when there are more of them than it
    can pass. This limit of the host, [argumentLimit], is a parameter of the
    functions that make such a call. *)
Definition spread {A B} (argumentLimit : nat) (f : list A -> B) (args : list A) : result B :=
  if argumentLimit <? length args then Err HostRangeError else Ok (f args).

(** ToInt32, applied by the bitwise operators to their operands. *)
Definition toInt32 (z : Z) : Z := ((z + 2 ^ 31) mod 2 ^ 32 - 2 ^ 31)%Z.

(** [a >> n] and [a & b] on integers. *)
Definition sar (a n : Z) : Z := Z.shiftr (toInt32 a) n.
Definition band (a b : Z) : Z := Z.land (toInt32 a) (toInt32 b).

(** [arr[i]] for a Number index [i]: [undefined] outside the array. *)
Definition index {A} (arr : list A) (i : Z) : option A :=
  if (i <? 0)%Z then None else arr !! Z.to_nat i.

(** *** Typed-array views over an ArrayBuffer (a list of bytes) *)

Definition byte_val (b : Byte.byte) : Z := Z.of_N (Byte.to_N b).

(** [new Uint8Array(buffer)] *)
Definition Uint8Array (buffer : list Byte.byte) : list Z := map byte_val buffer.

(** [new Int8Array(buffer)] *)
Definition int8_val (b : Byte.byte) : Z :=
  let v := byte_val b in if (128 <=? v)%Z then (v - 256)%Z else v.
Definition Int8Array (buffer : list Byte.byte) : list Z := map int8_val buffer.

(** The binary32 value of a 32-bit word. *)
Definition float32_of_bits (w : Z) : number :=
  let s := Z.testbit w 31 in
  let ex := Z.land (Z.shiftr w 23) 255 in
  let m := Z.land w 8388607 in
  if (ex =? 0)%Z then binary_normalize 53 1024 (cond_Zopp s m) (-149) s
  else if (ex =? 255)%Z then
    (if (m =? 0)%Z then S754_infinity s else S754_nan)
  else binary_normalize 53 1024 (cond_Zopp s (m + 8388608)) (ex - 150) s.

(** Little-endian groups of four bytes. *)
Fixpoint words32 (buffer : list Byte.byte) : list Z :=
  match buffer with
  | b0 :: b1 :: b2 :: b3 :: rest =>
      (byte_val b0 + 256 * byte_val b1 + 65536 * byte_val b2
       + 16777216 * byte_val b3)%Z :: words32 rest
  | _ => []
  end.

(** [new Float32Array(buffer)]: a RangeError unless the byte length is a
    multiple of four. *)
Definition Float32Array (buffer : list Byte.byte) : result (list number) :=
  if length buffer mod 4 =? 0 then Ok (map float32_of_bits (words32 buffer))
  else Err HostRangeError.

(** [new Float32Array(n)]: [n] zeros. *)
Definition Float32Array_new (n : nat) : list number := replicate n zero.

(** [out[i] = v] on a Float32Array: rounded to binary32, ignored out of range. *)
Definition store32 (out : list number) (i : nat) (v : number) : list number :=
  <[i := fround v]> out.

(** Truthiness of an optional string property. *)
Definition truthy (s : option string) : bool :=
  match s with
  | Some (String _ _) => true
  | _ => false
  end.

(** *** Integer-valued Numbers

    The result of [Math.floor] is an integer, an infinity or NaN; the
    comparisons and the clamps applied to such values are those of the
    integers. *)
Inductive integral : Type :=
  | Int (z : Z)
  | PosInf
  | NegInf
  | NotANumber.

(** The floor of the finite value [(-1)^s * m * 2^e]. *)
Definition floorZ (s : bool) (m : positive) (e : Z) : Z :=
  let v := cond_Zopp s (Zpos m) in
  if (0 <=? e)%Z then (v * 2 ^ e)%Z else (v / 2 ^ (- e))%Z.

Definition Math_floor (x : number) : integral :=
  match x with
  | S754_zero _ => Int 0
  | S754_infinity s => if s then NegInf else PosInf
  | S754_nan => NotANumber
  | S754_finite s m e => Int (floorZ s m e)
  end.

(** An integer-valued Number back among the Numbers. *)
Definition of_integral (v : integral) : number :=
  match v with
  | Int z => of_Z z
  | PosInf => S754_infinity false
  | NegInf => S754_infinity true
  | NotANumber => NaN
  end.

(** [v - 1] *)
Definition integral_pred (v : integral) : integral :=
  match v with
  | Int z => Int (z - 1)
  | _ => v
  end.

(** [Math.max(a, v)] and [Math.min(a, v)] for an integer [a]. *)
Definition Math_max_int (a : Z) (v : integral) : integral :=
  match v with
  | Int z => Int (Z.max a z)
  | PosInf => PosInf
  | NegInf => Int a
  | NotANumber => NotANumber
  end.

Definition Math_min_int (a : Z) (v : integral) : integral :=
  match v with
  | Int z => Int (Z.min a z)
  | PosInf => Int a
  | NegInf => NegInf
  | NotANumber => NotANumber
  end.

(** The values [i] visited by [for (let i = lo; i <= hi; i++)] when [hi] is
    not +Infinity: none unless both bounds are integers. *)
Definition loop_range (lo hi : integral) : list Z :=
  match lo, hi with
  | Int a, Int b => map (fun i => (a + Z.of_nat i)%Z) (seq 0 (Z.to_nat (b - a + 1)))
  | _, _ => []
  end.

(** [x > y] *)
Definition gt (x y : number) : bool :=
  match compare x y with
  | Some Gt => true
  | _ => false
  end.

End Js.

(** ** Strings

    A string is a sequence of code units below 256 (Latin-1), which covers
    every precision keyword and manifest key of the sources. *)
Module JsString.

(** The code units [String.prototype.trim] strips: TAB, LF, VT, FF, CR,
    SPACE and NO-BREAK SPACE. *)
Definition is_whitespace (c : ascii) : bool :=
  let n := nat_of_ascii c in
  ((9 <=? n) && (n <=? 13)) || (n =? 32) || (n =? 160).

Fixpoint trimStart (s : string) : string :=
  match s with
  | String c rest => if is_whitespace c then trimStart rest else s
  | EmptyString => EmptyString
  end.

Definition reverse (s : string) : string :=
  string_of_list_ascii (List.rev (list_ascii_of_string s)).

Definition trimEnd (s : string) : string := reverse (trimStart (reverse s)).

Definition trim (s : string) : string := trimEnd (trimStart s).

(** Lower-casing of one code unit: A-Z, and the Latin-1 capitals
    U+00C0..U+00DE except the multiplication sign U+00D7. *)
Definition lower_char (c : ascii) : ascii :=
  let n := nat_of_ascii c in
  if ((65 <=? n) && (n <=? 90))
     || ((192 <=? n) && (n <=? 222) && negb (n =? 215))
  then ascii_of_nat (n + 32)
  else c.

Fixpoint toLowerCase (s : string) : string :=
  match s with
  | String c rest => String (lower_char c) (toLowerCase rest)
  | EmptyString => EmptyString
  end.

End JsString.

(** ** Plain objects used as tables

    A bracket read [table[key]] on an object literal (or on an object parsed
    from JSON) finds the own properties first and then those of
    [Object.prototype]. A table is modelled by its own properties; the
    inherited ones are the same for every table. *)
Module JsObject.

(** The names every plain object inherits from [Object.prototype]: a
    bracket read of one of them gives a function or an object, which is
    truthy, is no string, and has none of the properties the sources read
    from a table entry. *)
Definition Object_prototype_names : list string :=
  ["constructor"; "__defineGetter__"; "__defineSetter__"; "hasOwnProperty";
   "__lookupGetter__"; "__lookupSetter__"; "isPrototypeOf"; "propertyIsEnumerable";
   "toString"; "valueOf"; "__proto__"; "toLocaleString"]%string.

Definition inherited (k : string) : bool := bool_decide (k ∈ Object_prototype_names).

(** The value of [table[key]]. *)
Inductive property (A : Type) : Type :=
  | Own (v : A)
  | Inherited
  | Missing.
Arguments Own {A} v.
Arguments Inherited {A}.
Arguments Missing {A}.

(** [table[k]], given the own property of that name, if any. *)
Definition read {A} (own : option A) (k : string) : property A :=
  match own with
  | Some v => Own v
  | None => if inherited k then Inherited else Missing
  end.

(** Truthiness of [table[key]] when the own values are objects or arrays. *)
Definition defined {A} (p : property A) : bool :=
  match p with
  | Missing => false
  | _ => true
  end.

End JsObject.

(** ** Data shared by the three source files *)

(** The four dimensions [[b, h, qDim, kDim]] of the tensor, as
    [attn_weights_shape] gives them. *)
Record Shape : Type := mkShape {
  batch : nat;
  heads : nat;
  queries : nat;
  keys : nat;
}.

Definition dims (shape : Shape) : list nat :=
  [batch shape; heads shape; queries shape; keys shape].

(** A loaded camera image (an [Image] element), by its pixel dimensions. *)
Record Image : Type := mkImage {
  height : nat;
  width : nat;
  naturalHeight : nat;
  naturalWidth : nat;
}.

(** [class PatchInfo], declared with the same fields in inverseAttention.js
    and in forwardAttention.js. *)
Record PatchInfo : Type := mkPatchInfo {
  camName : string;
  camIdx : nat;
  startIdx : nat;
  nPatches : nat;
  patchH : nat;
  patchW : nat;
  imgH : nat;
  imgW : nat;
  hScale : Js.number;
  wScale : Js.number;
}.

(** The options object of both visualizer constructors; [None] is a
    property left out. *)
Record VisualizerOptions : Type := mkVisualizerOptions {
  opt_gridSize : option nat;
  opt_patchSize : option nat;
  opt_hasClsTokens : option bool;
  opt_originalImages : option (list Image);
  opt_attnWeightsShape : option Shape;
}.

(** The options object of the query methods. *)
Record QueryOptions : Type := mkQueryOptions {
  opt_meanHeads : option bool;
  opt_headIdx : option nat;
  opt_aggregation : option string;
}.

(** [a || b] on non-negative integers. *)
Definition or_else (a b : nat) : nat := if a =? 0 then b else a.

(** [Array.prototype.sort(cmp)]: the stable sort by a comparator (the
    result the language fixes for a consistent comparator such as
    [localeCompare]). *)
Fixpoint sort_insert {A} (cmp : A -> A -> Z) (x : A) (l : list A) : list A :=
  match l with
  | [] => [x]
  | y :: rest => if (cmp x y <=? 0)%Z then x :: l else y :: sort_insert cmp x rest
  end.

Definition sort {A} (cmp : A -> A -> Z) (l : list A) : list A :=
  foldr (sort_insert cmp) [] l.

(** One entry of the array that [_buildPatchInfo] sorts. *)
Record Camera : Type := mkCamera {
  name : string;
  idx : nat;
  img : option Image;
  origImg : option Image;
}.

(** [this.cameraNames.map((name, idx) => ({name, idx, img, origImg}))] *)
Definition cameras_of (cameraNames : list string) (cameraImages originalImages : list Image)
  : list Camera :=
  imap (fun idx name =>
          {| name := name; idx := idx; img := cameraImages !! idx;
             origImg := originalImages !! idx |}) cameraNames.

(** [this._nameToInfo[info.camName] = info] for each info in turn. *)
Definition nameToInfo (infos : list PatchInfo) : gmap string PatchInfo :=
  fold_left (fun m info => <[camName info := info]> m) infos ∅.

(** ** shared/attentionDecode.js *)
Module AttentionDecode.

(** The value passed as requested precision: a URL parameter or option
    that may be missing. *)
Inductive jsvalue : Type :=
  | Undefined
  | Null
  | Str (s : string).

(** One entry of [attn_variants] (or the legacy descriptor). A property
    that is absent or not a string is [None]. *)
Record Variant : Type := mkVariant {
  file : option string;
  scale_file : option string;
  dtype : option string;
  encoding : option string;
}.

(** [sceneJson.attn_variants]: missing (or otherwise falsy), a truthy
    value that is not an object, or an object of the manifest ([{...}] in
    the JSON text; an array, which has the properties of [Array.prototype]
    as well, is not modelled). The object is modelled by its own properties
    with truthy values; a property whose value is falsy behaves as an
    absent one in every test the code makes. The properties it inherits
    from [Object.prototype] are added by [variant_at]. *)
Inductive AttnVariants : Type :=
  | VariantsMissing
  | VariantsNotObject
  | VariantsObject (m : gmap string Variant).

(** The fields of the scene manifest the decoder reads. A shape entry is a
    non-negative integer. *)
Record SceneJson : Type := mkSceneJson {
  attn_weights_shape : option (list nat);
  attn_variants : AttnVariants;
  attn_weights_file : option string;
  attn_precision_default : option string;  (* metadata.attn_precision_default, when a string *)
}.

Record Resolved : Type := mkResolved {
  key : string;
  variant : Variant;
  fallbackUsed : bool;
  requested : string;
}.

Definition normalizePrecision (value : jsvalue) : string :=
  let raw :=
    JsString.toLowerCase
      (JsString.trim
         match value with
         | Str (String c rest) => String c rest
         | _ => "auto"
         end) in
  if String.eqb raw "auto" then "auto"
  else if String.eqb raw "fp32" || String.eqb raw "float32" then "fp32"
  else if String.eqb raw "int8" || String.eqb raw "int8_phs_v1" then "int8"
  else if String.eqb raw "int4" || String.eqb raw "int4_phq_v1" then "int4"
  else "auto".

(** What the decoder reads from [variants[k]] when [k] names a property
    inherited from [Object.prototype]: the value is truthy and none of
    [file], [scale_file], [dtype] and [encoding] is defined on it. *)
Definition inherited_variant : Variant :=
  {| file := None; scale_file := None; dtype := None; encoding := None |}.

(** [variants[k]] when it is truthy: an own entry, or an inherited
    property of the object. *)
Definition variant_at (variants : gmap string Variant) (k : string) : option Variant :=
  match JsObject.read (variants !! k) k with
  | JsObject.Own v => Some v
  | JsObject.Inherited => Some inherited_variant
  | JsObject.Missing => None
  end.

(** [obj[key]] is truthy. *)
Definition has_variant (sceneJson : SceneJson) (k : string) : bool :=
  match attn_variants sceneJson with
  | VariantsObject m => bool_decide (is_Some (variant_at m k))
  | _ => false
  end.

Definition toVariantKey (requested : string) (sceneJson : SceneJson) : string :=
  if String.eqb requested "fp32" then "fp32"
  else if String.eqb requested "int8" then "int8_phs_v1"
  else if String.eqb requested "int4" then "int4_phq_v1"
  else
    let preferred := default EmptyString (attn_precision_default sceneJson) in
    if negb (String.eqb preferred EmptyString) && has_variant sceneJson preferred then preferred
    else if has_variant sceneJson "int4_phq_v1" then "int4_phq_v1"
    else if has_variant sceneJson "int8_phs_v1" then "int8_phs_v1"
    else if has_variant sceneJson "fp32" then "fp32"
    else EmptyString.

Definition ensureShape (sceneJson : SceneJson) : result Shape :=
  match attn_weights_shape sceneJson with
  | Some [b; h; qDim; kDim] => Ok (mkShape b h qDim kDim)
  | _ => Err InvalidShape
  end.

Definition prod (nums : list nat) : nat := fold_left Nat.mul nums 1.

Definition buildLegacyFp32Variant (sceneJson : SceneJson) : option Variant :=
  if Js.truthy (attn_weights_file sceneJson) then
    Some {| file := attn_weights_file sceneJson; scale_file := None;
            dtype := Some "float32"%string; encoding := Some "raw"%string |}
  else None.

Definition resolveAttentionVariant (sceneJson : SceneJson) (urlPrecision : jsvalue)
  : result Resolved :=
  let requested :=
    normalizePrecision
      match urlPrecision with
      | Undefined => Str "auto"
      | v => v
      end in
  let explicit := String.eqb requested "int8" || String.eqb requested "int4" in
  match attn_variants sceneJson with
  | VariantsMissing | VariantsNotObject =>
      if explicit then Err (NoVariantsProvided requested)
      else
        match buildLegacyFp32Variant sceneJson with
        | None => Err NoBinaryReference
        | Some legacy =>
            Ok {| key := "fp32"; variant := legacy;
                  fallbackUsed := negb (String.eqb requested "auto");
                  requested := requested |}
        end
  | VariantsObject variants =>
      let key := toVariantKey requested sceneJson in
      if String.eqb key EmptyString then
        match buildLegacyFp32Variant sceneJson with
        | None => Err NoUsableVariants
        | Some legacy =>
            Ok {| key := "fp32"; variant := legacy;
                  fallbackUsed := negb (String.eqb requested "auto");
                  requested := requested |}
        end
      else
        match variant_at variants key with
        | None =>
            if explicit then Err (RequestedVariantMissing requested)
            else
              match variant_at variants "fp32" with
              | Some fallback =>
                  Ok {| key := "fp32"; variant := fallback; fallbackUsed := true;
                        requested := requested |}
              | None =>
                  match buildLegacyFp32Variant sceneJson with
                  | Some fallback =>
                      Ok {| key := "fp32"; variant := fallback; fallbackUsed := true;
                            requested := requested |}
                  | None => Err (VariantUnavailable key)
                  end
              end
        | Some variant =>
            let fallbackUsed :=
              (String.eqb requested "int8" && negb (String.eqb key "int8_phs_v1"))
              || (String.eqb requested "int4" && negb (String.eqb key "int4_phq_v1")) in
            Ok {| key := key; variant := variant; fallbackUsed := fallbackUsed;
                  requested := requested |}
        end
  end.

(** The object returned by [loadAttentionAsFloat32]. *)
Module Loaded.
Record t : Type := mk {
  float32 : list Js.number;
  shape : Shape;
  selectedPrecision : string;
  fallbackUsed : bool;
  requestedPrecision : string;
}.
End Loaded.

Section Loaders.

(** [fetchArrayBufferOrThrow(new URL(file, jsonUrl))] for the scene at
    hand: the bytes of the side-car file, or the error of a failed
    request. *)
Variable fetchArrayBufferOrThrow : string -> result (list Byte.byte).

(** The two requests of a quantized variant run concurrently; when both
    fail, [payloadFailsFirst file scaleFile] tells whether the request for
    the payload is the first of the two to fail. *)
Variable payloadFailsFirst : string -> string -> bool.

Definition loadRawFp32 (variant : Variant) (shape : Shape) : result (list Js.number) :=
  if negb (Js.truthy (file variant)) then Err Fp32MissingFile
  else
    buffer ← fetchArrayBufferOrThrow (default EmptyString (file variant));
    out ← Js.Float32Array buffer;
    let expected := prod (dims shape) in
    if negb (length out =? expected) then Err (Fp32SizeMismatch (length out) expected)
    else Ok out.

(** [Promise.all] of the two requests: both are made, and the promise
    rejects with the error of the request that fails first. *)
Definition fetchBoth (file scaleFile : option string)
  : result (list Byte.byte * list Byte.byte) :=
  let qUrl := default EmptyString file in
  let sUrl := default EmptyString scaleFile in
  match fetchArrayBufferOrThrow qUrl, fetchArrayBufferOrThrow sUrl with
  | Ok qBuffer, Ok sBuffer => Ok (qBuffer, sBuffer)
  | Err e, Ok _ => Err e
  | Ok _, Err e => Err e
  | Err qError, Err sError => Err (if payloadFailsFirst qUrl sUrl then qError else sError)
  end.

Definition loadInt8PerHead (variant : Variant) (shape : Shape) : result (list Js.number) :=
  if negb (Js.truthy (file variant)) || negb (Js.truthy (scale_file variant))
  then Err Int8MissingFiles
  else if negb (bool_decide (encoding variant = Some "symmetric_per_head"%string))
  then Err (Int8UnsupportedEncoding (encoding variant))
  else
    '(qBuffer, sBuffer) ← fetchBoth (file variant) (scale_file variant);
    let q := Js.Int8Array qBuffer in
    scales ← Js.Float32Array sBuffer;
    let '(b, h, qDim, kDim) := (batch shape, heads shape, queries shape, keys shape) in
    if negb (b =? 1) then Err (BatchSizeUnsupported b)
    else
      let expectedValues := b * h * qDim * kDim in
      if negb (length q =? expectedValues)
      then Err (Int8SizeMismatch (length q) expectedValues)
      else
        let expectedScales := h in
        if negb (length scales =? expectedScales)
        then Err (Int8ScalesMismatch (length scales) expectedScales)
        else
          let out := Js.Float32Array_new expectedValues in
          let headStride := qDim * kDim in
          Ok (for_loop h (fun head out =>
                let scale := Js.toNumber (scales !! head) in
                let base := head * headStride in
                for_loop headStride (fun i out =>
                  Js.store32 out (base + i)
                    (Js.mul (Js.toNumber (Js.of_Z <$> q !! (base + i))) scale))
                  out)
                out).

Definition nibbleToSigned (value : Z) : Z :=
  if negb (Js.band value 8 =? 0)%Z then (value - 16)%Z else value.

(** A missing element of [packed] reads as [undefined], which the
    bitwise operators convert to 0. *)
Definition int4At (packed : list Z) (index : Z) : Z :=
  let byte := default 0%Z (Js.index packed (Js.sar index 1)) in
  if (Js.band index 1 =? 0)%Z then nibbleToSigned (Js.band byte 15)
  else nibbleToSigned (Js.band (Js.sar byte 4) 15).

Definition loadInt4Packed (variant : Variant) (shape : Shape) : result (list Js.number) :=
  if negb (Js.truthy (file variant)) || negb (Js.truthy (scale_file variant))
  then Err Int4MissingFiles
  else
    '(qBuffer, sBuffer) ← fetchBoth (file variant) (scale_file variant);
    let packed := Js.Uint8Array qBuffer in
    scales ← Js.Float32Array sBuffer;
    let '(b, h, qDim, kDim) := (batch shape, heads shape, queries shape, keys shape) in
    if negb (b =? 1) then Err (BatchSizeUnsupported b)
    else
      let expectedValues := b * h * qDim * kDim in
      let expectedPacked := (expectedValues + 1) / 2 in  (* Math.ceil(expectedValues / 2) *)
      if negb (length packed =? expectedPacked)
      then Err (Int4PackedMismatch (length packed) expectedPacked)
      else
        let expectedScales := h * qDim in
        if negb (length scales =? expectedScales)
        then Err (Int4ScalesMismatch (length scales) expectedScales)
        else
          let out := Js.Float32Array_new expectedValues in
          Ok (for_loop h (fun head out =>
                for_loop qDim (fun q out =>
                  let scale := Js.toNumber (scales !! (head * qDim + q)) in
                  let base := (head * qDim + q) * kDim in
                  for_loop kDim (fun k out =>
                    let idx := base + k in
                    Js.store32 out idx
                      (Js.mul (Js.of_Z (int4At packed (Z.of_nat idx))) scale))
                    out)
                  out)
                out).

Definition loadAttentionAsFloat32 (sceneJson : SceneJson) (urlPrecision : jsvalue)
  : result Loaded.t :=
  shape ← ensureShape sceneJson;
  resolved ← resolveAttentionVariant sceneJson urlPrecision;
  let variant := variant resolved in
  let dtype := JsString.toLowerCase (default EmptyString (dtype variant)) in
  let encoding := JsString.toLowerCase (default EmptyString (encoding variant)) in
  float32 ←
    (if String.eqb dtype "int4"
        || String.eqb encoding "symmetric_per_head_query_packed_int4"
     then loadInt4Packed variant shape
     else if String.eqb dtype "int8" || String.eqb encoding "symmetric_per_head"
     then loadInt8PerHead variant shape
     else loadRawFp32 variant shape);
  Ok {| Loaded.float32 := float32;
        Loaded.shape := shape;
        Loaded.selectedPrecision := key resolved;
        Loaded.fallbackUsed := fallbackUsed resolved;
        Loaded.requestedPrecision := requested resolved |}.

End Loaders.

End AttentionDecode.

(** ** interactive_invattention_js: class InverseAttentionVisualizer

    The visualizer over the flat tensor handed over by the scene loader (a
    Float32Array and its shape), with [Image] elements as camera images; the
    collation of the host, [String.prototype.localeCompare], is a parameter.
    [Math.floor(H / patchSize)] is the integer quotient; a constructed
    visualizer has a non-zero [patchSize] (0 is replaced by 14). *)
Module InverseAttention.

Record InverseAttentionVisualizer : Type := mkVisualizer {
  attnWeightsFlat : list Js.number;
  attnWeightsShape : Shape;
  cameraImages : list Image;
  originalImages : list Image;
  cameraNames : list string;
  gridSize : nat;
  patchSize : nat;
  hasClsTokens : bool;
  nQueries : nat;
  nHeads : nat;
  _patchInfo : list PatchInfo;
  _nameToInfo : gmap string PatchInfo;
}.

Section Layout.

Variable localeCompare : string -> string -> Z.

(** The body of [cameras.forEach]: the infos pushed so far and
    [currentIdx]. *)
Definition layoutStep (patchSize : nat) (hasClsTokens : bool)
    (st : list PatchInfo * nat) (cam : Camera) : result (list PatchInfo * nat) :=
  let '(infos, currentIdx) := st in
  match img cam with
  | None => Err HostTypeError
  | Some img =>
      let H := height img in
      let W := width img in
      let patchH := H / patchSize in
      let patchW := W / patchSize in
      let nPatches := patchH * patchW in
      match origImg cam with
      | None => Err HostTypeError
      | Some origImg =>
          let origH := height origImg in
          let origW := width origImg in
          let hScale := Js.div (Js.of_nat origH) (Js.of_nat H) in
          let wScale := Js.div (Js.of_nat origW) (Js.of_nat W) in
          let currentIdx := if hasClsTokens then currentIdx + 1 else currentIdx in
          Ok (infos ++ [mkPatchInfo (name cam) (idx cam) currentIdx nPatches
                          patchH patchW H W hScale wScale],
              currentIdx + nPatches)
      end
  end.

(** The walk of [_buildPatchInfo] with its final cursor. *)
Definition layoutWalk (cameraNames : list string) (cameraImages originalImages : list Image)
    (patchSize : nat) (hasClsTokens : bool) : result (list PatchInfo * nat) :=
  let cameras :=
    sort (fun a b => localeCompare (name a) (name b))
         (cameras_of cameraNames cameraImages originalImages) in
  fold_left (fun st cam => st ← st; layoutStep patchSize hasClsTokens st cam)
            cameras (Ok ([], 0)).

Definition _buildPatchInfo (cameraNames : list string)
    (cameraImages originalImages : list Image) (patchSize : nat) (hasClsTokens : bool)
  : result (list PatchInfo) :=
  fst <$> layoutWalk cameraNames cameraImages originalImages patchSize hasClsTokens.

(** [new InverseAttentionVisualizer(attnWeights, cameraImages, cameraNames, options)] *)
Definition constructor (attnWeights : list Js.number) (cameraImages : list Image)
    (cameraNames : list string) (options : VisualizerOptions)
  : result InverseAttentionVisualizer :=
  let attnWeightsShape := default (mkShape 1 8 1024 1645) (opt_attnWeightsShape options) in
  let originalImages := default cameraImages (opt_originalImages options) in
  let gridSize := or_else (default 0 (opt_gridSize options)) 32 in
  let patchSize := or_else (default 0 (opt_patchSize options)) 14 in
  let hasClsTokens := default true (opt_hasClsTokens options) in
  infos ← _buildPatchInfo cameraNames cameraImages originalImages patchSize hasClsTokens;
  Ok {| attnWeightsFlat := attnWeights;
        attnWeightsShape := attnWeightsShape;
        cameraImages := cameraImages;
        originalImages := originalImages;
        cameraNames := cameraNames;
        gridSize := gridSize;
        patchSize := patchSize;
        hasClsTokens := hasClsTokens;
        nQueries := gridSize * gridSize;
        nHeads := heads attnWeightsShape;
        _patchInfo := infos;
        _nameToInfo := nameToInfo infos |}.

End Layout.

Definition _getAttnFlat (this : InverseAttentionVisualizer) (b h q k : nat)
  : option Js.number :=
  let '(d2, d3, d4) := (heads (attnWeightsShape this), queries (attnWeightsShape this),
                        keys (attnWeightsShape this)) in
  let idx := b * d2 * d3 * d4 + h * d3 * d4 + q * d4 + k in
  attnWeightsFlat this !! idx.

(** The array [patchAttn] of [getInverseAttention]: for each query, the
    attention to each selected key (an element may be [undefined] when a
    single head is read out of range). *)
Definition patchAttn (this : InverseAttentionVisualizer) (patchIndices : list nat)
    (options : QueryOptions) : result (list (list (option Js.number))) :=
  let meanHeads := default true (opt_meanHeads options) in
  let headIdx := opt_headIdx options in
  let Q := nQueries this in
  let H := nHeads this in
  if meanHeads then
    Ok (map (fun q =>
               map (fun kIdx =>
                      let sum :=
                        for_loop H (fun h sum =>
                          Js.add sum (Js.toNumber (_getAttnFlat this 0 h q kIdx))) Js.zero in
                      Some (Js.div sum (Js.of_nat H)))
                   patchIndices)
            (seq 0 Q))
  else
    match headIdx with
    | Some headIdx =>
        Ok (map (fun q => map (fun kIdx => _getAttnFlat this 0 headIdx q kIdx) patchIndices)
                (seq 0 Q))
    | None => Err HeadNotSpecified
    end.

(** [qAttn.reduce((sum, val) => sum + val, 0)] *)
Definition reduce_sum (qAttn : list (option Js.number)) : Js.number :=
  fold_left (fun sum val => Js.add sum (Js.toNumber val)) qAttn Js.zero.

(** [argumentLimit] is the limit of the host on the arguments of the
    spread call [Math.max(...qAttn)]. *)
Definition getInverseAttention (argumentLimit : nat) (this : InverseAttentionVisualizer)
    (patchIndices : list nat) (options : QueryOptions)
  : result (list (list (option Js.number))) :=
  let aggregation := default "sum"%string (opt_aggregation options) in
  patchAttn ← patchAttn this patchIndices options;
  bevAttn ←
    (if String.eqb aggregation "sum" then Ok (map reduce_sum patchAttn)
     else if String.eqb aggregation "max" then
       mapM (Js.spread argumentLimit Js.Math_max) patchAttn
     else if String.eqb aggregation "mean" then
       Ok (map (fun qAttn => Js.div (reduce_sum qAttn) (Js.of_nat (length qAttn))) patchAttn)
     else Err (UnknownAggregation aggregation));
  Ok (map (fun y => map (fun x => bevAttn !! (y * gridSize this + x))
                        (seq 0 (gridSize this)))
          (seq 0 (gridSize this))).

(** [this._nameToInfo[camName]]: the table is a plain object whose own
    properties are those the constructor stored, one per camera name (a
    camera named "__proto__", whose assignment would replace the prototype
    of the table, is outside the model). *)
Definition getCameraInfo (this : InverseAttentionVisualizer) (camName : string)
  : JsObject.property PatchInfo :=
  JsObject.read (_nameToInfo this !! camName) camName.

(** A name with no property at all makes the reads on [info] throw; on an
    inherited property [info.nPatches] is [undefined] and the loop does not
    run. *)
Definition getAllPatchesForCamera (this : InverseAttentionVisualizer) (camName : string)
  : result (list nat) :=
  match getCameraInfo this camName with
  | JsObject.Missing => Err HostTypeError
  | JsObject.Inherited => Ok []
  | JsObject.Own info =>
      Ok (for_loop (nPatches info) (fun i indices => indices ++ [startIdx info + i]) [])
  end.

(** [xRange] and [yRange] are pairs of pixel coordinates ([None] for the
    default [null]); the indices pushed are integers. The upper bound of each
    loop is a [Math.min] with an integer, hence never +Infinity, and the
    loop variables stay between 0 and the patch grid size, so that the index
    arithmetic is that of the integers. On an inherited property every
    field read is [undefined], all four patch bounds are NaN and no loop
    runs. *)
Definition getPatchIndicesForRegion (this : InverseAttentionVisualizer) (camName : string)
    (xRange yRange : option (Js.number * Js.number)) : result (list Z) :=
  match getCameraInfo this camName with
  | JsObject.Missing => Err HostTypeError
  | JsObject.Inherited => Ok []
  | JsObject.Own info =>
      let xRange :=
        match xRange with
        | Some r => r
        | None =>
            (Js.of_Z 0,
             Js.of_integral
               (Js.integral_pred (Js.Math_floor (Js.mul (Js.of_nat (imgW info)) (wScale info)))))
        end in
      let yRange :=
        match yRange with
        | Some r => r
        | None =>
            (Js.of_Z 0,
             Js.of_integral
               (Js.integral_pred (Js.Math_floor (Js.mul (Js.of_nat (imgH info)) (hScale info)))))
        end in
      let toPatch (pixel scale : Js.number) :=
        Js.Math_floor (Js.div (Js.div pixel scale) (Js.of_nat (patchSize this))) in
      let patchXMin := Js.Math_max_int 0 (toPatch (fst xRange) (wScale info)) in
      let patchXMax :=
        Js.Math_min_int (Z.of_nat (patchW info) - 1) (toPatch (snd xRange) (wScale info)) in
      let patchYMin := Js.Math_max_int 0 (toPatch (fst yRange) (hScale info)) in
      let patchYMax :=
        Js.Math_min_int (Z.of_nat (patchH info) - 1) (toPatch (snd yRange) (hScale info)) in
      Ok (fold_left (fun indices py =>
            fold_left (fun indices px =>
              let localIdx := (py * Z.of_nat (patchW info) + px)%Z in
              let globalIdx := (Z.of_nat (startIdx info) + localIdx)%Z in
              indices ++ [globalIdx])
              (Js.loop_range patchXMin patchXMax) indices)
            (Js.loop_range patchYMin patchYMax) [])
  end.

(** [_meanOverHeads] on the flat tensor (its argument is not read there). *)
Definition _meanOverHeads (this : InverseAttentionVisualizer) : list (list Js.number) :=
  let Q := nQueries this in
  let K := keys (attnWeightsShape this) in
  let H := nHeads this in
  map (fun q =>
         map (fun k =>
                let sum :=
                  for_loop H (fun h sum =>
                    Js.add sum (Js.toNumber (_getAttnFlat this 0 h q k))) Js.zero in
                Js.div sum (Js.of_nat H))
             (seq 0 K))
      (seq 0 Q).

Definition getInverseAttentionPerCamera (argumentLimit : nat)
    (this : InverseAttentionVisualizer) (options : QueryOptions)
  : result (gmap string (list (list (option Js.number)))) :=
  fold_left (fun result camName =>
       result ← result;
       patches ← getAllPatchesForCamera this camName;
       bevMap ← getInverseAttention argumentLimit this patches options;
       Ok (<[camName := bevMap]> result))
    (cameraNames this) (Ok ∅).

End InverseAttention.

(** ** interactive_forwardattention_js/src/forwardAttention.js: class
    ForwardAttentionVisualizer, under the same conventions *)
Module ForwardAttention.

Record ForwardAttentionVisualizer : Type := mkVisualizer {
  attnWeightsFlat : list Js.number;
  attnWeightsShape : Shape;
  cameraImages : list Image;
  originalImages : list Image;
  cameraNames : list string;
  gridSize : nat;
  patchSize : nat;
  hasClsTokens : bool;
  nQueries : nat;
  nHeads : nat;
  kSize : nat;
  _patchInfo : list PatchInfo;
  _nameToInfo : gmap string PatchInfo;
}.

Section Layout.

Variable localeCompare : string -> string -> Z.

Definition layoutStep (patchSize : nat) (hasClsTokens : bool)
    (st : list PatchInfo * nat) (cam : Camera) : result (list PatchInfo * nat) :=
  let '(infos, currentIdx) := st in
  match img cam with
  | None => Err (UnknownImageFormat (name cam))
  | Some img =>
      let H := or_else (naturalHeight img) (or_else (height img) 0) in
      let W := or_else (naturalWidth img) (or_else (width img) 0) in
      if (H =? 0) || (W =? 0) then Err (ZeroSizeImage (name cam))
      else
        let patchH := H / patchSize in
        let patchW := W / patchSize in
        let nPatches := patchH * patchW in
        let '(origH, origW) :=
          match origImg cam with
          | Some origImg =>
              (or_else (naturalHeight origImg) (or_else (height origImg) 0),
               or_else (naturalWidth origImg) (or_else (width origImg) 0))
          | None => (H, W)
          end in
        let hScale := Js.div (Js.of_nat origH) (Js.of_nat H) in
        let wScale := Js.div (Js.of_nat origW) (Js.of_nat W) in
        let currentIdx := if hasClsTokens then currentIdx + 1 else currentIdx in
        Ok (infos ++ [mkPatchInfo (name cam) (idx cam) currentIdx nPatches
                        patchH patchW H W hScale wScale],
            currentIdx + nPatches)
  end.

Definition layoutWalk (cameraNames : list string) (cameraImages originalImages : list Image)
    (patchSize : nat) (hasClsTokens : bool) : result (list PatchInfo * nat) :=
  let cameras :=
    sort (fun a b => localeCompare (name a) (name b))
         (cameras_of cameraNames cameraImages originalImages) in
  fold_left (fun st cam => st ← st; layoutStep patchSize hasClsTokens st cam)
            cameras (Ok ([], 0)).

Definition _buildPatchInfo (cameraNames : list string)
    (cameraImages originalImages : list Image) (patchSize : nat) (hasClsTokens : bool)
  : result (list PatchInfo) :=
  fst <$> layoutWalk cameraNames cameraImages originalImages patchSize hasClsTokens.

(** [new ForwardAttentionVisualizer(attnWeights, cameraImages, cameraNames, options)] *)
Definition constructor (attnWeights : list Js.number) (cameraImages : list Image)
    (cameraNames : list string) (options : VisualizerOptions)
  : result ForwardAttentionVisualizer :=
  let attnWeightsShape := default (mkShape 1 8 1024 0) (opt_attnWeightsShape options) in
  let originalImages := default cameraImages (opt_originalImages options) in
  let gridSize := or_else (default 0 (opt_gridSize options)) 32 in
  let patchSize := or_else (default 0 (opt_patchSize options)) 14 in
  let hasClsTokens := default true (opt_hasClsTokens options) in
  infos ← _buildPatchInfo cameraNames cameraImages originalImages patchSize hasClsTokens;
  Ok {| attnWeightsFlat := attnWeights;
        attnWeightsShape := attnWeightsShape;
        cameraImages := cameraImages;
        originalImages := originalImages;
        cameraNames := cameraNames;
        gridSize := gridSize;
        patchSize := patchSize;
        hasClsTokens := hasClsTokens;
        nQueries := gridSize * gridSize;
        nHeads := heads attnWeightsShape;
        kSize := keys attnWeightsShape;
        _patchInfo := infos;
        _nameToInfo := nameToInfo infos |}.

End Layout.

(** [this._nameToInfo[camName]]: the table is a plain object whose own
    properties are those the constructor stored, one per camera name (a
    camera named "__proto__", whose assignment would replace the prototype
    of the table, is outside the model). *)
Definition getCameraInfo (this : ForwardAttentionVisualizer) (camName : string)
  : JsObject.property PatchInfo :=
  JsObject.read (_nameToInfo this !! camName) camName.

Definition _getAttnFlat (this : ForwardAttentionVisualizer) (b h q k : nat)
  : option Js.number :=
  let '(d2, d3, d4) := (heads (attnWeightsShape this), queries (attnWeightsShape this),
                        keys (attnWeightsShape this)) in
  let idx := b * d2 * d3 * d4 + h * d3 * d4 + q * d4 + k in
  attnWeightsFlat this !! idx.

Definition getCameraPatchAttentionForQuery (this : ForwardAttentionVisualizer)
    (queryIdx : nat) (camName : string) (options : QueryOptions)
  : result (list Js.number) :=
  let meanHeads := default true (opt_meanHeads options) in
  let headIdx := opt_headIdx options in
  match getCameraInfo this camName with
  | JsObject.Missing => Err (UnknownCamera camName)
  | JsObject.Inherited =>
      (* a truthy [info] whose [nPatches] is [undefined]: [new Float32Array(undefined)]
         is empty and no loop runs *)
      Ok (Js.Float32Array_new 0)
  | JsObject.Own info =>
      let out := Js.Float32Array_new (nPatches info) in
      let H := nHeads this in
      for_loopM (nPatches info) (fun i out =>
        let kIdx := startIdx info + i in
        if meanHeads then
          let sum :=
            for_loop H (fun h sum =>
              Js.add sum (Js.toNumber (_getAttnFlat this 0 h queryIdx kIdx))) Js.zero in
          Ok (Js.store32 out i (Js.div sum (Js.of_nat H)))
        else
          match headIdx with
          | Some headIdx =>
              Ok (Js.store32 out i (Js.toNumber (_getAttnFlat this 0 headIdx queryIdx kIdx)))
          | None => Err HeadNotSpecified
          end)
        out
  end.

Definition getNumHeads (this : ForwardAttentionVisualizer) : nat := nHeads this.

(** The inner loop of [getGlobalMaxPatchAttentionForQuery] over the patches
    of one camera. *)
Definition maxOverCamera (this : ForwardAttentionVisualizer) (queryIdx : nat)
    (options : QueryOptions) (info : PatchInfo) (maxVal : Js.number) : result Js.number :=
  let meanHeads := default true (opt_meanHeads options) in
  let headIdx := opt_headIdx options in
  let H := nHeads this in
  for_loopM (nPatches info) (fun i maxVal =>
    let kIdx := startIdx info + i in
    v ←
      (if meanHeads then
         let sum :=
           for_loop H (fun h sum =>
             Js.add sum (Js.toNumber (_getAttnFlat this 0 h queryIdx kIdx))) Js.zero in
         Ok (Js.div sum (Js.of_nat H))
       else
         match headIdx with
         | Some headIdx => Ok (Js.toNumber (_getAttnFlat this 0 headIdx queryIdx kIdx))
         | None => Err HeadNotSpecified
         end);
    Ok (if Js.gt v maxVal then v else maxVal))
    maxVal.

Definition getGlobalMaxPatchAttentionForQuery (this : ForwardAttentionVisualizer)
    (queryIdx : nat) (options : QueryOptions) : result Js.number :=
  fold_left (fun maxVal camName =>
       maxVal ← maxVal;
       match getCameraInfo this camName with
       | JsObject.Missing => Ok maxVal
       | JsObject.Inherited => Ok maxVal  (* [i < undefined] is false: no loop runs *)
       | JsObject.Own info => maxOverCamera this queryIdx options info maxVal
       end)
    (cameraNames this) (Ok Js.zero).

End ForwardAttention.

(** ** shared/cameraOrder.js *)
Module CameraOrder.
Export JsObject.

(** [table[k]] for an object literal [table], given by its entries. *)
Definition get {A} (table : list (string * A)) (k : string) : property A :=
  read (snd <$> List.find (fun kv => String.eqb (fst kv) k) table) k.

(** Truthiness of a string. *)
Definition nonempty (s : string) : bool :=
  match s with
  | EmptyString => false
  | String _ _ => true
  end.

Definition UI_ORDER : list (string * list string) :=
  [("av2", ["ring_rear_left"; "ring_side_left"; "ring_front_left"; "ring_front_center";
            "ring_front_right"; "ring_side_right"; "ring_rear_right"]);
   ("nuscenes", ["cam_back_left"; "cam_front_left"; "cam_front"; "cam_front_right";
                 "cam_back_right"; "cam_back"]);
   ("waymo", ["left"; "front_left"; "front"; "front_right"; "right"]);
   ("once", ["cam05"; "cam06"; "cam01"; "cam07"; "cam08"; "cam09"])]%string.

Definition AV2_ALIAS : list (string * string) :=
  [("front_center", "ring_front_center"); ("front", "ring_front_center");
   ("front_left", "ring_front_left"); ("front_right", "ring_front_right");
   ("side_left", "ring_side_left"); ("side_right", "ring_side_right");
   ("rear_left", "ring_rear_left"); ("rear_right", "ring_rear_right");
   ("back_left", "ring_rear_left"); ("back_right", "ring_rear_right")]%string.

Definition NUSCENES_ALIAS : list (string * string) :=
  [("front", "cam_front"); ("front_left", "cam_front_left");
   ("front_right", "cam_front_right"); ("back", "cam_back");
   ("back_left", "cam_back_left"); ("back_right", "cam_back_right")]%string.

Definition WAYMO_ALIAS : list (string * string) :=
  [("front_center", "front"); ("side_left", "left"); ("side_right", "right")]%string.

(** What [normalizeForDataset] returns: a string, or the inherited property
    of an alias table. *)
Inductive jskey : Type :=
  | KStr (s : string)
  | KObject.

(** [ALIAS[nameCanon] || nameCanon] (no alias is the empty string). *)
Definition alias_or (table : list (string * string)) (nameCanon : string) : jskey :=
  match get table nameCanon with
  | Own v => KStr v
  | Inherited => KObject
  | Missing => KStr nameCanon
  end.

Definition is_digit (c : ascii) : bool :=
  let n := nat_of_ascii c in (48 <=? n) && (n <=? 57).

Fixpoint all_digits (s : string) : bool :=
  match s with
  | EmptyString => true
  | String c rest => is_digit c && all_digits rest
  end.

(** [/^cam_\d+$/i.test(s)] *)
Definition is_cam_number (s : string) : bool :=
  match s with
  | String c (String a (String m (String u (String d rest)))) =>
      Ascii.eqb (JsString.lower_char c) "c" && Ascii.eqb (JsString.lower_char a) "a"
      && Ascii.eqb (JsString.lower_char m) "m" && Ascii.eqb u "_"
      && all_digits (String d rest)
  | _ => false
  end.

Definition drop_chars (n : nat) (s : string) : string :=
  String.substring n (String.length s - n) s.

(** [s.replace(pat, rep)] for a string pattern: the first occurrence only. *)
Fixpoint replace_first (pat rep s : string) : string :=
  if String.prefix pat s then String.append rep (drop_chars (String.length pat) s)
  else
    match s with
    | EmptyString => EmptyString
    | String c rest => String c (replace_first pat rep rest)
    end.

Definition normalizeForDataset (nameCanon : string) (dataset : string) : jskey :=
  match nameCanon with
  | EmptyString => KStr EmptyString
  | _ =>
      let ds := JsString.toLowerCase dataset in
      if String.eqb ds "av2" then
        if String.prefix "ring_" nameCanon then KStr nameCanon
        else alias_or AV2_ALIAS nameCanon
      else if String.eqb ds "nuscenes" then
        if String.prefix "cam_" nameCanon then KStr nameCanon
        else alias_or NUSCENES_ALIAS nameCanon
      else if String.eqb ds "waymo" then alias_or WAYMO_ALIAS nameCanon
      else if String.eqb ds "once" && is_cam_number nameCanon then
        KStr (replace_first "cam_" "cam" nameCanon)
      else KStr nameCanon
  end.

(** The characters of the class [[-\s]]. *)
Definition is_separator (c : ascii) : bool :=
  Ascii.eqb c "-" || JsString.is_whitespace c.

(** [s.replace(/[-\s]+/g, '_')]; [in_run] tells that the previous character
    was of the class. *)
Fixpoint replace_runs (in_run : bool) (s : string) : string :=
  match s with
  | EmptyString => EmptyString
  | String c rest =>
      if is_separator c then
        if in_run then replace_runs true rest else String "_" (replace_runs true rest)
      else String c (replace_runs false rest)
  end.

Definition canonicalizeName (name : string) : string :=
  match name with
  | EmptyString => EmptyString
  | _ => replace_runs false (JsString.toLowerCase (JsString.trim name))
  end.

(** [n === want] for a wanted string. *)
Definition key_is (n : jskey) (want : string) : bool :=
  match n with
  | KStr s => String.eqb s want
  | KObject => false
  end.

(** [arr.findIndex((n, i) => p(n, i))] *)
Fixpoint findIndex_from {A} (p : A -> nat -> bool) (i : nat) (arr : list A) : option nat :=
  match arr with
  | [] => None
  | n :: rest => if p n i then Some i else findIndex_from p (S i) rest
  end.
Definition findIndex {A} (p : A -> nat -> bool) (arr : list A) : option nat :=
  findIndex_from p 0 arr.

(** The candidate order of one dataset and its number of matches. *)
Record Candidate : Type := mkCandidate {
  ordered : list string;
  matchCount : nat;
}.

(** The body of [datasets.forEach] once [desired] is an array: [used[i]] of
    an index is [false] until it is picked, and [list[idx]] is read at an
    index of [canon], which has the length of [list]. *)
Definition orderFor (list : Datatypes.list string) (canon : Datatypes.list jskey)
    (desired : Datatypes.list string) : Candidate :=
  let '(ordered, used, matchCount) :=
    fold_left (fun '(ordered, used, matchCount) want =>
         match findIndex (fun n i => negb (default false (used !! i)) && key_is n want) canon with
         | Some idx =>
             (ordered ++ [default EmptyString (list !! idx)], <[idx := true]> used,
              matchCount + 1)
         | None => (ordered, used, matchCount)
         end)
      desired ([], replicate (length list) false, 0) in
  let ordered :=
    fold_left (fun ordered '(i, name) =>
         if negb (default false (used !! i)) then ordered ++ [name] else ordered)
      (imap pair list) ordered in
  mkCandidate ordered matchCount.

Definition orderCameraNamesForUi (names : list string) (datasetHint : option string)
  : result (list string) :=
  let list := names in
  if length list =? 0 then Ok []
  else
    let namesCanon := map canonicalizeName list in
    let hint :=
      match datasetHint with
      | Some (String c rest) => JsString.toLowerCase (String c rest)
      | _ => EmptyString
      end in
    let datasets :=
      if nonempty hint && defined (get UI_ORDER hint) then [hint] else [] in
    let datasets :=
      fold_left (fun datasets ds =>
           if bool_decide (ds ∈ datasets) then datasets else datasets ++ [ds])
        (map fst UI_ORDER) datasets in
    best ←
      fold_left (fun best dataset =>
           best ← best;
           match get UI_ORDER dataset with
           | Missing => Ok best
           | Inherited => Err HostTypeError
           | Own desired =>
               let canon := map (fun name => normalizeForDataset name dataset) namesCanon in
               let candidate := orderFor list canon desired in
               match best with
               | Some b =>
                   if matchCount b <? matchCount candidate then Ok (Some candidate)
                   else Ok best
               | None => Ok (Some candidate)
               end
           end)
        datasets (Ok None);
    let minMatches := if nonempty hint then 1 else 2 in
    match best with
    | Some b => if minMatches <=? matchCount b then Ok (ordered b) else Ok list
    | None => Ok list
    end.

End CameraOrder.

(** ** The display order of [loadSceneData] *)
Module SceneLoader.

(** The computation of [imageDisplayOrder] at the end of [loadSceneData], the
    same in the inverse and in the forward loader; [image_display_order] is
    [metadata.image_display_order] when it is an array. *)
Definition imageDisplayOrder (image_names : list string) (datasetHint : option string)
    (image_display_order : option (list string)) : result (list string) :=
  helperOrder ← CameraOrder.orderCameraNamesForUi image_names datasetHint;
  let helperReordered :=
    (length helperOrder =? length image_names)
    && existsb (fun '(idx, name) =>
                  negb (bool_decide (image_names !! idx = Some name)))
         (imap pair helperOrder) in
  if helperReordered then Ok helperOrder
  else
    match image_display_order with
    | Some (m :: rest) =>
        let baseOrder :=
          List.filter (fun name => bool_decide (name ∈ image_names)) (m :: rest) in
        let missing :=
          List.filter (fun name => negb (bool_decide (name ∈ baseOrder))) image_names in
        Ok (baseOrder ++ missing)
    | _ => Ok image_names
    end.

End SceneLoader.

(** ** Specification-level notions used to state the properties *)
Module Spec.

(** The signed nibble of element [i] in the words of the format: the low
    four bits of packed byte [i >> 1] for an even [i], the high four bits
    for an odd one, read in two's complement. *)
Definition signed_nibble (packed : list Z) (i : nat) : Z :=
  let byte := default 0%Z (packed !! (i / 2)) in
  let nibble :=
    if Nat.even i then Z.land byte 15 else Z.land (Z.shiftr byte 4) 15 in
  if (8 <=? nibble)%Z then (nibble - 16)%Z else nibble.

(** [head(i)] and [query(i)] of a flat index. *)
Definition head_of (qDim kDim i : nat) : nat := i / (qDim * kDim).
Definition query_of (qDim kDim i : nat) : nat := (i / kDim) mod qDim.

(** A prefix of a decoded buffer of [N] elements agrees with [G]. *)
Definition filled (N : nat) (G : nat -> Js.number) (m : nat) (out : list Js.number) : Prop :=
  length out = N /\ forall i, i < m -> out !! i = Some (G i).

(** The variant [k] is absent from the manifest. *)
Definition variant_absent (sceneJson : AttentionDecode.SceneJson) (k : string) : Prop :=
  AttentionDecode.has_variant sceneJson k = false.


(** The precision strings [normalizePrecision] recognizes. *)
Definition recognized : list string :=
  ["auto"; "fp32"; "float32"; "int8"; "int8_phs_v1"; "int4"; "int4_phq_v1"]%string.

(** The string [normalizePrecision] compares, after trimming and
    lower-casing. *)
Definition raw_precision (value : AttentionDecode.jsvalue) : string :=
  JsString.toLowerCase
    (JsString.trim
       match value with
       | AttentionDecode.Str (String c rest) => String c rest
       | _ => "auto"%string
       end).

(** Token ranges laid out one after the other from cursor [cur], each
    preceded by [cls] skipped slots. *)
Fixpoint contiguous_from (cls cur : nat) (infos : list PatchInfo) : Prop :=
  match infos with
  | [] => True
  | p :: rest =>
      startIdx p = cur + cls /\ contiguous_from cls (startIdx p + nPatches p) rest
  end.

Definition total_patches (infos : list PatchInfo) : nat :=
  foldr (fun p acc => nPatches p + acc) 0 infos.

Definition cls_slots (hasClsTokens : bool) : nat := if hasClsTokens then 1 else 0.

(** Byte order on names: lexicographic on code units, case-sensitive. *)
Definition byte_lt (a b : string) : Prop := String.compare a b = Lt.

(** A collation that ranks letters first without regard to case, as the
    browsers' default collation does on unaccented letters. *)
Definition caselessCompare (a b : string) : Z :=
  match String.compare (JsString.toLowerCase a) (JsString.toLowerCase b) with
  | Lt => (-1)%Z
  | Eq => 0%Z
  | Gt => 1%Z
  end.

(** What the constructors establish about a visualizer. *)
Definition inverse_wf (this : InverseAttention.InverseAttentionVisualizer) : Prop :=
  InverseAttention.nQueries this
  = InverseAttention.gridSize this * InverseAttention.gridSize this.

(** The three encodings of the binary payload and their loaders. *)
Inductive Encoding : Type := Fp32 | Int8 | Int4.

Definition loader (enc : Encoding) (fetch : string -> result (list Byte.byte))
    (payloadFailsFirst : string -> string -> bool) :=
  match enc with
  | Fp32 => AttentionDecode.loadRawFp32 fetch
  | Int8 => AttentionDecode.loadInt8PerHead fetch payloadFailsFirst
  | Int4 => AttentionDecode.loadInt4Packed fetch payloadFailsFirst
  end.

(** The exact byte length of the payload file of a [1, H, Q, K] tensor. *)
Definition payload_bytes (enc : Encoding) (H Q K : nat) : nat :=
  match enc with
  | Fp32 => 4 * (H * Q * K)
  | Int8 => H * Q * K
  | Int4 => (H * Q * K + 1) / 2
  end.

(** The exact byte length of the scale file, for the encodings that have one. *)
Definition scale_bytes (enc : Encoding) (H Q : nat) : option nat :=
  match enc with
  | Fp32 => None
  | Int8 => Some (4 * H)
  | Int4 => Some (4 * (H * Q))
  end.

(** The mean over the [H] heads of [tensor(h, q, k)], read from the flat
    buffer at [h*Q*K + q*K + k] and accumulated from head 0 upwards. *)
Definition head_mean (flat : list Js.number) (shape : Shape) (H q k : nat) : Js.number :=
  Js.div
    (for_loop H (fun h sum =>
       Js.add sum
         (Js.toNumber (flat !! (h * queries shape * keys shape + q * keys shape + k))))
       Js.zero)
    (Js.of_nat H).

(** A [gridSize] x [gridSize] map holding [v] in every cell. *)
Definition constant_map (gridSize : nat) (v : Js.number) : list (list (option Js.number)) :=
  replicate gridSize (replicate gridSize (Some v)).

(** *** Small concrete scenes *)

(** Side-car files: two binary32 values 1 and 2, two packed bytes, four
    int8 values. *)
Definition demo_fetch (f : string) : result (list Byte.byte) :=
  if String.eqb f "attn.bin" || String.eqb f "scales.bin" then
    Ok [Byte.x00; Byte.x00; Byte.x80; Byte.x3f; Byte.x00; Byte.x00; Byte.x00; Byte.x40]
  else if String.eqb f "attn_int4.bin" then Ok [Byte.x1f; Byte.x80]
  else if String.eqb f "attn_int8.bin" then Ok [Byte.x01; Byte.xff; Byte.x7f; Byte.x80]
  else Err (FetchFailed f 404).

(** A host on which the payload request is the first to fail. *)
Definition demo_race (file scaleFile : string) : bool := true.

(** A host that passes up to 125000 spread arguments. *)
Definition demo_limit : nat := 125 * 1000.

Definition demo_fp32 : AttentionDecode.Variant :=
  AttentionDecode.mkVariant (Some "attn.bin"%string) None None None.

Definition demo_int4 : AttentionDecode.Variant :=
  AttentionDecode.mkVariant (Some "attn_int4.bin"%string) (Some "scales.bin"%string)
    (Some "int4"%string) (Some "symmetric_per_head_query_packed_int4"%string).

(** A manifest declaring a batch of two with an fp32 variant only. *)
Definition demo_scene_batch2 : AttentionDecode.SceneJson :=
  {| AttentionDecode.attn_weights_shape := Some [2; 1; 1; 1];
     AttentionDecode.attn_variants := AttentionDecode.VariantsObject {[ "fp32"%string := demo_fp32 ]};
     AttentionDecode.attn_weights_file := None;
     AttentionDecode.attn_precision_default := None |}.


(** An inverse visualizer over a 2 x 2 grid, one head and one key. *)
Definition demo_grid : InverseAttention.InverseAttentionVisualizer :=
  {| InverseAttention.attnWeightsFlat := replicate 4 (Js.of_Z 1);
     InverseAttention.attnWeightsShape := mkShape 1 1 4 1;
     InverseAttention.cameraImages := [];
     InverseAttention.originalImages := [];
     InverseAttention.cameraNames := [];
     InverseAttention.gridSize := 2;
     InverseAttention.patchSize := 14;
     InverseAttention.hasClsTokens := false;
     InverseAttention.nQueries := 4;
     InverseAttention.nHeads := 1;
     InverseAttention._patchInfo := [];
     InverseAttention._nameToInfo := ∅ |}.

(** Two heads, one query, one key: the values 1 and 1 + 2^-23. *)
Definition demo_flat : list Js.number :=
  [Js.float32_of_bits 1065353216; Js.float32_of_bits 1065353217].
Definition demo_shape : Shape := mkShape 1 2 1 1.
Definition demo_image : Image := mkImage 14 14 14 14.
Definition demo_options : VisualizerOptions :=
  {| opt_gridSize := Some 1; opt_patchSize := Some 14; opt_hasClsTokens := Some false;
     opt_originalImages := None; opt_attnWeightsShape := Some demo_shape |}.
Definition demo_info : PatchInfo :=
  mkPatchInfo "cam" 0 0 1 1 1 14 14 (Js.of_Z 1) (Js.of_Z 1).

Definition demo_forward : ForwardAttention.ForwardAttentionVisualizer :=
  {| ForwardAttention.attnWeightsFlat := demo_flat;
     ForwardAttention.attnWeightsShape := demo_shape;
     ForwardAttention.cameraImages := [demo_image];
     ForwardAttention.originalImages := [demo_image];
     ForwardAttention.cameraNames := ["cam"%string];
     ForwardAttention.gridSize := 1;
     ForwardAttention.patchSize := 14;
     ForwardAttention.hasClsTokens := false;
     ForwardAttention.nQueries := 1;
     ForwardAttention.nHeads := 2;
     ForwardAttention.kSize := 1;
     ForwardAttention._patchInfo := [demo_info];
     ForwardAttention._nameToInfo := {[ "cam"%string := demo_info ]} |}.

(** Two heads holding 1 + 2^-23 and 1 + 2^-22: their mean, 1 + 1.5 * 2^-23,
    is no binary32 value. *)
Definition demo_rounding : ForwardAttention.ForwardAttentionVisualizer :=
  {| ForwardAttention.attnWeightsFlat :=
       [Js.float32_of_bits 1065353217; Js.float32_of_bits 1065353218];
     ForwardAttention.attnWeightsShape := demo_shape;
     ForwardAttention.cameraImages := [demo_image];
     ForwardAttention.originalImages := [demo_image];
     ForwardAttention.cameraNames := ["cam"%string];
     ForwardAttention.gridSize := 1;
     ForwardAttention.patchSize := 14;
     ForwardAttention.hasClsTokens := false;
     ForwardAttention.nQueries := 1;
     ForwardAttention.nHeads := 2;
     ForwardAttention.kSize := 1;
     ForwardAttention._patchInfo := [demo_info];
     ForwardAttention._nameToInfo := {[ "cam"%string := demo_info ]} |}.

Definition demo_inverse : InverseAttention.InverseAttentionVisualizer :=
  {| InverseAttention.attnWeightsFlat := demo_flat;
     InverseAttention.attnWeightsShape := demo_shape;
     InverseAttention.cameraImages := [demo_image];
     InverseAttention.originalImages := [demo_image];
     InverseAttention.cameraNames := ["cam"%string];
     InverseAttention.gridSize := 1;
     InverseAttention.patchSize := 14;
     InverseAttention.hasClsTokens := false;
     InverseAttention.nQueries := 1;
     InverseAttention.nHeads := 2;
     InverseAttention._patchInfo := [demo_info];
     InverseAttention._nameToInfo := {[ "cam"%string := demo_info ]} |}.


(** *** Notions for the further properties *)



(** Every code unit of [s] is one that [trim] strips. *)
Fixpoint all_whitespace (s : string) : bool :=
  match s with
  | EmptyString => true
  | String c rest => JsString.is_whitespace c && all_whitespace rest
  end.

(** What a layout entry records about the camera it was built from, with
    [dims] giving the pixel size read from the camera's scaled image. *)
Definition info_of_camera (dims : Image -> nat * nat) (patchSize : nat)
    (cam : Camera) (p : PatchInfo) : Prop :=
  camName p = name cam
  /\ camIdx p = idx cam
  /\ (exists im, img cam = Some im /\ (imgH p, imgW p) = dims im)
  /\ patchH p = imgH p / patchSize
  /\ patchW p = imgW p / patchSize
  /\ nPatches p = patchH p * patchW p.

(** The size the inverse builder reads, and the one the forward builder
    reads (natural size first). *)
Definition inverse_dims (im : Image) : nat * nat := (height im, width im).
Definition forward_dims (im : Image) : nat * nat :=
  (or_else (naturalHeight im) (or_else (height im) 0),
   or_else (naturalWidth im) (or_else (width im) 0)).

(** The same fact in terms of the constructor's arguments. *)
Definition info_of_arguments (dims : Image -> nat * nat) (patchSize : nat)
    (names : list string) (images : list Image) (p : PatchInfo) : Prop :=
  names !! camIdx p = Some (camName p)
  /\ (exists im, images !! camIdx p = Some im /\ (imgH p, imgW p) = dims im)
  /\ patchH p = imgH p / patchSize
  /\ patchW p = imgW p / patchSize
  /\ nPatches p = patchH p * patchW p.

(** A decoded image element: its natural size is its size, and neither
    dimension is zero. *)
Definition decoded (im : Image) : Prop :=
  naturalHeight im = height im /\ naturalWidth im = width im
  /\ height im <> 0 /\ width im <> 0.

(** The options select heads: the mean over all of them (the default) or one
    of them. *)
Definition heads_selected (options : QueryOptions) : bool :=
  default true (opt_meanHeads options) || bool_decide (is_Some (opt_headIdx options)).

Definition known_aggregation (a : string) : Prop :=
  a = "sum"%string \/ a = "max"%string \/ a = "mean"%string.

(** The selection of [getInverseAttention] exceeds what the spread call
    [Math.max(...qAttn)] of the 'max' aggregation can pass on a host of
    argument limit [limit]: there is a query row to reduce and it is longer
    than the limit. *)
Definition spread_overflow (limit : nat) (this : InverseAttention.InverseAttentionVisualizer)
    (patchIndices : list nat) (aggregation : string) : Prop :=
  aggregation = "max"%string /\ limit < length patchIndices
  /\ InverseAttention.gridSize this <> 0.

(** A tensor read made for query [q] and key [kIdx] under [options] gives NaN
    as a Number: the element is NaN, or the index is outside the array. *)
Definition reads_NaN (this : InverseAttention.InverseAttentionVisualizer)
    (options : QueryOptions) (q kIdx : nat) : Prop :=
  exists h,
    Js.toNumber (InverseAttention._getAttnFlat this 0 h q kIdx) = Js.NaN
    /\ if default true (opt_meanHeads options) then h < InverseAttention.nHeads this
       else opt_headIdx options = Some h.

(** [x <= y] on Numbers (false when a NaN is involved). *)
Definition num_le (x y : Js.number) : Prop :=
  Js.compare x y = Some Lt \/ Js.compare x y = Some Eq.

(** The attention of query [q] to key [k] that the forward methods read under
    [options]: the mean over the heads, or the element of the selected head
    as a Number. *)
Definition forward_value (this : ForwardAttention.ForwardAttentionVisualizer)
    (options : QueryOptions) (q k : nat) : Js.number :=
  if default true (opt_meanHeads options) then
    head_mean (ForwardAttention.attnWeightsFlat this) (ForwardAttention.attnWeightsShape this)
      (ForwardAttention.nHeads this) q k
  else
    match opt_headIdx options with
    | Some h => Js.toNumber (ForwardAttention._getAttnFlat this 0 h q k)
    | None => Js.NaN
    end.

(** The names of [list] whose index is not marked in [used], from index [i]
    on, in their order. *)
Fixpoint unused_from (i : nat) (list : Datatypes.list string) (used : Datatypes.list bool)
  : Datatypes.list string :=
  match list with
  | [] => []
  | name :: rest =>
      if negb (default false (used !! i)) then name :: unused_from (S i) rest used
      else unused_from (S i) rest used
  end.

(** A visualizer built by the constructor for one 28 x 42 image: a 2 x 3
    patch grid behind one CLS token. *)
Definition demo_wide : InverseAttention.InverseAttentionVisualizer :=
  match InverseAttention.constructor caselessCompare (replicate 7 Js.zero)
          [mkImage 28 42 28 42] ["cam"%string]
          (mkVisualizerOptions (Some 1) None None None (Some (mkShape 1 1 1 7))) with
  | Ok this => this
  | Err _ => demo_inverse
  end.

(** A visualizer built by the constructor for two 28 x 28 cameras, each with
    four patches behind a CLS token; every tensor element is 1. *)
Definition demo_pair : InverseAttention.InverseAttentionVisualizer :=
  match InverseAttention.constructor caselessCompare (replicate 10 (Js.of_Z 1))
          [mkImage 28 28 28 28; mkImage 28 28 28 28] ["left"; "front"]%string
          (mkVisualizerOptions (Some 1) None None None (Some (mkShape 1 1 1 10))) with
  | Ok this => this
  | Err _ => demo_inverse
  end.

(** No character of [s] is a separator of camera names or has a lower-case
    form other than itself. *)
Fixpoint canonical (s : string) : bool :=
  match s with
  | EmptyString => true
  | String c rest =>
      negb (CameraOrder.is_separator c) && Ascii.eqb (JsString.lower_char c) c
      && canonical rest
  end.

End Spec.

(** * Properties *)

Import JsObject AttentionDecode Spec.

(** ** Loops *)

Lemma for_loop_S {A} (n : nat) (body : nat -> A -> A) (init : A) :
  for_loop (S n) body init = body n (for_loop n body init).
Proof.
  unfold for_loop. rewrite seq_S, fold_left_app. reflexivity.
Qed.

Lemma for_loop_ind {A} (P : nat -> A -> Prop) (n : nat) (body : nat -> A -> A) (init : A) :
  P 0 init ->
  (forall i acc, i < n -> P i acc -> P (S i) (body i acc)) ->
  P n (for_loop n body init).
Proof.
  intros H0 Hstep.
  assert (Hall : forall m, m <= n -> P m (for_loop m body init)).
  { induction m as [|m IH]; intros Hm.
    - exact H0.
    - rewrite for_loop_S. apply Hstep; [lia | apply IH; lia]. }
  apply Hall. lia.
Qed.

Lemma for_loopM_S {A} (n : nat) (body : nat -> A -> result A) (init : A) :
  for_loopM (S n) body init = (a ← for_loopM n body init; body n a).
Proof.
  unfold for_loopM. rewrite seq_S, fold_left_app. reflexivity.
Qed.

Lemma for_loopM_ok {A} (n : nat) (body : nat -> A -> A)
    (bodyM : nat -> A -> result A) (init : A) :
  (forall i acc, bodyM i acc = Ok (body i acc)) ->
  for_loopM n bodyM init = Ok (for_loop n body init).
Proof.
  intros Hb. induction n as [|n IH].
  - reflexivity.
  - rewrite for_loopM_S, for_loop_S, IH. simpl. apply Hb.
Qed.

Lemma mapM_ok {A B} (f : A -> result B) (g : A -> B) (xs : list A) :
  Forall (fun x => f x = Ok (g x)) xs -> mapM f xs = Ok (map g xs).
Proof.
  induction 1 as [|x xs Hx _ IH]; [reflexivity|].
  cbn [mapM map]. rewrite Hx. cbn [mbind result_bind]. rewrite IH. reflexivity.
Qed.

Lemma mapM_err {A B} (f : A -> result B) (e : JsError) (x : A) (xs : list A) :
  f x = Err e -> mapM f (x :: xs) = Err e.
Proof. intros H. cbn [mapM]. rewrite H. reflexivity. Qed.

(** A spread call within the limit of the host is the call. *)
Lemma spread_within {A B} limit (f : list A -> B) args :
  length args <= limit -> Js.spread limit f args = Ok (f args).
Proof.
  intros H. unfold Js.spread. destruct (Nat.ltb_spec limit (length args)); [lia | reflexivity].
Qed.

Lemma spread_beyond {A B} limit (f : list A -> B) args :
  limit < length args -> Js.spread limit f args = Err HostRangeError.
Proof.
  intros H. unfold Js.spread. destruct (Nat.ltb_spec limit (length args)); [reflexivity | lia].
Qed.

(** A spread call that returns is the call. *)
Lemma mapM_spread_ok {A B} limit (f : list A -> B) (rows : list (list A)) ys :
  mapM (Js.spread limit f) rows = Ok ys -> ys = map f rows.
Proof.
  revert ys. induction rows as [|qAttn rows IH]; intros ys H.
  - inversion H. reflexivity.
  - cbn [mapM] in H.
    destruct (Js.spread limit f qAttn) as [y|e] eqn:Ey; [|discriminate H].
    unfold Js.spread in Ey. destruct (limit <? length qAttn); [discriminate Ey|].
    inversion Ey; subst y. cbn [mbind result_bind] in H.
    destruct (mapM (Js.spread limit f) rows) as [zs|e]; [|discriminate H].
    inversion H. cbn [map]. rewrite (IH zs eq_refl). reflexivity.
Qed.

(** ** Stores into a Float32Array *)

Lemma store32_length out i v : length (Js.store32 out i v) = length out.
Proof. unfold Js.store32. apply length_insert. Qed.

Lemma filled_store N G m out v :
  m < N -> Js.fround v = G m -> Spec.filled N G m out ->
  Spec.filled N G (S m) (Js.store32 out m v).
Proof.
  intros Hm Hv [Hlen Hpre]. split.
  - rewrite store32_length. exact Hlen.
  - intros i Hi. unfold Js.store32.
    destruct (decide (i = m)) as [->|Hne].
    + rewrite list_lookup_insert_eq by lia. congruence.
    + rewrite list_lookup_insert_ne by congruence. apply Hpre. lia.
Qed.

Lemma filled_new N G : Spec.filled N G 0 (Js.Float32Array_new N).
Proof.
  split.
  - unfold Js.Float32Array_new. apply length_replicate.
  - intros i Hi. lia.
Qed.

(** ** Packed int4 decoding *)

Lemma toInt32_small z : (- 2 ^ 31 <= z < 2 ^ 31)%Z -> Js.toInt32 z = z.
Proof.
  intros Hz. unfold Js.toInt32.
  rewrite Z.mod_small by lia. lia.
Qed.

Lemma nibble_cases v : (0 <= v < 16)%Z ->
  v = 0%Z \/ v = 1%Z \/ v = 2%Z \/ v = 3%Z \/ v = 4%Z \/ v = 5%Z \/ v = 6%Z \/ v = 7%Z \/
  v = 8%Z \/ v = 9%Z \/ v = 10%Z \/ v = 11%Z \/ v = 12%Z \/ v = 13%Z \/ v = 14%Z \/ v = 15%Z.
Proof. lia. Qed.

Lemma nibbleToSigned_spec v : (0 <= v < 16)%Z ->
  nibbleToSigned v = if (8 <=? v)%Z then (v - 16)%Z else v.
Proof.
  intros Hv. destruct (nibble_cases v Hv) as
    [->|[->|[->|[->|[->|[->|[->|[->|[->|[->|[->|[->|[->|[->|[->| ->]]]]]]]]]]]]]]];
    reflexivity.
Qed.

Lemma land_15_range b : (0 <= Z.land b 15 < 16)%Z.
Proof.
  change 15%Z with (Z.ones 4). rewrite Z.land_ones by lia.
  apply Z.mod_pos_bound. lia.
Qed.

Lemma band_byte_15 b : (0 <= b < 256)%Z -> Js.band b 15 = Z.land b 15.
Proof.
  intros Hb. unfold Js.band. rewrite !toInt32_small by lia. reflexivity.
Qed.

Lemma sar_byte_4 b : (0 <= b < 256)%Z -> Js.sar b 4 = Z.shiftr b 4 /\ (0 <= Z.shiftr b 4 < 16)%Z.
Proof.
  intros Hb. unfold Js.sar. rewrite toInt32_small by lia. split; [reflexivity|].
  rewrite Z.shiftr_div_pow2 by lia. change (2 ^ 4)%Z with 16%Z.
  split; [apply Z.div_pos; lia | apply Z.div_lt_upper_bound; lia].
Qed.

Lemma even_of_nat i : Z.even (Z.of_nat i) = Nat.even i.
Proof.
  induction i as [|i IH]; [reflexivity|].
  rewrite Nat2Z.inj_succ, Z.even_succ, Nat.even_succ.
  rewrite <- Z.negb_even, <- Nat.negb_even, IH. reflexivity.
Qed.

Lemma int4At_spec packed i :
  Forall (fun b => 0 <= b < 256)%Z packed ->
  (Z.of_nat i < 2 ^ 31)%Z ->
  int4At packed (Z.of_nat i) = Spec.signed_nibble packed i.
Proof.
  intros Hpacked Hi. unfold int4At, Spec.signed_nibble.
  assert (Hsar : Js.sar (Z.of_nat i) 1 = Z.of_nat (i / 2)).
  { unfold Js.sar. rewrite toInt32_small by lia.
    rewrite Z.shiftr_div_pow2 by lia. change (2 ^ 1)%Z with 2%Z.
    rewrite Nat2Z.inj_div. reflexivity. }
  rewrite Hsar. unfold Js.index.
  destruct (Z.ltb_spec (Z.of_nat (i / 2)) 0) as [Hneg|_]; [lia|].
  rewrite Nat2Z.id.
  set (byte := default 0%Z (packed !! (i / 2))).
  assert (Hbyte : (0 <= byte < 256)%Z).
  { subst byte. destruct (packed !! (i / 2)) as [b|] eqn:Hl; simpl; [|lia].
    eapply Forall_lookup_1 in Hl; [|exact Hpacked]. exact Hl. }
  assert (Hpar : (Js.band (Z.of_nat i) 1 =? 0)%Z = Nat.even i).
  { unfold Js.band. rewrite !toInt32_small by lia.
    change 1%Z with (Z.ones 1). rewrite Z.land_ones by lia. change (2 ^ 1)%Z with 2%Z.
    rewrite Zmod_even, even_of_nat.
    destruct (Nat.even i); reflexivity. }
  rewrite Hpar. destruct (Nat.even i).
  - rewrite band_byte_15 by exact Hbyte.
    apply nibbleToSigned_spec, land_15_range.
  - destruct (sar_byte_4 byte Hbyte) as [-> Hr].
    rewrite band_byte_15 by lia.
    apply nibbleToSigned_spec, land_15_range.
Qed.

Lemma byte_val_range b : (0 <= Js.byte_val b < 256)%Z.
Proof. destruct b; vm_compute; split; congruence. Qed.

Lemma Uint8Array_range buffer : Forall (fun b => 0 <= b < 256)%Z (Js.Uint8Array buffer).
Proof.
  unfold Js.Uint8Array. apply Forall_map, Forall_forall.
  intros b _. apply byte_val_range.
Qed.

Lemma row_of_index qDim kDim i :
  0 < qDim -> 0 < kDim ->
  i / kDim = Spec.head_of qDim kDim i * qDim + Spec.query_of qDim kDim i.
Proof.
  intros Hq Hk. unfold Spec.head_of, Spec.query_of.
  rewrite (Nat.mul_comm qDim kDim), <- Nat.Div0.div_div.
  pose proof (Nat.div_mod_eq (i / kDim) qDim). lia.
Qed.

Section Int4Loop.
Variables (packed : list Z) (scales : list Js.number) (h qDim kDim : nat).

Let N := h * qDim * kDim.
Let G (i : nat) : Js.number :=
  Js.fround (Js.mul (Js.of_Z (int4At packed (Z.of_nat i)))
                    (Js.toNumber (scales !! (i / kDim)))).

Lemma int4_row_filled (r : nat) (out : list Js.number) :
  r < h * qDim ->
  Spec.filled N G (r * kDim) out ->
  Spec.filled N G (S r * kDim)
    (for_loop kDim (fun k out =>
       let idx := r * kDim + k in
       Js.store32 out idx
         (Js.mul (Js.of_Z (int4At packed (Z.of_nat idx))) (Js.toNumber (scales !! r))))
       out).
Proof.
  intros Hr Hout.
  replace (S r * kDim) with (r * kDim + kDim) by lia.
  apply (for_loop_ind (fun k out' => Spec.filled N G (r * kDim + k) out')).
  - rewrite Nat.add_0_r. exact Hout.
  - intros k acc Hk Hacc. cbv zeta.
    replace (r * kDim + S k) with (S (r * kDim + k)) by lia.
    apply filled_store; [subst N; nia | | exact Hacc].
    subst G. cbv beta.
    rewrite Nat.div_add_l by lia. rewrite Nat.div_small by lia.
    rewrite Nat.add_0_r. reflexivity.
Qed.

Lemma int4_loops_filled :
  Spec.filled N G N
    (for_loop h (fun head out =>
       for_loop qDim (fun q out =>
         let scale := Js.toNumber (scales !! (head * qDim + q)) in
         let base := (head * qDim + q) * kDim in
         for_loop kDim (fun k out =>
           let idx := base + k in
           Js.store32 out idx (Js.mul (Js.of_Z (int4At packed (Z.of_nat idx))) scale))
           out)
         out)
       (Js.Float32Array_new N)).
Proof.
  replace N with (h * qDim * kDim) at 2 by reflexivity.
  apply (for_loop_ind (fun head out' => Spec.filled N G (head * qDim * kDim) out')).
  - apply filled_new.
  - intros head acc Hhead Hacc.
    replace (S head * qDim * kDim) with ((head * qDim + qDim) * kDim) by lia.
    apply (for_loop_ind (fun q out' => Spec.filled N G ((head * qDim + q) * kDim) out')).
    + rewrite Nat.add_0_r. exact Hacc.
    + intros q acc' Hq Hacc'. cbv zeta.
      replace (head * qDim + S q) with (S (head * qDim + q)) by lia.
      apply int4_row_filled; [nia | exact Hacc'].
Qed.
End Int4Loop.

Ltac case_if :=
  match goal with
  | H : context [if ?c then _ else _] |- _ => destruct c eqn:?
  end.

Lemma fetchBoth_ok fetch race f sf qBuffer sBuffer :
  fetchBoth fetch race f sf = Ok (qBuffer, sBuffer) ->
  fetch (default EmptyString f) = Ok qBuffer /\ fetch (default EmptyString sf) = Ok sBuffer.
Proof.
  unfold fetchBoth. cbv zeta. intros H.
  destruct (fetch (default EmptyString f)) as [qb|];
    destruct (fetch (default EmptyString sf)) as [sb|]; try discriminate.
  inversion H; subst. split; reflexivity.
Qed.

Lemma bind_ok {A B} (r : result A) (f : A -> result B) (b : B) :
  (r ≫= f) = Ok b -> exists a, r = Ok a /\ f a = Ok b.
Proof.
  destruct r as [a|e]; [|discriminate]. intros H. exists a. split; [reflexivity | exact H].
Qed.

Lemma loadInt4Packed_ok fetch race variant shape out :
  loadInt4Packed fetch race variant shape = Ok out ->
  exists qBuffer sBuffer scales,
    fetch (default EmptyString (file variant)) = Ok qBuffer
    /\ fetch (default EmptyString (scale_file variant)) = Ok sBuffer
    /\ Js.Float32Array sBuffer = Ok scales
    /\ batch shape = 1
    /\ length qBuffer = (heads shape * queries shape * keys shape + 1) / 2
    /\ length scales = heads shape * queries shape
    /\ out = for_loop (heads shape) (fun head out =>
               for_loop (queries shape) (fun q out =>
                 let scale := Js.toNumber (scales !! (head * queries shape + q)) in
                 let base := (head * queries shape + q) * keys shape in
                 for_loop (keys shape) (fun k out =>
                   let idx := base + k in
                   Js.store32 out idx
                     (Js.mul (Js.of_Z (int4At (Js.Uint8Array qBuffer) (Z.of_nat idx))) scale))
                   out)
                 out)
               (Js.Float32Array_new (heads shape * queries shape * keys shape)).
Proof.
  unfold loadInt4Packed. intros H.
  case_if; [discriminate|].
  apply bind_ok in H as ([qBuffer sBuffer] & Hf & H).
  apply fetchBoth_ok in Hf as [Hq Hs].
  apply bind_ok in H as (scales & Hsc & H).
  cbv beta iota zeta in H.
  destruct (Nat.eqb_spec (batch shape) 1) as [Hb|Hb]; [|discriminate].
  rewrite Hb, !Nat.mul_1_l in H.
  destruct (Nat.eqb_spec (length (Js.Uint8Array qBuffer))
              ((heads shape * queries shape * keys shape + 1) / 2)) as [Hp|Hp]; [|discriminate].
  destruct (Nat.eqb_spec (length scales) (heads shape * queries shape)) as [Hl|Hl];
    [|discriminate].
  cbv [negb] in H. inversion H; subst out.
  exists qBuffer, sBuffer, scales.
  unfold Js.Uint8Array in Hp. rewrite length_map in Hp.
  repeat split; assumption || reflexivity.
Qed.

(** C1. For the int4 variant over a [1, h, qDim, kDim] tensor (of at most
    2^31 elements, the range of the bitwise operators), a successful decode
    gives an output of h*qDim*kDim elements whose element [i] is the
    binary32 value of [signed_nibble(i) * scale[head(i)*qDim + query(i)]],
    the nibble being the low four bits of packed byte [i >> 1] for even [i]
    and the high four bits for odd [i], read in two's complement; every
    nibble of every byte decodes into [-8, 7], and byte 0x1F decodes to
    low = -1, high = 1. *)
Theorem int4_decode_law fetch race variant h qDim kDim out :
  (Z.of_nat (h * qDim * kDim) <= 2 ^ 31)%Z ->
  loadInt4Packed fetch race variant (mkShape 1 h qDim kDim) = Ok out ->
  (exists qBuffer sBuffer scales,
      fetch (default EmptyString (file variant)) = Ok qBuffer
      /\ fetch (default EmptyString (scale_file variant)) = Ok sBuffer
      /\ Js.Float32Array sBuffer = Ok scales
      /\ length out = h * qDim * kDim
      /\ forall i, i < h * qDim * kDim ->
           exists scale,
             scales !! (Spec.head_of qDim kDim i * qDim + Spec.query_of qDim kDim i)
             = Some scale
             /\ out !! i
                = Some (Js.fround
                          (Js.mul (Js.of_Z (Spec.signed_nibble (Js.Uint8Array qBuffer) i))
                                  scale)))
  /\ (forall b : Byte.byte,
        (-8 <= int4At [Js.byte_val b] 0 <= 7)%Z /\ (-8 <= int4At [Js.byte_val b] 1 <= 7)%Z)
  /\ int4At [31%Z] 0 = (-1)%Z /\ int4At [31%Z] 1 = 1%Z.
Proof.
  intros Hsize Hload. split; [|split; [|split; reflexivity]].
  - apply loadInt4Packed_ok in Hload as (qBuffer & sBuffer & scales & Hq & Hs & Hsc & _ & _ & Hl & ->).
    cbn [batch heads queries keys] in *.
    exists qBuffer, sBuffer, scales. split; [exact Hq|]. split; [exact Hs|]. split; [exact Hsc|].
    pose proof (int4_loops_filled (Js.Uint8Array qBuffer) scales h qDim kDim) as [Hlen Hall].
    split; [exact Hlen|].
    intros i Hi.
    assert (Hq0 : 0 < qDim) by (destruct qDim; [lia | lia]).
    assert (Hk0 : 0 < kDim) by (destruct kDim; [lia | lia]).
    pose proof (row_of_index qDim kDim i Hq0 Hk0) as Hrow.
    assert (Hlt : i / kDim < length scales).
    { rewrite Hl. apply Nat.Div0.div_lt_upper_bound. lia. }
    destruct (lookup_lt_is_Some_2 scales (i / kDim) Hlt) as [scale Hscale].
    exists scale. rewrite <- Hrow. split; [exact Hscale|].
    refine (eq_trans (Hall i Hi) _). rewrite Hscale. cbn [Js.toNumber default].
    rewrite int4At_spec; [reflexivity | apply Uint8Array_range | lia].
  - intros b. destruct b; vm_compute; repeat split; congruence.
Qed.

Lemma int4_decode_law_witness :
  (Z.of_nat (1 * 2 * 2) <= 2 ^ 31)%Z
  /\ exists out,
       loadInt4Packed demo_fetch demo_race demo_int4 (mkShape 1 1 2 2) = Ok out
       /\ length out = 1 * 2 * 2
       /\ out = [Js.of_Z (-1); Js.of_Z 1; Js.zero; Js.of_Z (-16)].
Proof.
  assert (Hs : (Z.of_nat (1 * 2 * 2) <= 2 ^ 31)%Z) by (vm_compute; discriminate).
  split; [exact Hs|]. eexists. split; [vm_compute; reflexivity|].
  split; [|vm_compute; reflexivity].
  destruct (int4_decode_law demo_fetch demo_race demo_int4 1 2 2 _ Hs eq_refl)
    as [(qb & sb & sc & _ & _ & _ & Hlen & _) _].
  exact Hlen.
Defined.

Lemma words32_length_le n (buffer : list Byte.byte) :
  length buffer <= n -> length (Js.words32 buffer) = length buffer / 4.
Proof.
  revert buffer. induction n as [|n IH]; intros buffer Hn.
  - destruct buffer; [reflexivity | simpl in Hn; lia].
  - destruct buffer as [|b0 [|b1 [|b2 [|b3 rest]]]]; try reflexivity.
    cbn [Js.words32 length]. rewrite IH by (simpl in Hn; lia).
    change (S (S (S (S (length rest))))) with (4 + length rest).
    replace (4 + length rest) with (1 * 4 + length rest) by lia.
    rewrite Nat.div_add_l by lia. lia.
Qed.

Lemma Float32Array_ok buffer out :
  Js.Float32Array buffer = Ok out -> length buffer = 4 * length out.
Proof.
  unfold Js.Float32Array.
  destruct (Nat.eqb_spec (length buffer mod 4) 0) as [Hm|Hm]; [|discriminate].
  intros H. inversion H; subst out.
  rewrite length_map, (words32_length_le (length buffer)) by lia.
  pose proof (Nat.div_mod_eq (length buffer) 4). lia.
Qed.

Lemma loadRawFp32_ok fetch variant shape out :
  loadRawFp32 fetch variant shape = Ok out ->
  exists buffer,
    fetch (default EmptyString (file variant)) = Ok buffer
    /\ Js.Float32Array buffer = Ok out
    /\ length out = batch shape * heads shape * queries shape * keys shape.
Proof.
  unfold loadRawFp32. intros H.
  case_if; [discriminate|].
  apply bind_ok in H as (buffer & Hf & H).
  apply bind_ok in H as (out' & Ho & H).
  cbv beta iota zeta in H.
  destruct (Nat.eqb_spec (length out') (prod (dims shape))) as [Hlen|Hlen]; [|discriminate].
  cbv [negb] in H. inversion H; subst out'.
  exists buffer. split; [exact Hf|]. split; [exact Ho|].
  rewrite Hlen. unfold prod, dims. cbn [fold_left]. lia.
Qed.

Lemma int8_loops_length (q : list Z) (scales : list Js.number) (h headStride N : nat) :
  length
    (for_loop h (fun head out =>
       let scale := Js.toNumber (scales !! head) in
       let base := head * headStride in
       for_loop headStride (fun i out =>
         Js.store32 out (base + i)
           (Js.mul (Js.toNumber (Js.of_Z <$> q !! (base + i))) scale))
         out)
       (Js.Float32Array_new N)) = N.
Proof.
  apply (for_loop_ind (fun _ out => length out = N)).
  - apply length_replicate.
  - intros head acc _ Hacc. cbv zeta.
    apply (for_loop_ind (fun _ out => length out = N)); [exact Hacc|].
    intros i acc' _ Hacc'. rewrite store32_length. exact Hacc'.
Qed.

Lemma loadInt8PerHead_ok fetch race variant shape out :
  loadInt8PerHead fetch race variant shape = Ok out ->
  exists qBuffer sBuffer scales,
    fetch (default EmptyString (file variant)) = Ok qBuffer
    /\ fetch (default EmptyString (scale_file variant)) = Ok sBuffer
    /\ Js.Float32Array sBuffer = Ok scales
    /\ batch shape = 1
    /\ length qBuffer = heads shape * queries shape * keys shape
    /\ length scales = heads shape
    /\ length out = heads shape * queries shape * keys shape.
Proof.
  unfold loadInt8PerHead. intros H.
  case_if; [discriminate|].
  case_if; [discriminate|].
  apply bind_ok in H as ([qBuffer sBuffer] & Hf & H).
  apply fetchBoth_ok in Hf as [Hq Hs].
  apply bind_ok in H as (scales & Hsc & H).
  cbv beta iota zeta in H.
  destruct (Nat.eqb_spec (batch shape) 1) as [Hb|Hb]; [|discriminate].
  rewrite Hb, !Nat.mul_1_l in H.
  destruct (Nat.eqb_spec (length (Js.Int8Array qBuffer))
              (heads shape * queries shape * keys shape)) as [Hp|Hp]; [|discriminate].
  destruct (Nat.eqb_spec (length scales) (heads shape)) as [Hl|Hl]; [|discriminate].
  cbv [negb] in H. inversion H; subst out.
  exists qBuffer, sBuffer, scales.
  unfold Js.Int8Array in Hp. rewrite length_map in Hp.
  repeat split; try assumption.
  apply (int8_loops_length (Js.Int8Array qBuffer) scales).
Qed.

Lemma not_ok_is_err {A} (r : result A) : (forall a, r <> Ok a) -> is_err r.
Proof. destruct r as [a|e]; [intros H; destruct (H a eq_refl) | intros _; exact I]. Qed.



Lemma loader_ok enc fetch race variant shape out :
  loader enc fetch race variant shape = Ok out ->
  (enc = Fp32 \/ batch shape = 1)
  /\ length out = batch shape * heads shape * queries shape * keys shape
  /\ (exists buffer,
        fetch (default EmptyString (file variant)) = Ok buffer
        /\ length buffer
           = payload_bytes enc (batch shape * heads shape) (queries shape) (keys shape))
  /\ (forall n, scale_bytes enc (heads shape) (queries shape) = Some n ->
        exists sBuffer,
          fetch (default EmptyString (scale_file variant)) = Ok sBuffer
          /\ length sBuffer = n).
Proof.
  destruct enc; cbn [loader payload_bytes scale_bytes]; intros H.
  - apply loadRawFp32_ok in H as (buffer & Hf & Ho & Hlen).
    split; [left; reflexivity|]. split; [exact Hlen|]. split; [|discriminate].
    exists buffer. split; [exact Hf|]. apply Float32Array_ok in Ho. lia.
  - apply loadInt8PerHead_ok in H as (qb & sb & sc & Hq & Hs & Hsc & Hb & Hp & Hl & Hlen).
    split; [right; exact Hb|]. rewrite Hb, !Nat.mul_1_l.
    split; [exact Hlen|]. split.
    + exists qb. split; [exact Hq | exact Hp].
    + intros n Hn. inversion Hn; subst n. exists sb. split; [exact Hs|].
      apply Float32Array_ok in Hsc. lia.
  - pose proof H as H'.
    apply loadInt4Packed_ok in H as (qb & sb & sc & Hq & Hs & Hsc & Hb & Hp & Hl & Hout).
    split; [right; exact Hb|]. rewrite Hb, !Nat.mul_1_l.
    split.
    + rewrite Hout.
      apply (int4_loops_filled (Js.Uint8Array qb) sc (heads shape) (queries shape) (keys shape)).
    + split.
      * exists qb. split; [exact Hq | exact Hp].
      * intros n Hn. inversion Hn; subst n. exists sb. split; [exact Hs|].
        apply Float32Array_ok in Hsc. lia.
Qed.

Lemma loadAttentionAsFloat32_ok fetch race sceneJson urlPrecision loaded :
  loadAttentionAsFloat32 fetch race sceneJson urlPrecision = Ok loaded ->
  exists shape resolved enc,
    ensureShape sceneJson = Ok shape
    /\ resolveAttentionVariant sceneJson urlPrecision = Ok resolved
    /\ loader enc fetch race (variant resolved) shape = Ok (Loaded.float32 loaded)
    /\ Loaded.shape loaded = shape
    /\ Loaded.selectedPrecision loaded = key resolved.
Proof.
  unfold loadAttentionAsFloat32. intros H.
  apply bind_ok in H as (shape & Hshape & H).
  apply bind_ok in H as (resolved & Hres & H).
  cbv zeta in H.
  apply bind_ok in H as (out & Hload & H).
  inversion H; subst loaded. cbn [Loaded.float32 Loaded.shape Loaded.selectedPrecision].
  exists shape, resolved.
  destruct (_ || _) in Hload; [exists Int4|].
  - repeat split; assumption.
  - destruct (_ || _) in Hload; [exists Int8 | exists Fp32]; repeat split; assumption.
Qed.

(** C2. For each encoding and expected shape [1, H, Q, K]: a successful
    decode has exactly H*Q*K elements; a fetched payload whose byte length is
    not the exact one of the encoding makes the loader raise, and so does a
    scale file of the wrong length (H values for int8, H*Q for int4); the
    same holds through [loadAttentionAsFloat32]. *)
Theorem decode_shape_invariant enc fetch race variant H Q K :
  (forall out,
      loader enc fetch race variant (mkShape 1 H Q K) = Ok out -> length out = H * Q * K)
  /\ (forall buffer,
        fetch (default EmptyString (file variant)) = Ok buffer ->
        length buffer <> payload_bytes enc H Q K ->
        is_err (loader enc fetch race variant (mkShape 1 H Q K)))
  /\ (forall sBuffer n,
        scale_bytes enc H Q = Some n ->
        fetch (default EmptyString (scale_file variant)) = Ok sBuffer ->
        length sBuffer <> n ->
        is_err (loader enc fetch race variant (mkShape 1 H Q K)))
  /\ (forall sceneJson urlPrecision loaded,
        attn_weights_shape sceneJson = Some [1; H; Q; K] ->
        loadAttentionAsFloat32 fetch race sceneJson urlPrecision = Ok loaded ->
        length (Loaded.float32 loaded) = H * Q * K).
Proof.
  split; [|split; [|split]].
  - intros out Hok. apply loader_ok in Hok as (_ & Hlen & _).
    cbn [batch heads queries keys] in Hlen. lia.
  - intros buffer Hf Hne. apply not_ok_is_err. intros out Hok.
    apply loader_ok in Hok as (_ & _ & (buffer' & Hf' & Hlen) & _).
    cbn [batch heads queries keys] in Hlen. rewrite Nat.mul_1_l in Hlen.
    congruence.
  - intros sBuffer n Hn Hf Hne. apply not_ok_is_err. intros out Hok.
    apply loader_ok in Hok as (_ & _ & _ & Hsc).
    cbn [batch heads queries keys] in Hsc.
    destruct (Hsc n Hn) as (sb & Hf' & Hlen). congruence.
  - intros sceneJson urlPrecision loaded Hshape Hok.
    apply loadAttentionAsFloat32_ok in Hok as (shape & resolved & enc' & Hes & _ & Hl & _).
    unfold ensureShape in Hes. rewrite Hshape in Hes. inversion Hes; subst shape.
    apply loader_ok in Hl as (_ & Hlen & _).
    cbn [batch heads queries keys] in Hlen. lia.
Qed.

Lemma decode_shape_invariant_witness :
  (exists out,
      loader Int4 demo_fetch demo_race demo_int4 (mkShape 1 1 2 2) = Ok out /\ length out = 1 * 2 * 2)
  /\ (exists out,
        loader Fp32 demo_fetch demo_race demo_fp32 (mkShape 1 1 1 2) = Ok out /\ length out = 1 * 1 * 2)
  /\ is_err (loader Int4 demo_fetch demo_race demo_int4 (mkShape 1 2 1 1))
  /\ is_err (loader Fp32 demo_fetch demo_race demo_fp32 (mkShape 1 1 1 3)).
Proof.
  split; [|split; [|split]].
  - eexists. split; [vm_compute; reflexivity|].
    exact (proj1 (decode_shape_invariant Int4 demo_fetch demo_race demo_int4 1 2 2) _ eq_refl).
  - eexists. split; [vm_compute; reflexivity|].
    exact (proj1 (decode_shape_invariant Fp32 demo_fetch demo_race demo_fp32 1 1 2) _ eq_refl).
  - refine (proj1 (proj2 (decode_shape_invariant Int4 demo_fetch demo_race demo_int4 2 1 1))
              [Byte.x1f; Byte.x80] eq_refl _).
    vm_compute. discriminate.
  - refine (proj1 (proj2 (decode_shape_invariant Fp32 demo_fetch demo_race demo_fp32 1 1 3)) _ eq_refl _).
    vm_compute. discriminate.
Defined.

(** The int8 and int4 loaders reject a batch dimension other than 1. *)
Lemma quantized_loaders_reject_batch enc fetch race variant shape :
  enc <> Fp32 -> batch shape <> 1 -> is_err (loader enc fetch race variant shape).
Proof.
  intros Henc Hb. apply not_ok_is_err. intros out Hok.
  apply loader_ok in Hok as ([He|Hb'] & _); congruence.
Qed.

(** C9, evaluated at a batch of two. The int8 and int4 loaders check the
    batch dimension; the fp32 loader only compares the payload with the
    product of the four dimensions, so a two-batch fp32 tensor is decoded. *)
Theorem fp32_accepts_batch_two :
  loadAttentionAsFloat32 demo_fetch demo_race demo_scene_batch2 (Str "fp32")
  = Ok {| Loaded.float32 := [Js.of_Z 1; Js.of_Z 2];
          Loaded.shape := mkShape 2 1 1 1;
          Loaded.selectedPrecision := "fp32";
          Loaded.fallbackUsed := false;
          Loaded.requestedPrecision := "fp32" |}
  /\ batch (mkShape 2 1 1 1) <> 1
  /\ is_err (loader Int4 demo_fetch demo_race demo_int4 (mkShape 2 1 2 2)).
Proof.
  split; [vm_compute; reflexivity|]. split; [discriminate|].
  apply quantized_loaders_reject_batch; discriminate.
Qed.


(** ** Precision normalisation and variant resolution *)

Lemma normalizePrecision_cases value :
  normalizePrecision value = "auto" \/ normalizePrecision value = "fp32"
  \/ normalizePrecision value = "int8" \/ normalizePrecision value = "int4".
Proof.
  unfold normalizePrecision.
  repeat match goal with
         | |- context [if ?c then _ else _] => destruct c
         end; auto.
Qed.

Lemma normalizePrecision_raw value :
  normalizePrecision value
  = let raw := Spec.raw_precision value in
    if String.eqb raw "auto" then "auto"
    else if String.eqb raw "fp32" || String.eqb raw "float32" then "fp32"
    else if String.eqb raw "int8" || String.eqb raw "int8_phs_v1" then "int8"
    else if String.eqb raw "int4" || String.eqb raw "int4_phq_v1" then "int4"
    else "auto".
Proof. reflexivity. Qed.

Lemma normalizePrecision_auto_of_raw value :
  Spec.raw_precision value ∉ Spec.recognized -> normalizePrecision value = "auto".
Proof.
  intros Hraw. rewrite normalizePrecision_raw. cbv zeta.
  assert (Hne : forall s, s ∈ Spec.recognized -> String.eqb (Spec.raw_precision value) s = false).
  { intros s Hs. apply String.eqb_neq. intros Heq. apply Hraw. rewrite Heq. exact Hs. }
  rewrite !Hne by (unfold Spec.recognized; set_solver).
  reflexivity.
Qed.

Lemma resolve_depends_on_normalized sceneJson v1 v2 :
  v1 <> Undefined -> v2 <> Undefined ->
  normalizePrecision v1 = normalizePrecision v2 ->
  resolveAttentionVariant sceneJson v1 = resolveAttentionVariant sceneJson v2.
Proof.
  intros H1 H2 Hn. unfold resolveAttentionVariant.
  destruct v1 as [| |s1]; [congruence| |]; destruct v2 as [| |s2]; try congruence;
    rewrite Hn; reflexivity.
Qed.

Lemma resolve_undefined sceneJson :
  resolveAttentionVariant sceneJson Undefined = resolveAttentionVariant sceneJson (Str "auto").
Proof. reflexivity. Qed.

(** C10. A requested precision that is missing, null, or a string other
    than the seven recognized ones after trimming and lower-casing is
    normalized to "auto" (no error is possible), and the variant resolver
    treats it exactly as an "auto" request. *)
Theorem unrecognized_precision_is_auto value :
  value = Undefined \/ value = Null \/ Spec.raw_precision value ∉ Spec.recognized ->
  normalizePrecision value = "auto"
  /\ forall sceneJson,
       resolveAttentionVariant sceneJson value
       = resolveAttentionVariant sceneJson (Str "auto").
Proof.
  intros Hv.
  assert (Hn : normalizePrecision value = "auto").
  { destruct Hv as [->|[->|Hraw]]; [reflexivity | reflexivity |].
    apply normalizePrecision_auto_of_raw, Hraw. }
  split; [exact Hn|]. intros sceneJson.
  destruct value as [| |s]; [apply resolve_undefined| |];
    (apply resolve_depends_on_normalized; [discriminate | discriminate | rewrite Hn; reflexivity]).
Qed.

Lemma unrecognized_precision_is_auto_witness :
  (Spec.raw_precision (Str " INT16 ") ∉ Spec.recognized)
  /\ normalizePrecision (Str " INT16 ") = "auto".
Proof.
  assert (H : Spec.raw_precision (Str " INT16 ") ∉ Spec.recognized).
  { unfold Spec.recognized. vm_compute. intros H.
    repeat (apply elem_of_cons in H as [H|H]; [discriminate|]).
    apply elem_of_nil in H. exact H. }
  split; [exact H|].
  exact (proj1 (unrecognized_precision_is_auto (Str " INT16 ") (or_intror (or_intror H)))).
Defined.

Lemma normalizePrecision_default value :
  normalizePrecision match value with
                     | Undefined => Str "auto"
                     | v => v
                     end = normalizePrecision value.
Proof. destruct value; reflexivity. Qed.

Lemma has_variant_object sceneJson m k :
  attn_variants sceneJson = VariantsObject m ->
  has_variant sceneJson k = bool_decide (is_Some (variant_at m k)).
Proof. intros H. unfold has_variant. rewrite H. reflexivity. Qed.

(** A name that no object inherits is read from the own properties. *)
Lemma variant_at_own (m : gmap string Variant) k :
  JsObject.inherited k = false -> variant_at m k = m !! k.
Proof.
  intros H. unfold variant_at, JsObject.read. rewrite H. destruct (m !! k); reflexivity.
Qed.


Lemma has_variant_true_lookup sceneJson m k :
  attn_variants sceneJson = VariantsObject m ->
  has_variant sceneJson k = true -> is_Some (variant_at m k).
Proof.
  intros Hm H. rewrite (has_variant_object _ _ _ Hm) in H.
  apply bool_decide_eq_true_1 in H. exact H.
Qed.

Lemma has_variant_false_lookup sceneJson m k :
  attn_variants sceneJson = VariantsObject m ->
  JsObject.inherited k = false ->
  has_variant sceneJson k = false <-> m !! k = None.
Proof.
  intros Hm Hk. rewrite (has_variant_object _ _ _ Hm), (variant_at_own m k Hk). split.
  - intros H. apply bool_decide_eq_false_1 in H.
    destruct (m !! k) eqn:E; [exfalso; apply H; eauto | reflexivity].
  - intros H. apply bool_decide_eq_false_2. rewrite H. intros [x Hx]. discriminate.
Qed.

(** In automatic mode the chosen key, when there is one, names a property
    of the variants object. *)
Lemma toVariantKey_auto_present sceneJson m :
  attn_variants sceneJson = VariantsObject m ->
  toVariantKey "auto" sceneJson <> EmptyString ->
  is_Some (variant_at m (toVariantKey "auto" sceneJson)).
Proof.
  intros Hm. unfold toVariantKey. cbn [String.eqb Ascii.eqb Bool.eqb].
  destruct (negb _ && has_variant sceneJson _) eqn:Hp.
  { intros _. apply andb_true_iff in Hp as [_ Hp].
    eapply has_variant_true_lookup; eauto. }
  destruct (has_variant sceneJson "int4_phq_v1") eqn:H4.
  { intros _. eapply has_variant_true_lookup; eauto. }
  destruct (has_variant sceneJson "int8_phs_v1") eqn:H8.
  { intros _. eapply has_variant_true_lookup; eauto. }
  destruct (has_variant sceneJson "fp32") eqn:H32.
  { intros _. eapply has_variant_true_lookup; eauto. }
  congruence.
Qed.

Lemma resolve_fp32 sceneJson value :
  normalizePrecision value = "fp32" ->
  resolveAttentionVariant sceneJson value
  = let legacy (e : JsError) :=
      match buildLegacyFp32Variant sceneJson with
      | Some l => Ok {| key := "fp32"; variant := l; fallbackUsed := true;
                        requested := "fp32" |}
      | None => Err e
      end in
    match attn_variants sceneJson with
    | VariantsObject m =>
        match m !! "fp32" with
        | Some v => Ok {| key := "fp32"; variant := v; fallbackUsed := false;
                          requested := "fp32" |}
        | None => legacy (VariantUnavailable "fp32")
        end
    | _ => legacy NoBinaryReference
    end.
Proof.
  intros Hreq. unfold resolveAttentionVariant.
  rewrite normalizePrecision_default, Hreq. cbv zeta.
  destruct (attn_variants sceneJson) as [| |m] eqn:Hm; cbn;
    try (destruct (buildLegacyFp32Variant sceneJson); reflexivity).
  rewrite (variant_at_own m "fp32") by reflexivity.
  destruct (m !! "fp32") as [v|]; [reflexivity|].
  destruct (buildLegacyFp32Variant sceneJson); reflexivity.
Qed.

Lemma resolve_explicit sceneJson value r k :
  (r = "int8" /\ k = "int8_phs_v1") \/ (r = "int4" /\ k = "int4_phq_v1") ->
  normalizePrecision value = r ->
  resolveAttentionVariant sceneJson value
  = match attn_variants sceneJson with
    | VariantsObject m =>
        match m !! k with
        | Some v => Ok {| key := k; variant := v; fallbackUsed := false; requested := r |}
        | None => Err (RequestedVariantMissing r)
        end
    | _ => Err (NoVariantsProvided r)
    end.
Proof.
  intros Hrk Hreq. unfold resolveAttentionVariant.
  rewrite normalizePrecision_default, Hreq.
  destruct Hrk as [[-> ->]|[-> ->]]; cbv zeta;
    (destruct (attn_variants sceneJson) as [| |m] eqn:Hm; cbn; try reflexivity;
     rewrite (variant_at_own m _) by reflexivity;
     destruct (m !! _) as [v|]; reflexivity).
Qed.

Lemma resolve_auto sceneJson value res :
  normalizePrecision value = "auto" ->
  resolveAttentionVariant sceneJson value = Ok res ->
  requested res = "auto" /\ fallbackUsed res = false.
Proof.
  intros Hreq. unfold resolveAttentionVariant.
  rewrite normalizePrecision_default, Hreq. cbv zeta.
  change (String.eqb "auto" "int8" || String.eqb "auto" "int4") with false.
  change (String.eqb "auto" "auto") with true.
  change (String.eqb "auto" "int8") with false.
  change (String.eqb "auto" "int4") with false.
  cbn [negb andb orb].
  destruct (attn_variants sceneJson) as [| |m] eqn:Hm;
    try (destruct (buildLegacyFp32Variant sceneJson); [|discriminate];
         intros H; inversion H; subst res; split; reflexivity).
  destruct (String.eqb_spec (toVariantKey "auto" sceneJson) EmptyString) as [Hk|Hk].
  - destruct (buildLegacyFp32Variant sceneJson); [|discriminate].
    intros H; inversion H; subst res; split; reflexivity.
  - destruct (toVariantKey_auto_present sceneJson m Hm Hk) as [v Hv].
    rewrite Hv. intros H; inversion H; subst res; split; reflexivity.
Qed.

Lemma resolve_explicit_ok sceneJson value r k res :
  (r = "int8" /\ k = "int8_phs_v1") \/ (r = "int4" /\ k = "int4_phq_v1") ->
  normalizePrecision value = r ->
  resolveAttentionVariant sceneJson value = Ok res ->
  key res = k /\ fallbackUsed res = false /\ requested res = r
  /\ exists m, attn_variants sceneJson = VariantsObject m /\ m !! k = Some (variant res).
Proof.
  intros Hrk Hreq. rewrite (resolve_explicit sceneJson value r k Hrk Hreq).
  destruct (attn_variants sceneJson) as [| |m] eqn:Hm; try discriminate.
  destruct (m !! k) as [v|] eqn:Hv; [|discriminate].
  intros H. inversion H; subst res. cbn. repeat split. exists m. split; [reflexivity | exact Hv].
Qed.

(** C4. When the request normalizes to int8 or int4 and that variant is
    absent from the manifest, [resolveAttentionVariant] throws one of the two
    unavailable-precision errors; and whenever such a request resolves, it
    resolves to its own variant, never to another one. *)
Theorem explicit_precision_never_downgraded sceneJson value r k :
  (r = "int8" /\ k = "int8_phs_v1") \/ (r = "int4" /\ k = "int4_phq_v1") ->
  normalizePrecision value = r ->
  (Spec.variant_absent sceneJson k ->
   resolveAttentionVariant sceneJson value = Err (NoVariantsProvided r)
   \/ resolveAttentionVariant sceneJson value = Err (RequestedVariantMissing r))
  /\ (forall res,
        resolveAttentionVariant sceneJson value = Ok res ->
        key res = k /\ fallbackUsed res = false /\ requested res = r
        /\ exists m, attn_variants sceneJson = VariantsObject m
                     /\ m !! k = Some (variant res)).
Proof.
  intros Hrk Hreq. rewrite (resolve_explicit sceneJson value r k Hrk Hreq).
  split.
  - intros Habs. destruct (attn_variants sceneJson) as [| |m] eqn:Hm; auto.
    apply (has_variant_false_lookup sceneJson m k Hm) in Habs;
      [rewrite Habs; auto | destruct Hrk as [[_ ->]|[_ ->]]; reflexivity].
  - intros res Hres. rewrite <- (resolve_explicit sceneJson value r k Hrk Hreq) in Hres.
    exact (resolve_explicit_ok sceneJson value r k res Hrk Hreq Hres).
Qed.

Lemma explicit_precision_never_downgraded_witness :
  let scene := {| attn_weights_shape := Some [1; 1; 1; 1];
                  attn_variants :=
                    VariantsObject {[ "fp32" := mkVariant (Some "attn.bin") None None None ]};
                  attn_weights_file := None;
                  attn_precision_default := None |} in
  normalizePrecision (Str "int8") = "int8"
  /\ Spec.variant_absent scene "int8_phs_v1"
  /\ resolveAttentionVariant scene (Str "int8") = Err (RequestedVariantMissing "int8").
Proof.
  intros scene.
  assert (Hn : normalizePrecision (Str "int8") = "int8") by reflexivity.
  assert (Ha : Spec.variant_absent scene "int8_phs_v1") by (vm_compute; reflexivity).
  split; [exact Hn|]. split; [exact Ha|].
  destruct (proj1 (explicit_precision_never_downgraded scene (Str "int8") "int8" "int8_phs_v1"
                     (or_introl (conj eq_refl eq_refl)) Hn) Ha) as [H|H].
  - vm_compute in H. discriminate H.
  - exact H.
Defined.






(** ** Sorting *)

Lemma sort_insert_perm {A} (cmp : A -> A -> Z) (x : A) (l : list A) :
  sort_insert cmp x l ≡ₚ x :: l.
Proof.
  induction l as [|y l IH]; [reflexivity|].
  cbn [sort_insert]. destruct (cmp x y <=? 0)%Z; [reflexivity|].
  rewrite IH. apply Permutation_swap.
Qed.

Lemma sort_perm {A} (cmp : A -> A -> Z) (l : list A) : sort cmp l ≡ₚ l.
Proof.
  induction l as [|x l IH]; [reflexivity|].
  cbn [sort foldr]. rewrite sort_insert_perm. fold (sort cmp l). rewrite IH. reflexivity.
Qed.

Lemma cameras_of_length names images originals :
  length (cameras_of names images originals) = length names.
Proof. unfold cameras_of. apply length_imap. Qed.

Lemma sorted_cameras_length (cmp : Camera -> Camera -> Z) names images originals :
  length (sort cmp (cameras_of names images originals)) = length names.
Proof. rewrite (Permutation_length (sort_perm cmp _)). apply cameras_of_length. Qed.

(** ** The layout walk *)

Section Walk.
Variable step : list PatchInfo * nat -> Camera -> result (list PatchInfo * nat).
Variable cls : nat.

Hypothesis step_spec : forall infos cur cam st',
  step (infos, cur) cam = Ok st' ->
  exists p, st' = (infos ++ [p], startIdx p + nPatches p)
            /\ startIdx p = cur + cls /\ camName p = name cam.

Let walk (cams : list Camera) (st : result (list PatchInfo * nat)) :=
  fold_left (fun st cam => st ← st; step st cam) cams st.

Lemma walk_err cams e : walk cams (Err e) = Err e.
Proof. induction cams as [|cam cams IH]; [reflexivity | exact IH]. Qed.

Lemma walk_spec cams : forall infos cur infos' cur',
  walk cams (Ok (infos, cur)) = Ok (infos', cur') ->
  exists added,
    infos' = infos ++ added
    /\ Spec.contiguous_from cls cur added
    /\ cur' = cur + Spec.total_patches added + cls * length added
    /\ map camName added = map name cams.
Proof.
  induction cams as [|cam cams IH]; intros infos cur infos' cur' H.
  - inversion H; subst. exists []. rewrite app_nil_r. cbn. repeat split; lia.
  - cbn [walk fold_left] in H. fold (walk cams) in H.
    change (Ok (infos, cur) ≫= (fun st => step st cam)) with (step (infos, cur) cam) in H.
    destruct (step (infos, cur) cam) as [st1|e] eqn:Hstep; [|rewrite walk_err in H; discriminate].
    apply step_spec in Hstep as (p & -> & Hstart & Hname).
    apply IH in H as (added & -> & Hcont & -> & Hnames).
    exists (p :: added). rewrite <- app_assoc.
    split; [reflexivity|]. split; [split; assumption|].
    split; [unfold Spec.total_patches; cbn [foldr length]; lia|].
    cbn [map]. rewrite Hname, Hnames. reflexivity.
Qed.
End Walk.

Lemma contiguous_lower_bound cls l : forall cur j p,
  Spec.contiguous_from cls cur l -> l !! j = Some p -> cur + cls <= startIdx p.
Proof.
  induction l as [|x l IH]; intros cur j p Hc Hj; [discriminate|].
  destruct Hc as [Hx Hrest]. destruct j as [|j].
  - cbn in Hj. inversion Hj; subst x. lia.
  - cbn in Hj. specialize (IH _ _ _ Hrest Hj). lia.
Qed.

Lemma contiguous_disjoint cls l : forall cur i j p p',
  Spec.contiguous_from cls cur l -> i < j ->
  l !! i = Some p -> l !! j = Some p' ->
  startIdx p + nPatches p <= startIdx p'.
Proof.
  induction l as [|x l IH]; intros cur i j p p' Hc Hij Hi Hj; [discriminate|].
  destruct Hc as [Hx Hrest]. destruct j as [|j]; [lia|]. cbn in Hj.
  destruct i as [|i].
  - cbn in Hi. inversion Hi; subst x.
    pose proof (contiguous_lower_bound _ _ _ _ _ Hrest Hj). lia.
  - cbn in Hi. apply (IH _ i j p p' Hrest); [lia | exact Hi | exact Hj].
Qed.

Lemma inverse_step_spec patchSize hasClsTokens infos cur cam st' :
  InverseAttention.layoutStep patchSize hasClsTokens (infos, cur) cam = Ok st' ->
  exists p, st' = (infos ++ [p], startIdx p + nPatches p)
            /\ startIdx p = cur + Spec.cls_slots hasClsTokens /\ camName p = name cam.
Proof.
  unfold InverseAttention.layoutStep.
  destruct (img cam) as [im|]; [|discriminate].
  destruct (origImg cam) as [om|]; [|discriminate].
  intros H. inversion H; subst st'.
  eexists (mkPatchInfo _ _ _ _ _ _ _ _ _ _). split; [reflexivity|].
  cbn. split; [destruct hasClsTokens; cbn; lia | reflexivity].
Qed.

Lemma forward_step_spec patchSize hasClsTokens infos cur cam st' :
  ForwardAttention.layoutStep patchSize hasClsTokens (infos, cur) cam = Ok st' ->
  exists p, st' = (infos ++ [p], startIdx p + nPatches p)
            /\ startIdx p = cur + Spec.cls_slots hasClsTokens /\ camName p = name cam.
Proof.
  unfold ForwardAttention.layoutStep.
  destruct (img cam) as [im|]; [|discriminate].
  destruct (_ || _); [discriminate|].
  destruct (origImg cam) as [om|];
    (intros H; inversion H; subst st';
     eexists (mkPatchInfo _ _ _ _ _ _ _ _ _ _); split; [reflexivity|];
     cbn; split; [destruct hasClsTokens; cbn; lia | reflexivity]).
Qed.

Lemma buildPatchInfo_inverse_walk lc names images originals ps cls infos :
  InverseAttention._buildPatchInfo lc names images originals ps cls = Ok infos ->
  exists cur, InverseAttention.layoutWalk lc names images originals ps cls = Ok (infos, cur).
Proof.
  unfold InverseAttention._buildPatchInfo.
  destruct (InverseAttention.layoutWalk _ _ _ _ _ _) as [[infos' cur]|]; [|discriminate].
  intros H. inversion H; subst. exists cur. reflexivity.
Qed.

Lemma buildPatchInfo_forward_walk lc names images originals ps cls infos :
  ForwardAttention._buildPatchInfo lc names images originals ps cls = Ok infos ->
  exists cur, ForwardAttention.layoutWalk lc names images originals ps cls = Ok (infos, cur).
Proof.
  unfold ForwardAttention._buildPatchInfo.
  destruct (ForwardAttention.layoutWalk _ _ _ _ _ _) as [[infos' cur]|]; [|discriminate].
  intros H. inversion H; subst. exists cur. reflexivity.
Qed.

Lemma layoutWalk_spec lc names images originals ps cls infos cur :
  InverseAttention.layoutWalk lc names images originals ps cls = Ok (infos, cur)
  \/ ForwardAttention.layoutWalk lc names images originals ps cls = Ok (infos, cur) ->
  Spec.contiguous_from (Spec.cls_slots cls) 0 infos
  /\ cur = Spec.total_patches infos + Spec.cls_slots cls * length infos
  /\ map camName infos
     = map name (sort (fun a b => lc (name a) (name b)) (cameras_of names images originals)).
Proof.
  intros [H|H].
  - apply (walk_spec _ (Spec.cls_slots cls) (inverse_step_spec ps cls)) in H
      as (added & -> & Hc & -> & Hn).
    cbn. auto.
  - apply (walk_spec _ (Spec.cls_slots cls) (forward_step_spec ps cls)) in H
      as (added & -> & Hc & -> & Hn).
    cbn. auto.
Qed.

(** C7. Whatever the cameras, the patch size and the CLS flag, the ranges
    [startIdx, startIdx + nPatches) of a built layout follow one another
    with one slot skipped before each when CLS tokens are present, no two of
    them overlap, there is one per camera, and the cursor ends at
    sum(nPatches) + (number of cameras if CLS tokens, else 0). *)
Theorem token_layout_contiguous lc names images originals patchSize hasClsTokens infos :
  InverseAttention._buildPatchInfo lc names images originals patchSize hasClsTokens = Ok infos
  \/ ForwardAttention._buildPatchInfo lc names images originals patchSize hasClsTokens
     = Ok infos ->
  Spec.contiguous_from (Spec.cls_slots hasClsTokens) 0 infos
  /\ (forall i j p p',
        i < j -> infos !! i = Some p -> infos !! j = Some p' ->
        startIdx p + nPatches p <= startIdx p')
  /\ length infos = length names
  /\ exists cur,
       (InverseAttention.layoutWalk lc names images originals patchSize hasClsTokens
        = Ok (infos, cur)
        \/ ForwardAttention.layoutWalk lc names images originals patchSize hasClsTokens
           = Ok (infos, cur))
       /\ cur = Spec.total_patches infos + (if hasClsTokens then length names else 0).
Proof.
  intros H.
  assert (Hw : exists cur,
             InverseAttention.layoutWalk lc names images originals patchSize hasClsTokens
             = Ok (infos, cur)
             \/ ForwardAttention.layoutWalk lc names images originals patchSize hasClsTokens
                = Ok (infos, cur)).
  { destruct H as [H|H].
    - apply buildPatchInfo_inverse_walk in H as [cur H]. eauto.
    - apply buildPatchInfo_forward_walk in H as [cur H]. eauto. }
  destruct Hw as [cur Hw].
  destruct (layoutWalk_spec _ _ _ _ _ _ _ _ Hw) as (Hc & Hcur & Hn).
  assert (Hlen : length infos = length names).
  { rewrite <- (length_map camName infos), Hn, length_map. apply sorted_cameras_length. }
  split; [exact Hc|]. split.
  - intros i j p p'. apply (contiguous_disjoint _ _ _ _ _ _ _ Hc).
  - split; [exact Hlen|]. exists cur. split; [exact Hw|].
    rewrite Hcur, Hlen. destruct hasClsTokens; cbn; lia.
Qed.

Lemma token_layout_contiguous_witness :
  let im := mkImage 28 42 28 42 in
  exists infos,
    InverseAttention._buildPatchInfo Spec.caselessCompare
      ["CAM_FRONT"; "CAM_BACK"]%string [im; im] [im; im] 14 true = Ok infos
    /\ Spec.contiguous_from 1 0 infos
    /\ map startIdx infos = [1; 8] /\ map nPatches infos = [6; 6].
Proof.
  intros im. eexists. split; [vm_compute; reflexivity|].
  split; [|split; reflexivity].
  exact (proj1 (token_layout_contiguous Spec.caselessCompare
                  ["CAM_FRONT"; "CAM_BACK"]%string [im; im] [im; im] 14 true _
                  (or_introl eq_refl))).
Defined.

(** The inverse builder returns a layout whenever every camera has its two
    images. *)
Lemma inverse_layout_total lc names images originals patchSize hasClsTokens :
  length names <= length images -> length names <= length originals ->
  exists infos,
    InverseAttention._buildPatchInfo lc names images originals patchSize hasClsTokens
    = Ok infos.
Proof.
  intros Hi Ho.
  assert (Hall : Forall (fun cam => is_Some (img cam) /\ is_Some (origImg cam))
                   (sort (fun a b => lc (name a) (name b))
                      (cameras_of names images originals))).
  { rewrite (sort_perm _ _). unfold cameras_of. apply Forall_lookup.
    intros i cam Hcam. apply list_lookup_imap_Some in Hcam as (nm & Hnm & ->).
    apply lookup_lt_Some in Hnm. cbn.
    split; apply lookup_lt_is_Some_2; lia. }
  unfold InverseAttention._buildPatchInfo, InverseAttention.layoutWalk.
  generalize (@nil PatchInfo, 0) as st.
  induction Hall as [|cam cams [[im Him] [om Hom]] _ IH]; intros st.
  - exists (fst st). reflexivity.
  - cbn [fold_left]. destruct st as [infos cur].
    change (Ok (infos, cur) ≫= _) with
      (InverseAttention.layoutStep patchSize hasClsTokens (infos, cur) cam).
    unfold InverseAttention.layoutStep. rewrite Him, Hom. apply IH.
Qed.

(** The forward builder returns a layout whenever every camera has an image
    of non-zero size. *)
Lemma forward_layout_total lc names images originals patchSize hasClsTokens :
  length names <= length images ->
  Forall (fun im => or_else (naturalHeight im) (or_else (height im) 0) <> 0
                    /\ or_else (naturalWidth im) (or_else (width im) 0) <> 0) images ->
  exists infos,
    ForwardAttention._buildPatchInfo lc names images originals patchSize hasClsTokens
    = Ok infos.
Proof.
  intros Hi Hsize.
  assert (Hall : Forall (fun cam =>
                     exists im, img cam = Some im
                       /\ or_else (naturalHeight im) (or_else (height im) 0) <> 0
                       /\ or_else (naturalWidth im) (or_else (width im) 0) <> 0)
                   (sort (fun a b => lc (name a) (name b))
                      (cameras_of names images originals))).
  { rewrite (sort_perm _ _). unfold cameras_of. apply Forall_lookup.
    intros i cam Hcam. apply list_lookup_imap_Some in Hcam as (nm & Hnm & ->).
    apply lookup_lt_Some in Hnm. cbn.
    destruct (lookup_lt_is_Some_2 images i) as [im Him]; [lia|].
    exists im. split; [exact Him|].
    exact (Forall_lookup_1 _ _ _ _ Hsize Him). }
  unfold ForwardAttention._buildPatchInfo, ForwardAttention.layoutWalk.
  generalize (@nil PatchInfo, 0) as st.
  induction Hall as [|cam cams (im & Him & HH & HW) _ IH]; intros st.
  - exists (fst st). reflexivity.
  - cbn [fold_left]. destruct st as [infos cur].
    change (Ok (infos, cur) ≫= _) with
      (ForwardAttention.layoutStep patchSize hasClsTokens (infos, cur) cam).
    unfold ForwardAttention.layoutStep. rewrite Him.
    destruct (Nat.eqb_spec (or_else (naturalHeight im) (or_else (height im) 0)) 0) as [?|_];
      [contradiction|].
    destruct (Nat.eqb_spec (or_else (naturalWidth im) (or_else (width im) 0)) 0) as [?|_];
      [contradiction|].
    cbn [orb]. destruct (origImg cam); apply IH.
Qed.

(** ** Camera order *)

(** C6, evaluated at the names "B", "a". The builders order cameras with
    [localeCompare]; on any host whose collation puts "a" before "B" both
    lay out "a" first, although "B" precedes "a" in byte order. *)
Theorem layout_order_is_host_collation lc :
  (lc "B" "a" > 0)%Z ->
  let im := mkImage 28 28 28 28 in
  (exists infos,
      InverseAttention._buildPatchInfo lc ["B"; "a"]%string [im; im] [im; im] 14 true
      = Ok infos
      /\ map camName infos = ["a"; "B"]%string /\ map startIdx infos = [1; 6])
  /\ (exists infos,
        ForwardAttention._buildPatchInfo lc ["B"; "a"]%string [im; im] [im; im] 14 true
        = Ok infos
        /\ map camName infos = ["a"; "B"]%string /\ map startIdx infos = [1; 6])
  /\ Spec.byte_lt "B" "a".
Proof.
  intros Hlc im.
  assert (Hs : forall (c1 c2 : Camera), name c1 = "B"%string -> name c2 = "a"%string ->
             sort (fun a b => lc (name a) (name b)) [c1; c2] = [c2; c1]).
  { intros c1 c2 H1 H2. cbn. rewrite H1, H2.
    destruct (Z.leb_spec (lc "B"%string "a"%string) 0); [lia | reflexivity]. }
  split; [|split; [|reflexivity]].
  - unfold InverseAttention._buildPatchInfo, InverseAttention.layoutWalk.
    cbn [cameras_of imap]. rewrite Hs by reflexivity.
    eexists. split; [vm_compute; reflexivity|]. split; reflexivity.
  - unfold ForwardAttention._buildPatchInfo, ForwardAttention.layoutWalk.
    cbn [cameras_of imap]. rewrite Hs by reflexivity.
    eexists. split; [vm_compute; reflexivity|]. split; reflexivity.
Qed.

Lemma layout_order_is_host_collation_witness :
  (Spec.caselessCompare "B" "a" > 0)%Z
  /\ Spec.byte_lt "B" "a"
  /\ (map camName <$>
      InverseAttention._buildPatchInfo Spec.caselessCompare ["B"; "a"]%string
        [mkImage 28 28 28 28; mkImage 28 28 28 28]
        [mkImage 28 28 28 28; mkImage 28 28 28 28] 14 true)
     = Ok ["a"; "B"]%string.
Proof.
  assert (H : (Spec.caselessCompare "B" "a" > 0)%Z) by (vm_compute; reflexivity).
  split; [exact H|].
  destruct (layout_order_is_host_collation Spec.caselessCompare H)
    as ((infos & Hinv & Hnames & _) & _ & Hlt).
  split; [exact Hlt|].
  rewrite Hinv. cbn. rewrite Hnames. reflexivity.
Defined.

(** ** Attention queries *)



Lemma map_seq_const {A} (f : nat -> A) (c : A) (n : nat) :
  (forall i, i < n -> f i = c) -> map f (seq 0 n) = replicate n c.
Proof.
  intros H. apply list_eq. intros i.
  rewrite list_lookup_fmap.
  destruct (decide (i < n)) as [Hi|Hi].
  - rewrite lookup_seq_lt by lia. rewrite lookup_replicate_2 by lia. cbn. f_equal. apply H. lia.
  - rewrite lookup_seq_ge by lia. cbn. symmetry. apply lookup_replicate_None. lia.
Qed.

(** ** Inverse query on an empty selection *)

Lemma patchAttn_empty this options :
  InverseAttention.patchAttn this [] options
  = if negb (default true (opt_meanHeads options)) && bool_decide (opt_headIdx options = None)
    then Err HeadNotSpecified
    else Ok (replicate (InverseAttention.nQueries this) []).
Proof.
  unfold InverseAttention.patchAttn. cbv zeta.
  destruct (default true (opt_meanHeads options)); cbn [negb andb map].
  - f_equal. apply map_seq_const. reflexivity.
  - destruct (opt_headIdx options) as [hi|]; cbn.
    + f_equal. apply map_seq_const. reflexivity.
    + reflexivity.
Qed.

Lemma bevMap_constant (gs : nat) (v : Js.number) :
  map (fun y => map (fun x => replicate (gs * gs) v !! (y * gs + x)) (seq 0 gs)) (seq 0 gs)
  = constant_map gs v.
Proof.
  unfold constant_map. apply map_seq_const. intros y Hy.
  apply map_seq_const. intros x Hx.
  apply lookup_replicate_2. nia.
Qed.

(** The concrete visualizers are what the constructors build. *)
Lemma demo_visualizers_constructed :
  ForwardAttention.constructor Spec.caselessCompare demo_flat [demo_image] ["cam"%string]
    demo_options = Ok demo_forward
  /\ InverseAttention.constructor Spec.caselessCompare demo_flat [demo_image] ["cam"%string]
       demo_options = Ok demo_inverse
  /\ InverseAttention.constructor Spec.caselessCompare (replicate 4 (Js.of_Z 1)) [] []
       {| opt_gridSize := Some 2; opt_patchSize := None; opt_hasClsTokens := Some false;
          opt_originalImages := None; opt_attnWeightsShape := Some (mkShape 1 1 4 1) |}
     = Ok demo_grid.
Proof. repeat split; vm_compute; reflexivity. Qed.

Lemma inverse_constructor_wf lc attnWeights cameraImages cameraNames options this :
  InverseAttention.constructor lc attnWeights cameraImages cameraNames options = Ok this ->
  Spec.inverse_wf this.
Proof.
  unfold InverseAttention.constructor. intros H.
  apply bind_ok in H as (infos & _ & H). inversion H; subst this. reflexivity.
Qed.

(** C3, as the code has it. With an empty [patchIndices] the inverse query
    raises only for a missing head selection or an unknown aggregation;
    otherwise it returns a gridSize x gridSize map filled with 0 for 'sum',
    with -Infinity for 'max' and with NaN for 'mean'. *)
Theorem inverse_attention_empty_selection limit this options :
  Spec.inverse_wf this ->
  let aggregation := default "sum"%string (opt_aggregation options) in
  let gs := InverseAttention.gridSize this in
  InverseAttention.getInverseAttention limit this [] options
  = if negb (default true (opt_meanHeads options)) && bool_decide (opt_headIdx options = None)
    then Err HeadNotSpecified
    else if String.eqb aggregation "sum" then Ok (constant_map gs Js.zero)
    else if String.eqb aggregation "max" then Ok (constant_map gs Js.neg_infinity)
    else if String.eqb aggregation "mean" then Ok (constant_map gs Js.NaN)
    else Err (UnknownAggregation aggregation).
Proof.
  intros Hwf aggregation gs. unfold InverseAttention.getInverseAttention.
  rewrite patchAttn_empty. fold aggregation. fold gs.
  destruct (negb _ && _); [reflexivity|].
  rewrite Hwf. fold gs. cbn [mbind result_bind].
  destruct (String.eqb aggregation "sum");
    [|destruct (String.eqb aggregation "max");
      [rewrite (mapM_ok _ Js.Math_max)
         by (apply Forall_replicate, spread_within; cbn [length]; lia)
      |destruct (String.eqb aggregation "mean"); [|reflexivity]]];
    cbn [mbind result_bind]; rewrite fmap_replicate || rewrite map_replicate;
    f_equal; apply bevMap_constant.
Qed.

Lemma inverse_attention_empty_selection_witness :
  Spec.inverse_wf demo_grid
  /\ InverseAttention.getInverseAttention demo_limit demo_grid []
       (mkQueryOptions None None None)
     = Ok (constant_map 2 Js.zero).
Proof.
  assert (H : Spec.inverse_wf demo_grid) by reflexivity.
  split; [exact H|].
  exact (inverse_attention_empty_selection demo_limit demo_grid
           (mkQueryOptions None None None) H).
Defined.

(** An empty selection is answered with a map, a zero-filled one for
    ['sum'], not with an error. *)
Lemma empty_selection_raises_counterexample :
  InverseAttention.getInverseAttention demo_limit demo_grid []
    (mkQueryOptions (Some true) None (Some "sum"%string))
  = Ok [[Some Js.zero; Some Js.zero]; [Some Js.zero; Some Js.zero]]
  /\ ~ (forall limit this options,
          Spec.inverse_wf this ->
          is_err (InverseAttention.getInverseAttention limit this [] options)).
Proof.
  split; [vm_compute; reflexivity|]. intros H.
  specialize (H demo_limit demo_grid (mkQueryOptions (Some true) None (Some "sum"%string))
                eq_refl).
  vm_compute in H. exact H.
Qed.

(** ** Forward and inverse reads of one tensor element *)

Lemma forward_query_mean this queryIdx cam info options :
  ForwardAttention.getCameraInfo this cam = Own info ->
  default true (opt_meanHeads options) = true ->
  exists out,
    ForwardAttention.getCameraPatchAttentionForQuery this queryIdx cam options = Ok out
    /\ Spec.filled (nPatches info)
         (fun i => Js.fround
                     (head_mean (ForwardAttention.attnWeightsFlat this)
                        (ForwardAttention.attnWeightsShape this)
                        (ForwardAttention.nHeads this) queryIdx (startIdx info + i)))
         (nPatches info) out.
Proof.
  intros Hinfo Hmean. unfold ForwardAttention.getCameraPatchAttentionForQuery.
  rewrite Hinfo, Hmean. cbv zeta.
  eexists. split.
  - apply for_loopM_ok. intros i acc. reflexivity.
  - apply (for_loop_ind (fun m out => Spec.filled (nPatches info) _ m out)).
    + apply filled_new.
    + intros i acc Hi Hacc. apply filled_store; [exact Hi | reflexivity | exact Hacc].
Qed.

Lemma inverse_patchAttn_mean this patchIndices options q :
  default true (opt_meanHeads options) = true ->
  q < InverseAttention.nQueries this ->
  exists rows,
    InverseAttention.patchAttn this patchIndices options = Ok rows
    /\ length rows = InverseAttention.nQueries this
    /\ rows !! q
       = Some (map (fun kIdx =>
                      Some (head_mean (InverseAttention.attnWeightsFlat this)
                              (InverseAttention.attnWeightsShape this)
                              (InverseAttention.nHeads this) q kIdx))
                   patchIndices).
Proof.
  intros Hmean Hq. unfold InverseAttention.patchAttn. rewrite Hmean. cbv zeta.
  eexists. split; [reflexivity|]. split.
  - rewrite length_map, length_seq. reflexivity.
  - rewrite list_lookup_fmap, lookup_seq_lt by exact Hq. reflexivity.
Qed.

Lemma bevMap_lookup (gs : nat) (bevAttn : list Js.number) (q : nat) :
  q < gs * gs ->
  map (fun y => map (fun x => bevAttn !! (y * gs + x)) (seq 0 gs)) (seq 0 gs) !! (q / gs)
    ≫= (fun row => row !! (q mod gs))
  = Some (bevAttn !! q).
Proof.
  intros Hq.
  assert (Hgs : 0 < gs) by (destruct gs; [lia | lia]).
  assert (Hy : q / gs < gs) by (apply Nat.Div0.div_lt_upper_bound; lia).
  assert (Hx : q mod gs < gs) by (apply Nat.mod_upper_bound; lia).
  rewrite list_lookup_fmap, lookup_seq_lt by exact Hy. cbn [fmap option_fmap option_map mbind option_bind].
  rewrite list_lookup_fmap, lookup_seq_lt by exact Hx. cbn.
  do 2 f_equal. pose proof (Nat.div_mod_eq q gs). lia.
Qed.

(** C8, as the code has it. For a forward and an inverse visualizer over
    the same tensor, a camera, a patch offset [i] and a query [q], both paths
    average the same flat-tensor elements over the heads; the forward array,
    a Float32Array, holds the binary32 rounding of the value [v] that the
    inverse query computes for the single key [startIdx + i], and the
    inverse 'sum' map holds [0 + v] in the cell of [q]. *)
Theorem forward_inverse_symmetry
    (limit : nat)
    (fv : ForwardAttention.ForwardAttentionVisualizer)
    (iv : InverseAttention.InverseAttentionVisualizer)
    (q : nat) (cam : string) (info : PatchInfo) (i : nat) :
  ForwardAttention.attnWeightsFlat fv = InverseAttention.attnWeightsFlat iv ->
  ForwardAttention.attnWeightsShape fv = InverseAttention.attnWeightsShape iv ->
  ForwardAttention.nHeads fv = InverseAttention.nHeads iv ->
  Spec.inverse_wf iv ->
  ForwardAttention.getCameraInfo fv cam = Own info ->
  i < nPatches info ->
  q < InverseAttention.nQueries iv ->
  let options := mkQueryOptions (Some true) None (Some "sum"%string) in
  let v := head_mean (InverseAttention.attnWeightsFlat iv)
             (InverseAttention.attnWeightsShape iv) (InverseAttention.nHeads iv)
             q (startIdx info + i) in
  exists out rows bevMap,
    ForwardAttention.getCameraPatchAttentionForQuery fv q cam options = Ok out
    /\ length out = nPatches info
    /\ InverseAttention.patchAttn iv [startIdx info + i] options = Ok rows
    /\ rows !! q = Some [Some v]
    /\ out !! i = Some (Js.fround v)
    /\ InverseAttention.getInverseAttention limit iv [startIdx info + i] options = Ok bevMap
    /\ bevMap !! (q / InverseAttention.gridSize iv)
         ≫= (fun row => row !! (q mod InverseAttention.gridSize iv))
       = Some (Some (Js.add Js.zero v)).
Proof.
  intros Hflat Hshape Hheads Hwf Hinfo Hi Hq options v.
  destruct (forward_query_mean fv q cam info options Hinfo eq_refl) as (out & Hout & Hlen & Hall).
  destruct (inverse_patchAttn_mean iv [startIdx info + i] options q eq_refl Hq)
    as (rows & Hrows & Hrlen & Hrow).
  exists out, rows. eexists.
  split; [exact Hout|]. split; [exact Hlen|]. split; [exact Hrows|].
  split; [exact Hrow|]. split.
  { rewrite (Hall i Hi), Hflat, Hshape, Hheads. reflexivity. }
  unfold InverseAttention.getInverseAttention. rewrite Hrows.
  cbn [mbind result_bind options opt_aggregation default String.eqb Ascii.eqb Bool.eqb].
  split; [reflexivity|].
  rewrite bevMap_lookup by (rewrite <- Hwf; exact Hq).
  rewrite list_lookup_fmap, Hrow. reflexivity.
Qed.




Lemma forward_inverse_symmetry_witness :
  ForwardAttention.getCameraInfo demo_forward "cam" = Own demo_info
  /\ ForwardAttention.getCameraPatchAttentionForQuery demo_forward 0 "cam"
       (mkQueryOptions (Some true) None (Some "sum"%string))
     = Ok [Js.fround (head_mean demo_flat demo_shape 2 0 0)].
Proof.
  assert (Hinfo : ForwardAttention.getCameraInfo demo_forward "cam" = Own demo_info)
    by reflexivity.
  split; [exact Hinfo|].
  destruct (forward_inverse_symmetry demo_limit demo_forward demo_inverse 0 "cam"%string
              demo_info 0 eq_refl eq_refl eq_refl eq_refl Hinfo (le_n 1) (le_n 1))
    as (out & rows & bevMap & Hout & Hlen & _ & _ & Hi & _).
  rewrite Hout. f_equal.
  vm_compute in Hout. inversion Hout; subst out. vm_compute. reflexivity.
Defined.

(** The forward value is the binary32 rounding of the head mean, the
    inverse value is the head mean itself: [1] against [1 + 2^-24]. *)
Lemma forward_equals_inverse_counterexample :
  let options := mkQueryOptions (Some true) None (Some "sum"%string) in
  ForwardAttention.getCameraPatchAttentionForQuery demo_forward 0 "cam" options
  = Ok [S754_finite false 4503599627370496 (-52)]
  /\ InverseAttention.getInverseAttention demo_limit demo_inverse [startIdx demo_info + 0]
       options
     = Ok [[Some (S754_finite false 4503599895805952 (-52))]]
  /\ ~ (forall limit fv iv q cam info i out bevMap,
          ForwardAttention.attnWeightsFlat fv = InverseAttention.attnWeightsFlat iv ->
          ForwardAttention.attnWeightsShape fv = InverseAttention.attnWeightsShape iv ->
          ForwardAttention.nHeads fv = InverseAttention.nHeads iv ->
          Spec.inverse_wf iv ->
          ForwardAttention.getCameraInfo fv cam = Own info ->
          i < nPatches info ->
          q < InverseAttention.nQueries iv ->
          ForwardAttention.getCameraPatchAttentionForQuery fv q cam options = Ok out ->
          InverseAttention.getInverseAttention limit iv [startIdx info + i] options
          = Ok bevMap ->
          bevMap !! (q / InverseAttention.gridSize iv)
            ≫= (fun row => row !! (q mod InverseAttention.gridSize iv))
          = Some (out !! i)).
Proof.
  intros options. split; [vm_compute; reflexivity|]. split; [vm_compute; reflexivity|].
  intros H.
  specialize (H demo_limit demo_forward demo_inverse 0 "cam"%string demo_info 0 _ _
                eq_refl eq_refl eq_refl eq_refl eq_refl (le_n 1) (le_n 1) eq_refl eq_refl).
  vm_compute in H. discriminate H.
Qed.

(** * Further properties of the decoder *)

(** ** Per-head int8 decoding *)

Section Int8Loop.
Variables (q : list Z) (scales : list Js.number) (h headStride : nat).

Let N := h * headStride.
Let G (i : nat) : Js.number :=
  Js.fround (Js.mul (Js.toNumber (Js.of_Z <$> q !! i))
                    (Js.toNumber (scales !! (i / headStride)))).

Lemma int8_loops_filled :
  Spec.filled N G N
    (for_loop h (fun head out =>
       let scale := Js.toNumber (scales !! head) in
       let base := head * headStride in
       for_loop headStride (fun i out =>
         Js.store32 out (base + i)
           (Js.mul (Js.toNumber (Js.of_Z <$> q !! (base + i))) scale))
         out)
       (Js.Float32Array_new N)).
Proof.
  replace N with (h * headStride) at 2 by reflexivity.
  apply (for_loop_ind (fun head out' => Spec.filled N G (head * headStride) out')).
  - apply filled_new.
  - intros head acc Hhead Hacc. cbv zeta.
    replace (S head * headStride) with (head * headStride + headStride) by lia.
    apply (for_loop_ind (fun i out' => Spec.filled N G (head * headStride + i) out')).
    + rewrite Nat.add_0_r. exact Hacc.
    + intros i acc' Hi Hacc'.
      replace (head * headStride + S i) with (S (head * headStride + i)) by lia.
      apply filled_store; [subst N; nia | | exact Hacc'].
      subst G. cbv beta.
      rewrite Nat.div_add_l by lia. rewrite Nat.div_small by lia.
      rewrite Nat.add_0_r. reflexivity.
Qed.
End Int8Loop.

Lemma loadInt8PerHead_out fetch race variant shape out :
  loadInt8PerHead fetch race variant shape = Ok out ->
  exists qBuffer sBuffer scales,
    fetch (default EmptyString (file variant)) = Ok qBuffer
    /\ fetch (default EmptyString (scale_file variant)) = Ok sBuffer
    /\ Js.Float32Array sBuffer = Ok scales
    /\ batch shape = 1
    /\ encoding variant = Some "symmetric_per_head"%string
    /\ length qBuffer = heads shape * queries shape * keys shape
    /\ length scales = heads shape
    /\ Spec.filled (heads shape * (queries shape * keys shape))
         (fun i => Js.fround
                     (Js.mul (Js.toNumber (Js.of_Z <$> Js.Int8Array qBuffer !! i))
                        (Js.toNumber (scales !! (i / (queries shape * keys shape))))))
         (heads shape * (queries shape * keys shape)) out.
Proof.
  unfold loadInt8PerHead. intros H.
  case_if; [discriminate|].
  destruct (bool_decide (encoding variant = Some "symmetric_per_head"%string)) eqn:Henc;
    [|discriminate].
  apply bool_decide_eq_true_1 in Henc.
  apply bind_ok in H as ([qBuffer sBuffer] & Hf & H).
  apply fetchBoth_ok in Hf as [Hq Hs].
  apply bind_ok in H as (scales & Hsc & H).
  cbv beta iota zeta in H.
  destruct (Nat.eqb_spec (batch shape) 1) as [Hb|Hb]; [|discriminate].
  rewrite Hb, !Nat.mul_1_l in H.
  destruct (Nat.eqb_spec (length (Js.Int8Array qBuffer))
              (heads shape * queries shape * keys shape)) as [Hp|Hp]; [|discriminate].
  destruct (Nat.eqb_spec (length scales) (heads shape)) as [Hl|Hl]; [|discriminate].
  cbv [negb] in H. inversion H; subst out.
  exists qBuffer, sBuffer, scales.
  unfold Js.Int8Array in Hp. rewrite length_map in Hp.
  repeat (split; [assumption|]).
  replace (heads shape * queries shape * keys shape)
    with (heads shape * (queries shape * keys shape)) by lia.
  apply (int8_loops_filled (Js.Int8Array qBuffer) scales).
Qed.

Lemma int8_val_range b : (-128 <= Js.int8_val b <= 127)%Z.
Proof. destruct b; vm_compute; split; congruence. Qed.

(** X1. For a shape [[1, h, qDim, kDim]], a successful int8 load has fetched
    the payload and the scale file, returns h*qDim*kDim elements, and element
    [i] is the binary32 rounding of the signed byte [i] of the payload (a
    value in [-128, 127]) times the scale of head [i / (qDim*kDim)]. *)
Theorem int8_decode_law fetch race variant h qDim kDim out :
  loadInt8PerHead fetch race variant (mkShape 1 h qDim kDim) = Ok out ->
  exists qBuffer sBuffer scales,
    fetch (default EmptyString (file variant)) = Ok qBuffer
    /\ fetch (default EmptyString (scale_file variant)) = Ok sBuffer
    /\ Js.Float32Array sBuffer = Ok scales
    /\ length out = h * qDim * kDim
    /\ forall i, i < h * qDim * kDim ->
         exists b scale,
           qBuffer !! i = Some b
           /\ (-128 <= Js.int8_val b <= 127)%Z
           /\ scales !! Spec.head_of qDim kDim i = Some scale
           /\ out !! i = Some (Js.fround (Js.mul (Js.of_Z (Js.int8_val b)) scale)).
Proof.
  intros Hload.
  apply loadInt8PerHead_out in Hload
    as (qBuffer & sBuffer & scales & Hq & Hs & Hsc & _ & _ & Hp & Hl & Hlen & Hall).
  cbn [batch heads queries keys] in *.
  exists qBuffer, sBuffer, scales.
  split; [exact Hq|]. split; [exact Hs|]. split; [exact Hsc|].
  split; [lia|].
  intros i Hi.
  assert (Hi' : i < length qBuffer) by lia.
  destruct (lookup_lt_is_Some_2 qBuffer i Hi') as [b Hb].
  assert (Hpos : 0 < qDim * kDim) by nia.
  assert (Hhead : i / (qDim * kDim) < length scales).
  { rewrite Hl. apply Nat.Div0.div_lt_upper_bound. lia. }
  destruct (lookup_lt_is_Some_2 scales _ Hhead) as [scale Hscale].
  exists b, scale. split; [exact Hb|]. split; [apply int8_val_range|].
  split; [exact Hscale|].
  rewrite (Hall i) by lia. unfold Js.Int8Array.
  rewrite list_lookup_fmap, Hb, Hscale. reflexivity.
Qed.

Lemma int8_decode_law_witness :
  let variant := mkVariant (Some "attn_int8.bin"%string) (Some "scales.bin"%string)
                   (Some "int8"%string) (Some "symmetric_per_head"%string) in
  exists out,
    loadInt8PerHead demo_fetch demo_race variant (mkShape 1 2 1 2) = Ok out
    /\ length out = 2 * 1 * 2
    /\ out = [Js.of_Z 1; Js.of_Z (-1); Js.of_Z 254; Js.of_Z (-256)].
Proof.
  intros variant. eexists. split; [vm_compute; reflexivity|].
  split; [|vm_compute; reflexivity].
  destruct (int8_decode_law demo_fetch demo_race variant 2 1 2 _ eq_refl)
    as (qb & sb & sc & _ & _ & _ & Hlen & _).
  exact Hlen.
Defined.

(** ** Automatic variant selection *)





(** ** Acceptance and failure of the loaders *)

Lemma Float32Array_exact buffer n :
  length buffer = 4 * n ->
  exists out, Js.Float32Array buffer = Ok out /\ length out = n.
Proof.
  intros Hlen. unfold Js.Float32Array.
  assert (Hm : length buffer mod 4 = 0).
  { rewrite Hlen, Nat.mul_comm. apply Nat.Div0.mod_mul. }
  rewrite Hm. cbn. eexists. split; [reflexivity|].
  rewrite length_map, (words32_length_le (length buffer)) by lia.
  rewrite Hlen, Nat.mul_comm. apply Nat.div_mul. lia.
Qed.

Lemma truthy_negb_false s : Js.truthy s = true -> negb (Js.truthy s) = false.
Proof. intros ->. reflexivity. Qed.

(** X3. Each of the three loaders accepts a batch-1 shape whenever the files
    it needs are named and fetched with exactly the byte lengths of the
    format (4*H*Q*K for fp32; H*Q*K and 4*H for int8, with the encoding
    "symmetric_per_head"; ceil(H*Q*K/2) and 4*H*Q for int4), and then returns
    H*Q*K elements. *)
Theorem loader_accepts_exact_lengths enc fetch race variant H Q K qBuffer :
  Js.truthy (file variant) = true ->
  fetch (default EmptyString (file variant)) = Ok qBuffer ->
  length qBuffer = payload_bytes enc H Q K ->
  (enc = Int8 -> encoding variant = Some "symmetric_per_head"%string) ->
  (forall n, scale_bytes enc H Q = Some n ->
     Js.truthy (scale_file variant) = true
     /\ exists sBuffer,
          fetch (default EmptyString (scale_file variant)) = Ok sBuffer
          /\ length sBuffer = n) ->
  exists out,
    loader enc fetch race variant (mkShape 1 H Q K) = Ok out /\ length out = H * Q * K.
Proof.
  intros Hfile Hq Hlen Henc Hscale.
  assert (Hsome : exists out, loader enc fetch race variant (mkShape 1 H Q K) = Ok out).
  { destruct enc; cbn [loader payload_bytes scale_bytes] in *.
    - unfold loadRawFp32. rewrite (truthy_negb_false _ Hfile), Hq.
      cbn [mbind result_bind].
      destruct (Float32Array_exact qBuffer (H * Q * K) Hlen) as (out & -> & Hout).
      cbn [mbind result_bind]. cbv zeta.
      replace (prod (dims (mkShape 1 H Q K))) with (H * Q * K)
        by (unfold prod, dims; cbn [fold_left batch heads queries keys]; lia).
      rewrite Hout, Nat.eqb_refl. cbn. eauto.
    - destruct (Hscale _ eq_refl) as (Hsf & sBuffer & Hs & Hslen).
      destruct (Float32Array_exact sBuffer H Hslen) as (scales & Hsc & Hsclen).
      unfold loadInt8PerHead, fetchBoth.
      rewrite (truthy_negb_false _ Hfile), (truthy_negb_false _ Hsf), (Henc eq_refl).
      cbn [orb]. rewrite bool_decide_eq_true_2 by reflexivity. cbn [negb].
      rewrite Hq, Hs. cbn [mbind result_bind]. rewrite Hsc. cbn [mbind result_bind].
      cbv beta iota zeta. cbn [batch heads queries keys Nat.eqb negb].
      unfold Js.Int8Array. rewrite length_map, Hlen, Nat.mul_1_l, Nat.eqb_refl.
      cbn [negb]. rewrite Hsclen, Nat.eqb_refl. cbn [negb]. eauto.
    - destruct (Hscale _ eq_refl) as (Hsf & sBuffer & Hs & Hslen).
      destruct (Float32Array_exact sBuffer (H * Q) Hslen) as (scales & Hsc & Hsclen).
      unfold loadInt4Packed, fetchBoth.
      rewrite (truthy_negb_false _ Hfile), (truthy_negb_false _ Hsf).
      cbn [orb]. rewrite Hq, Hs. cbn [mbind result_bind]. rewrite Hsc.
      cbn [mbind result_bind].
      cbv beta iota zeta. cbn [batch heads queries keys Nat.eqb negb].
      unfold Js.Uint8Array. rewrite length_map, Hlen, Nat.mul_1_l, Nat.eqb_refl.
      cbn [negb]. rewrite Hsclen, Nat.eqb_refl. cbn [negb]. eauto. }
  destruct Hsome as [out Hout]. exists out. split; [exact Hout|].
  apply loader_ok in Hout as (_ & Hl & _). cbn [batch heads queries keys] in Hl. lia.
Qed.

Lemma loader_accepts_exact_lengths_witness :
  exists out,
    loader Int4 demo_fetch demo_race demo_int4 (mkShape 1 1 2 2) = Ok out /\ length out = 1 * 2 * 2.
Proof.
  refine (loader_accepts_exact_lengths Int4 demo_fetch demo_race demo_int4 1 2 2
            [Byte.x1f; Byte.x80] eq_refl eq_refl eq_refl _ _).
  - discriminate.
  - intros n Hn. inversion Hn; subst n. split; [reflexivity|].
    eexists. split; [vm_compute; reflexivity | reflexivity].
Defined.

(** X4. Once the variant names its files (and an int8 variant its
    encoding), a failed request decides the outcome of the loader, whatever
    the shape: the error of the failed request is raised, before the batch
    check and every size check. When the payload and the scale file are both
    requested and both requests fail, the error is that of the request that
    fails first. *)
Theorem fetch_failure_is_reported enc fetch race variant shape :
  Js.truthy (file variant) = true ->
  (enc <> Fp32 -> Js.truthy (scale_file variant) = true) ->
  (enc = Int8 -> encoding variant = Some "symmetric_per_head"%string) ->
  let qUrl := default EmptyString (file variant) in
  let sUrl := default EmptyString (scale_file variant) in
  (forall e,
      fetch qUrl = Err e ->
      enc = Fp32 \/ (exists sBuffer, fetch sUrl = Ok sBuffer) ->
      loader enc fetch race variant shape = Err e)
  /\ (forall e qBuffer,
        enc <> Fp32 -> fetch qUrl = Ok qBuffer -> fetch sUrl = Err e ->
        loader enc fetch race variant shape = Err e)
  /\ (forall qError sError,
        enc <> Fp32 -> fetch qUrl = Err qError -> fetch sUrl = Err sError ->
        loader enc fetch race variant shape
        = Err (if race qUrl sUrl then qError else sError)).
Proof.
  intros Hfile Hsf Henc qUrl sUrl.
  assert (Hboth : forall e,
            enc <> Fp32 ->
            fetchBoth fetch race (file variant) (scale_file variant) = Err e ->
            loader enc fetch race variant shape = Err e).
  { intros e Hne Hb. destruct enc; [congruence| |]; cbn [loader].
    - unfold loadInt8PerHead.
      rewrite (truthy_negb_false _ Hfile), (truthy_negb_false _ (Hsf Hne)), (Henc eq_refl).
      cbn [orb]. rewrite bool_decide_eq_true_2 by reflexivity. cbn [negb].
      rewrite Hb. reflexivity.
    - unfold loadInt4Packed.
      rewrite (truthy_negb_false _ Hfile), (truthy_negb_false _ (Hsf Hne)).
      cbn [orb]. rewrite Hb. reflexivity. }
  split; [|split].
  - intros e Hq [->|[sBuffer Hs]].
    + cbn [loader]. unfold loadRawFp32. rewrite (truthy_negb_false _ Hfile).
      fold qUrl. rewrite Hq. reflexivity.
    + assert (Hcases : enc = Fp32 \/ enc <> Fp32)
        by (destruct enc; [left; reflexivity | right; discriminate | right; discriminate]).
      destruct Hcases as [->|Hne].
      * cbn [loader]. unfold loadRawFp32. rewrite (truthy_negb_false _ Hfile).
        fold qUrl. rewrite Hq. reflexivity.
      * apply (Hboth e Hne). unfold fetchBoth. cbv zeta. fold qUrl sUrl.
        rewrite Hq, Hs. reflexivity.
  - intros e qBuffer Hne Hq Hs. apply (Hboth e Hne).
    unfold fetchBoth. cbv zeta. fold qUrl sUrl. rewrite Hq, Hs. reflexivity.
  - intros qError sError Hne Hq Hs. apply (Hboth _ Hne).
    unfold fetchBoth. cbv zeta. fold qUrl sUrl. rewrite Hq, Hs. reflexivity.
Qed.

Lemma fetch_failure_is_reported_witness :
  let neither := mkVariant (Some "nowhere.bin"%string) (Some "missing.bin"%string)
                   None None in
  let no_scales := mkVariant (Some "attn_int4.bin"%string) (Some "missing.bin"%string)
                     None None in
  let no_payload := mkVariant (Some "nowhere.bin"%string) (Some "scales.bin"%string)
                      None None in
  loader Int4 demo_fetch demo_race no_payload (mkShape 3 1 2 2)
  = Err (FetchFailed "nowhere.bin" 404)
  /\ loader Int4 demo_fetch demo_race no_scales (mkShape 3 1 2 2)
     = Err (FetchFailed "missing.bin" 404)
  /\ loader Int4 demo_fetch demo_race neither (mkShape 3 1 2 2)
     = Err (FetchFailed "nowhere.bin" 404)
  /\ loader Int4 demo_fetch (fun _ _ => false) neither (mkShape 3 1 2 2)
     = Err (FetchFailed "missing.bin" 404).
Proof.
  intros neither no_scales no_payload. split; [|split; [|split]].
  - refine (proj1 (fetch_failure_is_reported Int4 demo_fetch demo_race no_payload
                     (mkShape 3 1 2 2) eq_refl _ _) _ _ _).
    + intros _. reflexivity.
    + discriminate.
    + vm_compute. reflexivity.
    + right. eexists. vm_compute. reflexivity.
  - refine (proj1 (proj2 (fetch_failure_is_reported Int4 demo_fetch demo_race no_scales
                            (mkShape 3 1 2 2) eq_refl _ _)) _ _ _ _ _).
    + intros _. reflexivity.
    + discriminate.
    + discriminate.
    + vm_compute. reflexivity.
    + vm_compute. reflexivity.
  - refine (proj2 (proj2 (fetch_failure_is_reported Int4 demo_fetch demo_race neither
                            (mkShape 3 1 2 2) eq_refl _ _)) _ _ _ _ _).
    + intros _. reflexivity.
    + discriminate.
    + discriminate.
    + vm_compute. reflexivity.
    + vm_compute. reflexivity.
  - refine (proj2 (proj2 (fetch_failure_is_reported Int4 demo_fetch (fun _ _ => false) neither
                            (mkShape 3 1 2 2) eq_refl _ _)) _ _ _ _ _).
    + intros _. reflexivity.
    + discriminate.
    + discriminate.
    + vm_compute. reflexivity.
    + vm_compute. reflexivity.
Defined.

(** X5. [loadAttentionAsFloat32] reports an invalid shape before anything
    else, and an error of the variant resolver before any file is fetched;
    when it succeeds, the fields of its result are the manifest's shape, the
    resolver's key and fallback flag, the normalized request, and a buffer
    whose length is the product of the shape. *)
Theorem decode_error_precedence fetch race sceneJson urlPrecision :
  (ensureShape sceneJson = Err InvalidShape ->
   loadAttentionAsFloat32 fetch race sceneJson urlPrecision = Err InvalidShape)
  /\ (forall shape e,
        ensureShape sceneJson = Ok shape ->
        resolveAttentionVariant sceneJson urlPrecision = Err e ->
        loadAttentionAsFloat32 fetch race sceneJson urlPrecision = Err e)
  /\ (forall loaded,
        loadAttentionAsFloat32 fetch race sceneJson urlPrecision = Ok loaded ->
        exists resolved,
          resolveAttentionVariant sceneJson urlPrecision = Ok resolved
          /\ ensureShape sceneJson = Ok (Loaded.shape loaded)
          /\ Loaded.selectedPrecision loaded = key resolved
          /\ Loaded.fallbackUsed loaded = fallbackUsed resolved
          /\ Loaded.requestedPrecision loaded = normalizePrecision urlPrecision
          /\ length (Loaded.float32 loaded)
             = batch (Loaded.shape loaded) * heads (Loaded.shape loaded)
               * queries (Loaded.shape loaded) * keys (Loaded.shape loaded)).
Proof.
  split; [|split].
  - intros H. unfold loadAttentionAsFloat32. rewrite H. reflexivity.
  - intros shape e Hs Hr. unfold loadAttentionAsFloat32. rewrite Hs. cbn [mbind result_bind].
    rewrite Hr. reflexivity.
  - intros loaded H. unfold loadAttentionAsFloat32 in H.
    apply bind_ok in H as (shape & Hshape & H).
    apply bind_ok in H as (resolved & Hres & H).
    cbv zeta in H. apply bind_ok in H as (out & Hload & H).
    inversion H; subst loaded. cbn.
    exists resolved. split; [exact Hres|]. split; [exact Hshape|].
    split; [reflexivity|]. split; [reflexivity|]. split.
    + destruct (normalizePrecision_cases urlPrecision) as [Hn|[Hn|[Hn|Hn]]].
      * apply (resolve_auto _ _ _ Hn) in Hres as [-> _]. congruence.
      * rewrite (resolve_fp32 _ _ Hn) in Hres. cbv zeta in Hres.
        destruct (attn_variants sceneJson) as [| |m];
          try (destruct (buildLegacyFp32Variant sceneJson); [|discriminate];
               inversion Hres; subst resolved; cbn; congruence).
        destruct (m !! "fp32"%string);
          [|destruct (buildLegacyFp32Variant sceneJson); [|discriminate]];
          inversion Hres; subst resolved; cbn; congruence.
      * destruct (resolve_explicit_ok sceneJson urlPrecision "int8" "int8_phs_v1" resolved
                    (or_introl (conj eq_refl eq_refl)) Hn Hres) as (_ & _ & -> & _).
        congruence.
      * destruct (resolve_explicit_ok sceneJson urlPrecision "int4" "int4_phq_v1" resolved
                    (or_intror (conj eq_refl eq_refl)) Hn Hres) as (_ & _ & -> & _).
        congruence.
    + assert (Hl : exists enc, loader enc fetch race (variant resolved) shape = Ok out).
      { destruct (_ || _) in Hload; [exists Int4; exact Hload|].
        destruct (_ || _) in Hload; [exists Int8 | exists Fp32]; exact Hload. }
      destruct Hl as [enc Hl]. apply loader_ok in Hl as (_ & Hlen & _). exact Hlen.
Qed.

Lemma decode_error_precedence_witness :
  loadAttentionAsFloat32 demo_fetch demo_race
    {| attn_weights_shape := Some [1; 2; 3];
       attn_variants := VariantsMissing;
       attn_weights_file := None;
       attn_precision_default := None |} (Str "int8")
  = Err InvalidShape.
Proof.
  exact (proj1 (decode_error_precedence demo_fetch demo_race
                  {| attn_weights_shape := Some [1; 2; 3];
                     attn_variants := VariantsMissing;
                     attn_weights_file := None;
                     attn_precision_default := None |} (Str "int8")) eq_refl).
Defined.

(** ** Trimming and lower-casing *)

Lemma str_app_cons c (a b : string) :
  String.append (String c a) b = String c (String.append a b).
Proof. reflexivity. Qed.

Lemma str_app_nil_l (s : string) : String.append EmptyString s = s.
Proof. reflexivity. Qed.

Lemma str_app_nil_r (s : string) : String.append s EmptyString = s.
Proof.
  induction s as [|c s IH]; [reflexivity|]. rewrite str_app_cons, IH. reflexivity.
Qed.

Lemma str_app_assoc (a b c : string) :
  String.append (String.append a b) c = String.append a (String.append b c).
Proof.
  induction a as [|x a IH]; [reflexivity|]. rewrite !str_app_cons, IH. reflexivity.
Qed.

Lemma string_of_list_app (l1 l2 : list ascii) :
  string_of_list_ascii (l1 ++ l2)
  = String.append (string_of_list_ascii l1) (string_of_list_ascii l2).
Proof.
  induction l1 as [|c l1 IH]; [reflexivity|].
  cbn [app string_of_list_ascii]. rewrite IH. reflexivity.
Qed.

Lemma reverse_cons c s :
  JsString.reverse (String c s) = String.append (JsString.reverse s) (String c EmptyString).
Proof.
  unfold JsString.reverse. cbn [list_ascii_of_string List.rev].
  rewrite string_of_list_app. reflexivity.
Qed.

Lemma reverse_app a b :
  JsString.reverse (String.append a b)
  = String.append (JsString.reverse b) (JsString.reverse a).
Proof.
  induction a as [|c a IH].
  - rewrite str_app_nil_l. change (JsString.reverse EmptyString) with EmptyString.
    rewrite str_app_nil_r. reflexivity.
  - rewrite str_app_cons, !reverse_cons, IH, str_app_assoc. reflexivity.
Qed.

Lemma all_whitespace_app a b :
  all_whitespace (String.append a b) = all_whitespace a && all_whitespace b.
Proof.
  induction a as [|c a IH]; [reflexivity|].
  rewrite str_app_cons. cbn [all_whitespace]. rewrite IH, andb_assoc. reflexivity.
Qed.

Lemma all_whitespace_reverse s : all_whitespace (JsString.reverse s) = all_whitespace s.
Proof.
  induction s as [|c s IH]; [reflexivity|].
  rewrite reverse_cons, all_whitespace_app, IH. cbn [all_whitespace].
  rewrite andb_true_r. apply andb_comm.
Qed.

Lemma trimStart_ws_app ws t :
  all_whitespace ws = true -> JsString.trimStart (String.append ws t) = JsString.trimStart t.
Proof.
  induction ws as [|c ws IH]; [reflexivity|].
  rewrite str_app_cons. cbn [all_whitespace JsString.trimStart].
  intros H. apply andb_prop in H as [Hc Hws]. rewrite Hc. apply IH, Hws.
Qed.

Lemma trimStart_all_ws ws : all_whitespace ws = true -> JsString.trimStart ws = EmptyString.
Proof.
  intros H. rewrite <- (str_app_nil_r ws). rewrite trimStart_ws_app by exact H. reflexivity.
Qed.

Lemma trimEnd_app_ws t ws :
  all_whitespace ws = true -> JsString.trimEnd (String.append t ws) = JsString.trimEnd t.
Proof.
  intros H. unfold JsString.trimEnd. rewrite reverse_app, trimStart_ws_app; [reflexivity|].
  rewrite all_whitespace_reverse. exact H.
Qed.

Lemma trimStart_app s w :
  JsString.trimStart (String.append s w) = String.append (JsString.trimStart s) w
  \/ (all_whitespace s = true).
Proof.
  induction s as [|c s IH]; [right; reflexivity|].
  rewrite str_app_cons. cbn [all_whitespace JsString.trimStart].
  destruct (JsString.is_whitespace c); cbn [andb]; [exact IH | left; reflexivity].
Qed.

Lemma trim_ws_around ws1 s ws2 :
  all_whitespace ws1 = true -> all_whitespace ws2 = true ->
  JsString.trim (String.append ws1 (String.append s ws2)) = JsString.trim s.
Proof.
  intros H1 H2. unfold JsString.trim. rewrite trimStart_ws_app by exact H1.
  destruct (trimStart_app s ws2) as [E|E].
  - rewrite E. apply trimEnd_app_ws. exact H2.
  - rewrite (trimStart_all_ws s E).
    rewrite trimStart_all_ws by (rewrite all_whitespace_app, E, H2; reflexivity).
    reflexivity.
Qed.

Lemma is_whitespace_lower c :
  JsString.is_whitespace (JsString.lower_char c) = JsString.is_whitespace c.
Proof. destruct c as [[] [] [] [] [] [] [] []]; vm_compute; reflexivity. Qed.

Lemma toLowerCase_app a b :
  JsString.toLowerCase (String.append a b)
  = String.append (JsString.toLowerCase a) (JsString.toLowerCase b).
Proof.
  induction a as [|c a IH]; [reflexivity|].
  rewrite str_app_cons. cbn [JsString.toLowerCase]. rewrite IH. reflexivity.
Qed.

Lemma toLowerCase_reverse s :
  JsString.toLowerCase (JsString.reverse s) = JsString.reverse (JsString.toLowerCase s).
Proof.
  induction s as [|c s IH]; [reflexivity|].
  cbn [JsString.toLowerCase]. rewrite !reverse_cons, toLowerCase_app, IH. reflexivity.
Qed.

Lemma toLowerCase_trimStart s :
  JsString.toLowerCase (JsString.trimStart s) = JsString.trimStart (JsString.toLowerCase s).
Proof.
  induction s as [|c s IH]; [reflexivity|].
  cbn [JsString.trimStart JsString.toLowerCase]. rewrite is_whitespace_lower.
  destruct (JsString.is_whitespace c); [exact IH | reflexivity].
Qed.

Lemma toLowerCase_trim s :
  JsString.toLowerCase (JsString.trim s) = JsString.trim (JsString.toLowerCase s).
Proof.
  unfold JsString.trim, JsString.trimEnd.
  rewrite toLowerCase_reverse, toLowerCase_trimStart, toLowerCase_reverse,
    toLowerCase_trimStart. reflexivity.
Qed.

Lemma normalizePrecision_of_string s :
  normalizePrecision (Str s)
  = let raw := JsString.toLowerCase (JsString.trim s) in
    if String.eqb raw "auto" then "auto"%string
    else if String.eqb raw "fp32" || String.eqb raw "float32" then "fp32"%string
    else if String.eqb raw "int8" || String.eqb raw "int8_phs_v1" then "int8"%string
    else if String.eqb raw "int4" || String.eqb raw "int4_phq_v1" then "int4"%string
    else "auto"%string.
Proof. destruct s; reflexivity. Qed.

(** X6. [normalizePrecision] ignores letter case and surrounding white
    space: a string wrapped in white space gives the same result as any
    string with the same lower-casing. *)
Theorem normalizePrecision_insensitive ws1 s ws2 s' :
  all_whitespace ws1 = true -> all_whitespace ws2 = true ->
  JsString.toLowerCase s = JsString.toLowerCase s' ->
  normalizePrecision (Str (String.append ws1 (String.append s ws2)))
  = normalizePrecision (Str s').
Proof.
  intros H1 H2 Hs. rewrite !normalizePrecision_of_string.
  rewrite trim_ws_around by assumption.
  rewrite !toLowerCase_trim, Hs. reflexivity.
Qed.

Lemma normalizePrecision_insensitive_witness :
  normalizePrecision (Str " Int8_PHS_v1  ") = normalizePrecision (Str "int8_phs_v1")
  /\ normalizePrecision (Str "int8_phs_v1") = "int8"%string.
Proof.
  split; [|reflexivity].
  apply (normalizePrecision_insensitive " " "Int8_PHS_v1" "  " "int8_phs_v1");
    reflexivity.
Defined.

(** * Further properties of the visualizers *)

(** ** What a built layout records *)

Section WalkRelated.
Variable step : list PatchInfo * nat -> Camera -> result (list PatchInfo * nat).
Variable R : Camera -> PatchInfo -> Prop.

Hypothesis step_related : forall infos cur cam st',
  step (infos, cur) cam = Ok st' -> exists p, fst st' = infos ++ [p] /\ R cam p.

Lemma walk_related cams : forall infos cur infos' cur',
  fold_left (fun st cam => st ← st; step st cam) cams (Ok (infos, cur)) = Ok (infos', cur') ->
  exists added, infos' = infos ++ added /\ Forall2 R cams added.
Proof.
  induction cams as [|cam cams IH]; intros infos cur infos' cur' H.
  - inversion H; subst. exists []. rewrite app_nil_r. split; [reflexivity | constructor].
  - cbn [fold_left] in H.
    change (Ok (infos, cur) ≫= (fun st => step st cam)) with (step (infos, cur) cam) in H.
    destruct (step (infos, cur) cam) as [[infos1 cur1]|e] eqn:Hstep.
    + apply step_related in Hstep as (p & Hp & HR). cbn in Hp. subst infos1.
      apply IH in H as (added & -> & Hall).
      exists (p :: added). rewrite <- app_assoc. split; [reflexivity|].
      constructor; assumption.
    + exfalso. clear -H. induction cams as [|c cams IHc]; [discriminate | exact (IHc H)].
Qed.
End WalkRelated.

Lemma inverse_step_related patchSize hasClsTokens infos cur cam st' :
  InverseAttention.layoutStep patchSize hasClsTokens (infos, cur) cam = Ok st' ->
  exists p, fst st' = infos ++ [p] /\ info_of_camera inverse_dims patchSize cam p.
Proof.
  unfold InverseAttention.layoutStep.
  destruct (img cam) as [im|] eqn:Him; [|discriminate].
  destruct (origImg cam) as [om|]; [|discriminate].
  intros H. inversion H; subst st'.
  eexists (mkPatchInfo _ _ _ _ _ _ _ _ _ _). split; [cbn [fst]; reflexivity|].
  unfold info_of_camera. cbn. repeat split. exists im. split; [exact Him | reflexivity].
Qed.

Lemma forward_step_related patchSize hasClsTokens infos cur cam st' :
  ForwardAttention.layoutStep patchSize hasClsTokens (infos, cur) cam = Ok st' ->
  exists p, fst st' = infos ++ [p]
            /\ info_of_camera forward_dims patchSize cam p
            /\ imgH p <> 0 /\ imgW p <> 0.
Proof.
  unfold ForwardAttention.layoutStep.
  destruct (img cam) as [im|] eqn:Him; [|discriminate].
  destruct (Nat.eqb_spec (or_else (naturalHeight im) (or_else (height im) 0)) 0) as [|HH];
    [discriminate|].
  destruct (Nat.eqb_spec (or_else (naturalWidth im) (or_else (width im) 0)) 0) as [|HW];
    [discriminate|].
  cbn [orb].
  destruct (origImg cam) as [om|];
    (intros H; inversion H; subst st';
     eexists (mkPatchInfo _ _ _ _ _ _ _ _ _ _); split; [cbn [fst]; reflexivity|];
     unfold info_of_camera; cbn; repeat split; try assumption;
     exists im; split; [exact Him | reflexivity]).
Qed.

Lemma cameras_of_lookup names images originals i cam :
  cameras_of names images originals !! i = Some cam ->
  idx cam = i /\ names !! i = Some (name cam) /\ img cam = images !! i
  /\ origImg cam = originals !! i.
Proof.
  unfold cameras_of. intros H.
  apply list_lookup_imap_Some in H as (nm & Hnm & ->). cbn. auto.
Qed.

Lemma cameras_of_names names images originals :
  map name (cameras_of names images originals) = names.
Proof.
  unfold cameras_of. apply list_eq. intros i.
  rewrite list_lookup_fmap, list_lookup_imap.
  destruct (names !! i); reflexivity.
Qed.

(** Every entry related to a sorted camera is related to the arguments. *)
Lemma related_to_arguments dims ps lc names images originals infos :
  Forall2 (info_of_camera dims ps)
    (sort (fun a b => lc (name a) (name b)) (cameras_of names images originals)) infos ->
  map camName infos ≡ₚ names
  /\ Forall (info_of_arguments dims ps names images) infos.
Proof.
  intros Hall. split.
  - assert (Heq : map camName infos
                  = map name (sort (fun a b => lc (name a) (name b))
                                (cameras_of names images originals))).
    { induction Hall as [|cam p cams ps' (Hn & _) _ IH]; [reflexivity|].
      cbn. rewrite Hn, IH. reflexivity. }
    rewrite Heq, (sort_perm (fun a b => lc (name a) (name b))).
    rewrite cameras_of_names. reflexivity.
  - apply Forall_forall. intros p Hp.
    apply list_elem_of_lookup in Hp as [j Hj].
    destruct (Forall2_lookup_r _ _ _ _ _ Hall Hj) as (cam & Hcam & HR).
    assert (Hin : cam ∈ cameras_of names images originals).
    { rewrite <- (sort_perm (fun a b => lc (name a) (name b))). 
      apply list_elem_of_lookup. eauto. }
    apply list_elem_of_lookup in Hin as [i Hi].
    apply cameras_of_lookup in Hi as (Hidx & Hname & Himg & _).
    destruct HR as (Hn & Hci & (im & Him & Hd) & HpH & HpW & Hnp).
    unfold info_of_arguments. rewrite Hci, Hidx, Hn.
    split; [exact Hname|]. split; [|auto].
    exists im. split; [congruence | exact Hd].
Qed.

(** ** The name table *)

Lemma read_own {A} (own : option A) k v : own = Some v -> JsObject.read own k = Own v.
Proof. intros ->. reflexivity. Qed.

Lemma read_Own_inv {A} (own : option A) k v : JsObject.read own k = Own v -> own = Some v.
Proof.
  unfold JsObject.read. destruct own; [congruence|].
  destruct (JsObject.inherited k); discriminate.
Qed.

Lemma read_cases {A} (own : option A) k :
  (exists v, own = Some v /\ JsObject.read own k = Own v)
  \/ (own = None /\ JsObject.inherited k = true /\ JsObject.read own k = Inherited)
  \/ (own = None /\ JsObject.inherited k = false /\ JsObject.read own k = Missing).
Proof.
  unfold JsObject.read. destruct own as [v|]; [left; eauto|].
  destruct (JsObject.inherited k); [right; left | right; right]; auto.
Qed.

Lemma nameToInfo_sound infos k p :
  nameToInfo infos !! k = Some p -> camName p = k /\ p ∈ infos.
Proof.
  unfold nameToInfo. revert k p.
  induction infos as [|x infos IH] using rev_ind; intros k p H.
  - cbn in H. rewrite lookup_empty in H. discriminate.
  - rewrite fold_left_app in H. cbn [fold_left] in H.
    destruct (decide (camName x = k)) as [Hk|Hk].
    + subst k. rewrite lookup_insert_eq in H. inversion H; subst p.
      split; [reflexivity|]. apply elem_of_app. right. apply list_elem_of_singleton.
      reflexivity.
    + rewrite lookup_insert_ne in H by exact Hk.
      destruct (IH k p H) as [Hn Hin]. split; [exact Hn|].
      apply elem_of_app. left. exact Hin.
Qed.

Lemma nameToInfo_complete infos p :
  p ∈ infos -> is_Some (nameToInfo infos !! camName p).
Proof.
  unfold nameToInfo.
  induction infos as [|x infos IH] using rev_ind; intros Hin.
  - apply elem_of_nil in Hin. destruct Hin.
  - rewrite fold_left_app. cbn [fold_left].
    destruct (decide (camName x = camName p)) as [Hk|Hk].
    + rewrite Hk, lookup_insert_eq. eauto.
    + rewrite lookup_insert_ne by exact Hk. apply IH.
      apply elem_of_app in Hin as [Hin|Hin]; [exact Hin|].
      apply list_elem_of_singleton in Hin. subst x. congruence.
Qed.

Lemma known_names_resolve infos names nm :
  map camName infos ≡ₚ names -> nm ∈ names ->
  exists p, nameToInfo infos !! nm = Some p /\ camName p = nm /\ p ∈ infos.
Proof.
  intros Hperm Hnm. rewrite <- Hperm in Hnm.
  apply list_elem_of_fmap in Hnm as (p0 & -> & Hp0).
  destruct (nameToInfo_complete infos p0 Hp0) as [p Hp].
  exists p. split; [exact Hp|]. apply nameToInfo_sound in Hp. exact Hp.
Qed.

Lemma layoutWalk_inverse_related lc names images originals ps cls infos cur :
  InverseAttention.layoutWalk lc names images originals ps cls = Ok (infos, cur) ->
  map camName infos ≡ₚ names
  /\ Forall (info_of_arguments inverse_dims ps names images) infos.
Proof.
  unfold InverseAttention.layoutWalk. intros H.
  apply (walk_related _ (info_of_camera inverse_dims ps) (inverse_step_related ps cls)) in H
    as (added & -> & Hall).
  cbn [app]. eapply related_to_arguments. exact Hall.
Qed.

Lemma layoutWalk_forward_related lc names images originals ps cls infos cur :
  ForwardAttention.layoutWalk lc names images originals ps cls = Ok (infos, cur) ->
  map camName infos ≡ₚ names
  /\ Forall (info_of_arguments forward_dims ps names images) infos
  /\ Forall (fun p => imgH p <> 0 /\ imgW p <> 0) infos.
Proof.
  unfold ForwardAttention.layoutWalk. intros H.
  apply (walk_related _ (fun cam p => info_of_camera forward_dims ps cam p
                                      /\ imgH p <> 0 /\ imgW p <> 0)
           (forward_step_related ps cls)) in H as (added & -> & Hall).
  cbn [app].
  assert (H1 : Forall2 (info_of_camera forward_dims ps)
                 (sort (fun a b => lc (name a) (name b)) (cameras_of names images originals))
                 added).
  { eapply Forall2_impl; [exact Hall|]. intros cam p [HR _]. exact HR. }
  destruct (related_to_arguments _ _ _ _ _ _ _ H1) as [Hperm Hargs].
  split; [exact Hperm|]. split; [exact Hargs|].
  clear -Hall. induction Hall as [|cam p cams ps' (_ & Hnz) _ IH]; constructor; assumption.
Qed.

(** X7. A visualizer returned by the inverse constructor has a non-zero
    patch size and grid size and gridSize*gridSize queries; its layout has
    one entry per camera name (the entry names are a permutation of the
    names), each entry records the index of its camera among the arguments,
    the pixel size of that camera's image and the patch grid
    floor(H/patchSize) x floor(W/patchSize), and every camera name resolves
    through [getCameraInfo] to an entry of the layout with that name. *)
Theorem inverse_constructor_invariants lc attnWeights cameraImages cameraNames options this :
  InverseAttention.constructor lc attnWeights cameraImages cameraNames options = Ok this ->
  InverseAttention.patchSize this <> 0
  /\ InverseAttention.gridSize this <> 0
  /\ InverseAttention.nQueries this
     = InverseAttention.gridSize this * InverseAttention.gridSize this
  /\ map camName (InverseAttention._patchInfo this) ≡ₚ cameraNames
  /\ Forall (info_of_arguments inverse_dims (InverseAttention.patchSize this)
               cameraNames cameraImages)
       (InverseAttention._patchInfo this)
  /\ forall nm, nm ∈ cameraNames ->
       exists p, InverseAttention.getCameraInfo this nm = Own p
                 /\ camName p = nm /\ p ∈ InverseAttention._patchInfo this.
Proof.
  unfold InverseAttention.constructor. intros H.
  apply bind_ok in H as (infos & Hinfos & H). inversion H; subst this. clear H.
  cbn [InverseAttention.patchSize InverseAttention.gridSize InverseAttention.nQueries
       InverseAttention._patchInfo].
  apply buildPatchInfo_inverse_walk in Hinfos as [cur Hwalk].
  apply layoutWalk_inverse_related in Hwalk as [Hperm Hargs].
  assert (Hor : forall a b, b <> 0 -> or_else a b <> 0).
  { intros a b Hb. unfold or_else. destruct (Nat.eqb_spec a 0); congruence. }
  split; [apply Hor; discriminate|]. split; [apply Hor; discriminate|].
  split; [reflexivity|]. split; [exact Hperm|]. split; [exact Hargs|].
  intros nm Hnm. unfold InverseAttention.getCameraInfo. cbn.
  destruct (known_names_resolve infos cameraNames nm Hperm Hnm) as (p & Hp & Hn & Hin).
  exists p. split; [apply read_own; exact Hp|]. split; [exact Hn | exact Hin].
Qed.

Lemma inverse_constructor_invariants_witness :
  InverseAttention.constructor Spec.caselessCompare demo_flat [demo_image] ["cam"%string]
    demo_options = Ok demo_inverse
  /\ InverseAttention.getCameraInfo demo_inverse "cam" = Own demo_info.
Proof.
  assert (H : InverseAttention.constructor Spec.caselessCompare demo_flat [demo_image]
                ["cam"%string] demo_options = Ok demo_inverse) by (vm_compute; reflexivity).
  split; [exact H|].
  destruct (inverse_constructor_invariants _ _ _ _ _ _ H) as (_ & _ & _ & _ & _ & Hk).
  destruct (Hk "cam"%string ltac:(apply list_elem_of_singleton; reflexivity))
    as (p & Hp & _ & Hin).
  rewrite Hp. f_equal. cbn in Hin. apply list_elem_of_singleton in Hin. exact Hin.
Defined.

(** X8. A visualizer returned by the forward constructor has a non-zero
    patch size; its layout has one entry per camera name, each recording the
    index of its camera, the natural size of that camera's image (never
    zero) and the patch grid computed from it, and every camera name
    resolves through [getCameraInfo] to an entry with that name. *)
Theorem forward_constructor_invariants lc attnWeights cameraImages cameraNames options this :
  ForwardAttention.constructor lc attnWeights cameraImages cameraNames options = Ok this ->
  ForwardAttention.patchSize this <> 0
  /\ map camName (ForwardAttention._patchInfo this) ≡ₚ cameraNames
  /\ Forall (info_of_arguments forward_dims (ForwardAttention.patchSize this)
               cameraNames cameraImages)
       (ForwardAttention._patchInfo this)
  /\ Forall (fun p => imgH p <> 0 /\ imgW p <> 0) (ForwardAttention._patchInfo this)
  /\ forall nm, nm ∈ cameraNames ->
       exists p, ForwardAttention.getCameraInfo this nm = Own p
                 /\ camName p = nm /\ p ∈ ForwardAttention._patchInfo this.
Proof.
  unfold ForwardAttention.constructor. intros H.
  apply bind_ok in H as (infos & Hinfos & H). inversion H; subst this. clear H.
  cbn [ForwardAttention.patchSize ForwardAttention._patchInfo].
  apply buildPatchInfo_forward_walk in Hinfos as [cur Hwalk].
  apply layoutWalk_forward_related in Hwalk as (Hperm & Hargs & Hnz).
  split.
  { unfold or_else. destruct (Nat.eqb_spec (default 0 (opt_patchSize options)) 0);
      [discriminate | assumption]. }
  split; [exact Hperm|]. split; [exact Hargs|]. split; [exact Hnz|].
  intros nm Hnm. unfold ForwardAttention.getCameraInfo. cbn.
  destruct (known_names_resolve infos cameraNames nm Hperm Hnm) as (p & Hp & Hn & Hin).
  exists p. split; [apply read_own; exact Hp|]. split; [exact Hn | exact Hin].
Qed.

Lemma forward_constructor_invariants_witness :
  ForwardAttention.constructor Spec.caselessCompare demo_flat [demo_image] ["cam"%string]
    demo_options = Ok demo_forward
  /\ Forall (fun p => imgH p <> 0 /\ imgW p <> 0) (ForwardAttention._patchInfo demo_forward).
Proof.
  assert (H : ForwardAttention.constructor Spec.caselessCompare demo_flat [demo_image]
                ["cam"%string] demo_options = Ok demo_forward) by (vm_compute; reflexivity).
  split; [exact H|].
  exact (proj1 (proj2 (proj2 (proj2 (forward_constructor_invariants _ _ _ _ _ _ H))))).
Defined.

(** ** The two visualizers lay the tokens out alike *)

Lemma or_else_nonzero a b : a <> 0 -> or_else a b = a.
Proof. unfold or_else. intros H. destruct (Nat.eqb_spec a 0); [contradiction | reflexivity]. Qed.

Lemma forward_dims_decoded im :
  decoded im ->
  or_else (naturalHeight im) (or_else (height im) 0) = height im
  /\ or_else (naturalWidth im) (or_else (width im) 0) = width im.
Proof.
  intros (Hh & Hw & Hh0 & Hw0). rewrite Hh, Hw.
  split; apply or_else_nonzero; assumption.
Qed.

Lemma layoutStep_agree patchSize hasClsTokens st cam st' :
  (forall im, img cam = Some im -> decoded im) ->
  (forall om, origImg cam = Some om -> decoded om) ->
  InverseAttention.layoutStep patchSize hasClsTokens st cam = Ok st' ->
  ForwardAttention.layoutStep patchSize hasClsTokens st cam = Ok st'.
Proof.
  intros Him Hom. unfold InverseAttention.layoutStep, ForwardAttention.layoutStep.
  destruct st as [infos cur].
  destruct (img cam) as [im|]; [|discriminate].
  destruct (origImg cam) as [om|]; [|discriminate].
  destruct (forward_dims_decoded im (Him im eq_refl)) as [-> ->].
  destruct (forward_dims_decoded om (Hom om eq_refl)) as [-> ->].
  destruct (Him im eq_refl) as (_ & _ & Hh0 & Hw0).
  destruct (Nat.eqb_spec (height im) 0) as [|_]; [contradiction|].
  destruct (Nat.eqb_spec (width im) 0) as [|_]; [contradiction|].
  cbn [orb]. intros H. exact H.
Qed.

Lemma layout_fold_agree patchSize hasClsTokens cams : forall st r,
  Forall (fun cam => (forall im, img cam = Some im -> decoded im)
                     /\ (forall om, origImg cam = Some om -> decoded om)) cams ->
  fold_left (fun st cam => st ← st; InverseAttention.layoutStep patchSize hasClsTokens st cam)
    cams (Ok st) = Ok r ->
  fold_left (fun st cam => st ← st; ForwardAttention.layoutStep patchSize hasClsTokens st cam)
    cams (Ok st) = Ok r.
Proof.
  induction cams as [|cam cams IH]; intros st r Hall H; [exact H|].
  inversion Hall as [|? ? [Him Hom] Hrest]; subst.
  cbn [fold_left mbind result_bind] in *.
  destruct (InverseAttention.layoutStep patchSize hasClsTokens st cam) as [st1|e] eqn:E.
  - rewrite (layoutStep_agree _ _ _ _ _ Him Hom E). apply IH; assumption.
  - exfalso. clear -H. induction cams as [|c cams IHc]; [discriminate | exact (IHc H)].
Qed.

Lemma cameras_decoded lc names images originals :
  Forall decoded images -> Forall decoded originals ->
  Forall (fun cam => (forall im, img cam = Some im -> decoded im)
                     /\ (forall om, origImg cam = Some om -> decoded om))
    (sort (fun a b => lc (name a) (name b)) (cameras_of names images originals)).
Proof.
  intros Hi Ho. rewrite (sort_perm (fun a b => lc (name a) (name b))).
  apply Forall_forall. intros cam Hcam.
  apply list_elem_of_lookup in Hcam as [i Hcam].
  apply cameras_of_lookup in Hcam as (_ & _ & Himg & Horig).
  rewrite Forall_forall in Hi, Ho. split.
  - intros im Him. apply Hi. rewrite Himg in Him. eapply list_elem_of_lookup_2, Him.
  - intros om Hom. apply Ho. rewrite Horig in Hom. eapply list_elem_of_lookup_2, Hom.
Qed.

(** X9. When every image (scaled and original) is decoded, that is its
    natural size is its non-zero size, the forward constructor succeeds on
    the arguments on which the inverse constructor succeeds, and the two
    visualizers have the same token layout and answer [getCameraInfo]
    alike. *)
Theorem forward_layout_agrees_with_inverse lc attnWeights cameraImages cameraNames options iv :
  Forall decoded cameraImages ->
  Forall decoded (default cameraImages (opt_originalImages options)) ->
  InverseAttention.constructor lc attnWeights cameraImages cameraNames options = Ok iv ->
  exists fv,
    ForwardAttention.constructor lc attnWeights cameraImages cameraNames options = Ok fv
    /\ ForwardAttention._patchInfo fv = InverseAttention._patchInfo iv
    /\ forall cam,
         ForwardAttention.getCameraInfo fv cam = InverseAttention.getCameraInfo iv cam.
Proof.
  intros Hi Ho Hc. unfold InverseAttention.constructor in Hc. cbv zeta in Hc.
  apply bind_ok in Hc as (infos & Hinfos & Hc). inversion Hc; subst iv. clear Hc.
  unfold InverseAttention._buildPatchInfo, InverseAttention.layoutWalk in Hinfos.
  destruct (fold_left _ _ (Ok ([], 0))) as [[infos' cur]|e] eqn:Hw; [|discriminate].
  cbn in Hinfos. inversion Hinfos; subst infos'. clear Hinfos.
  apply layout_fold_agree in Hw; [|apply cameras_decoded; assumption].
  unfold ForwardAttention.constructor, ForwardAttention._buildPatchInfo,
    ForwardAttention.layoutWalk. cbv zeta. rewrite Hw. cbn.
  eexists. split; [reflexivity|]. split; reflexivity.
Qed.

Lemma forward_layout_agrees_with_inverse_witness :
  exists fv,
    ForwardAttention.constructor Spec.caselessCompare demo_flat [demo_image] ["cam"%string]
      demo_options = Ok fv
    /\ ForwardAttention._patchInfo fv = InverseAttention._patchInfo demo_inverse
    /\ forall cam,
         ForwardAttention.getCameraInfo fv cam
         = InverseAttention.getCameraInfo demo_inverse cam.
Proof.
  apply (forward_layout_agrees_with_inverse Spec.caselessCompare demo_flat [demo_image]
           ["cam"%string] demo_options demo_inverse).
  - repeat constructor; discriminate.
  - repeat constructor; discriminate.
  - vm_compute. reflexivity.
Defined.

(** ** Patch indices of a camera and of a region *)

Lemma push_loop {A} (f : nat -> A) (n : nat) :
  for_loop n (fun i acc => acc ++ [f i]) [] = map f (seq 0 n).
Proof.
  induction n as [|n IH]; [reflexivity|].
  rewrite for_loop_S, IH, seq_S, map_app. reflexivity.
Qed.

Lemma getAllPatchesForCamera_known this cam info :
  InverseAttention.getCameraInfo this cam = Own info ->
  InverseAttention.getAllPatchesForCamera this cam
  = Ok (map (fun i => startIdx info + i) (seq 0 (nPatches info))).
Proof.
  intros H. unfold InverseAttention.getAllPatchesForCamera. rewrite H, push_loop.
  reflexivity.
Qed.

Lemma elem_of_shifted_seq s n k :
  k ∈ map (fun i => s + i) (seq 0 n) <-> s <= k < s + n.
Proof.
  rewrite list_elem_of_fmap. split.
  - intros (i & -> & Hi). apply elem_of_seq in Hi. lia.
  - intros Hk. exists (k - s). split; [lia|]. apply elem_of_seq. lia.
Qed.

Lemma inverse_info_own this cam info :
  InverseAttention._nameToInfo this !! cam = Some info ->
  InverseAttention.getCameraInfo this cam = Own info.
Proof. intros H. unfold InverseAttention.getCameraInfo. apply read_own. exact H. Qed.



Lemma elem_of_NoDup_positions {A} (l : list A) i j x :
  l !! i = Some x -> l !! j = Some x -> NoDup l -> i = j.
Proof. intros Hi Hj Hnd. eapply NoDup_lookup; eauto. Qed.

(** X11. In a constructed inverse visualizer, the patch indices of two
    cameras with different names are disjoint. *)
Theorem camera_patch_sets_disjoint lc attnWeights cameraImages cameraNames options this
    nm1 nm2 :
  InverseAttention.constructor lc attnWeights cameraImages cameraNames options = Ok this ->
  nm1 ∈ cameraNames -> nm2 ∈ cameraNames -> nm1 <> nm2 ->
  exists l1 l2,
    InverseAttention.getAllPatchesForCamera this nm1 = Ok l1
    /\ InverseAttention.getAllPatchesForCamera this nm2 = Ok l2
    /\ forall k, k ∈ l1 -> k ∉ l2.
Proof.
  intros Hc H1 H2 Hne.
  assert (Hinfos : exists cur,
             InverseAttention.layoutWalk lc cameraNames cameraImages
               (InverseAttention.originalImages this) (InverseAttention.patchSize this)
               (InverseAttention.hasClsTokens this)
             = Ok (InverseAttention._patchInfo this, cur)
             /\ InverseAttention._nameToInfo this
                = nameToInfo (InverseAttention._patchInfo this)).
  { unfold InverseAttention.constructor in Hc.
    apply bind_ok in Hc as (infos & Hinfos & Hc). inversion Hc; subst this. cbn.
    apply buildPatchInfo_inverse_walk in Hinfos as [cur Hw]. eauto. }
  destruct Hinfos as (cur & Hwalk & Htable).
  pose proof (layoutWalk_spec _ _ _ _ _ _ _ _ (or_introl Hwalk)) as (Hcont & _ & _).
  apply layoutWalk_inverse_related in Hwalk as [Hperm _].
  destruct (known_names_resolve _ _ nm1 Hperm H1) as (p1 & Hp1 & Hn1 & Hin1).
  destruct (known_names_resolve _ _ nm2 Hperm H2) as (p2 & Hp2 & Hn2 & Hin2).
  rewrite <- Htable in Hp1, Hp2.
  exists (map (fun i => startIdx p1 + i) (seq 0 (nPatches p1))),
         (map (fun i => startIdx p2 + i) (seq 0 (nPatches p2))).
  split; [apply getAllPatchesForCamera_known, inverse_info_own; exact Hp1|].
  split; [apply getAllPatchesForCamera_known, inverse_info_own; exact Hp2|].
  intros k Hk1 Hk2.
  apply elem_of_shifted_seq in Hk1. apply elem_of_shifted_seq in Hk2.
  apply list_elem_of_lookup in Hin1 as [i Hi].
  apply list_elem_of_lookup in Hin2 as [j Hj].
  destruct (Nat.lt_trichotomy i j) as [Hlt|[Heq|Hgt]].
  - pose proof (contiguous_disjoint _ _ _ _ _ _ _ Hcont Hlt Hi Hj). lia.
  - subst j. rewrite Hi in Hj. inversion Hj; subst p2. congruence.
  - pose proof (contiguous_disjoint _ _ _ _ _ _ _ Hcont Hgt Hj Hi). lia.
Qed.

Lemma camera_patch_sets_disjoint_witness :
  let im := mkImage 28 28 28 28 in
  let options := mkVisualizerOptions (Some 1) None None None (Some (mkShape 1 1 1 10)) in
  exists this l1 l2,
    InverseAttention.constructor Spec.caselessCompare (replicate 10 Js.zero) [im; im]
      ["left"; "front"]%string options = Ok this
    /\ InverseAttention.getAllPatchesForCamera this "left" = Ok l1
    /\ InverseAttention.getAllPatchesForCamera this "front" = Ok l2
    /\ l1 = [6; 7; 8; 9] /\ l2 = [1; 2; 3; 4]
    /\ forall k, k ∈ l1 -> k ∉ l2.
Proof.
  intros im options. eexists. eexists. eexists.
  split; [vm_compute; reflexivity|].
  split; [vm_compute; reflexivity|].
  split; [vm_compute; reflexivity|].
  split; [reflexivity|]. split; [reflexivity|].
  destruct (camera_patch_sets_disjoint Spec.caselessCompare (replicate 10 Js.zero) [im; im]
              ["left"; "front"]%string options _ "left"%string "front"%string eq_refl)
    as (l1 & l2 & Hl1 & Hl2 & Hd).
  - apply elem_of_cons. left. reflexivity.
  - apply elem_of_cons. right. apply elem_of_cons. left. reflexivity.
  - discriminate.
  - vm_compute in Hl1. vm_compute in Hl2. inversion Hl1; inversion Hl2; subst. exact Hd.
Defined.

Lemma push_nested {A B C} (f : A -> B -> C) (ys : list B) (xs : list A) (init : list C) :
  fold_left (fun acc x => fold_left (fun acc y => acc ++ [f x y]) ys acc) xs init
  = init ++ flat_map (fun x => map (f x) ys) xs.
Proof.
  assert (Hin : forall (g : B -> C) l acc,
             fold_left (fun acc y => acc ++ [g y]) l acc = acc ++ map g l).
  { intros g l. induction l as [|y l IH]; intros acc; cbn.
    - rewrite app_nil_r. reflexivity.
    - rewrite IH, <- app_assoc. reflexivity. }
  revert init. induction xs as [|x xs IH]; intros init; cbn.
  - rewrite app_nil_r. reflexivity.
  - rewrite Hin, IH, <- app_assoc. reflexivity.
Qed.

Lemma loop_range_elem lo hi z :
  z ∈ Js.loop_range lo hi ->
  exists a b, lo = Js.Int a /\ hi = Js.Int b /\ (a <= z <= b)%Z.
Proof.
  destruct lo as [a| | |], hi as [b| | |]; cbn; try (intros H; inversion H; fail).
  intros H. apply list_elem_of_fmap in H as (i & -> & Hi). apply elem_of_seq in Hi.
  exists a, b. repeat split; lia.
Qed.

Lemma loop_range_sorted lo hi : StronglySorted Z.lt (Js.loop_range lo hi).
Proof.
  destruct lo as [a| | |], hi as [b| | |]; cbn; try constructor.
  generalize (Z.to_nat (b - a + 1)) as n. intros n.
  assert (H : forall s, StronglySorted Z.lt (map (fun i => (a + Z.of_nat i)%Z) (seq s n))).
  { induction n as [|n IH]; intros s; cbn; constructor; [apply IH|].
    apply Forall_forall. intros z Hz.
    apply list_elem_of_fmap in Hz as (i & -> & Hi). apply elem_of_seq in Hi. lia. }
  apply H.
Qed.

Lemma max_int_lower a v z : Js.Math_max_int a v = Js.Int z -> (a <= z)%Z.
Proof. destruct v; cbn; intros H; inversion H; lia. Qed.

Lemma min_int_upper a v z : Js.Math_min_int a v = Js.Int z -> (z <= a)%Z.
Proof. destruct v; cbn; intros H; inversion H; lia. Qed.

Lemma StronglySorted_app_lt (l1 l2 : list Z) :
  StronglySorted Z.lt l1 -> StronglySorted Z.lt l2 ->
  (forall x y, x ∈ l1 -> y ∈ l2 -> (x < y)%Z) ->
  StronglySorted Z.lt (l1 ++ l2).
Proof.
  induction l1 as [|x l1 IH]; intros H1 H2 H12; cbn; [exact H2|].
  inversion H1 as [|? ? Hs Hall]; subst. constructor.
  - apply IH; [exact Hs | exact H2 |].
    intros a b Ha Hb. apply H12; [apply elem_of_cons; right; exact Ha | exact Hb].
  - apply Forall_app. split; [exact Hall|].
    apply Forall_forall. intros y Hy.
    apply H12; [apply elem_of_cons; left; reflexivity | exact Hy].
Qed.

Lemma row_major_sorted (s W : Z) (rows cols : list Z) :
  StronglySorted Z.lt rows -> StronglySorted Z.lt cols ->
  (forall px, px ∈ cols -> 0 <= px < W)%Z ->
  StronglySorted Z.lt
    (flat_map (fun py => map (fun px => (s + (py * W + px))%Z) cols) rows).
Proof.
  intros Hrows Hcols Hw.
  induction Hrows as [|py rows Hs IH Hall]; cbn; [constructor|].
  apply StronglySorted_app_lt; [|exact IH|].
  - clear -Hcols. induction Hcols as [|px cols Hs IH Hall]; cbn; constructor; [exact IH|].
    apply Forall_forall. intros z Hz.
    apply list_elem_of_fmap in Hz as (px' & -> & Hpx').
    rewrite Forall_forall in Hall. apply Hall in Hpx'. lia.
  - intros a b Ha Hb.
    apply list_elem_of_fmap in Ha as (px & -> & Hpx).
    apply list_elem_of_In, in_flat_map in Hb as (py' & Hpy' & Hb).
    apply in_map_iff in Hb as (px' & <- & Hpx').
    rewrite Forall_forall in Hall. apply list_elem_of_In, Hall in Hpy'.
    apply Hw in Hpx. apply list_elem_of_In, Hw in Hpx'. nia.
Qed.

Lemma getPatchIndicesForRegion_spec this camName xRange yRange info :
  InverseAttention.getCameraInfo this camName = Own info ->
  exists indices,
    InverseAttention.getPatchIndicesForRegion this camName xRange yRange = Ok indices
    /\ StronglySorted Z.lt indices
    /\ forall g, g ∈ indices ->
         (Z.of_nat (startIdx info) <= g
          < Z.of_nat (startIdx info) + Z.of_nat (patchH info) * Z.of_nat (patchW info))%Z.
Proof.
  intros Hinfo. unfold InverseAttention.getPatchIndicesForRegion. rewrite Hinfo.
  cbv zeta. eexists. split; [reflexivity|].
  rewrite (push_nested (fun py px =>
              (Z.of_nat (startIdx info) + (py * Z.of_nat (patchW info) + px))%Z)).
  cbn [app].
  match goal with
  | |- context [flat_map _ (Js.loop_range ?ylo ?yhi)] =>
      set (yLo := ylo); set (yHi := yhi)
  end.
  match goal with
  | |- context [map _ (Js.loop_range ?xlo ?xhi)] =>
      set (xLo := xlo); set (xHi := xhi)
  end.
  assert (Hx : forall px, px ∈ Js.loop_range xLo xHi -> (0 <= px < Z.of_nat (patchW info))%Z).
  { intros px Hpx. apply loop_range_elem in Hpx as (a & b & Ha & Hb & Hab).
    apply max_int_lower in Ha. apply min_int_upper in Hb. lia. }
  assert (Hy : forall py, py ∈ Js.loop_range yLo yHi -> (0 <= py < Z.of_nat (patchH info))%Z).
  { intros py Hpy. apply loop_range_elem in Hpy as (a & b & Ha & Hb & Hab).
    apply max_int_lower in Ha. apply min_int_upper in Hb. lia. }
  split.
  - apply row_major_sorted; [apply loop_range_sorted | apply loop_range_sorted | exact Hx].
  - intros g Hg.
    apply list_elem_of_In, in_flat_map in Hg as (py & Hpy & Hg).
    apply in_map_iff in Hg as (px & <- & Hpx).
    apply list_elem_of_In, Hy in Hpy. apply list_elem_of_In, Hx in Hpx. nia.
Qed.

(** X12. For a known camera and any pixel ranges (the default ones
    included), [getPatchIndicesForRegion] returns a strictly increasing list
    of indices, all within [startIdx, startIdx + patchH*patchW). *)
Theorem region_indices_within_camera this camName xRange yRange info :
  InverseAttention.getCameraInfo this camName = Own info ->
  exists indices,
    InverseAttention.getPatchIndicesForRegion this camName xRange yRange = Ok indices
    /\ StronglySorted Z.lt indices
    /\ forall g, g ∈ indices ->
         (Z.of_nat (startIdx info) <= g
          < Z.of_nat (startIdx info) + Z.of_nat (patchH info) * Z.of_nat (patchW info))%Z.
Proof. exact (getPatchIndicesForRegion_spec this camName xRange yRange info). Qed.


Lemma region_indices_within_camera_witness :
  exists info indices,
    InverseAttention.getCameraInfo demo_wide "cam" = Own info
    /\ (startIdx info, patchH info, patchW info) = (1, 2, 3)
    /\ InverseAttention.getPatchIndicesForRegion demo_wide "cam"
         (Some (Js.of_Z 14, Js.of_Z 41)) None = Ok indices
    /\ indices = [2; 3; 5; 6]%Z
    /\ StronglySorted Z.lt indices
    /\ forall g, g ∈ indices ->
         (Z.of_nat (startIdx info) <= g
          < Z.of_nat (startIdx info) + Z.of_nat (patchH info) * Z.of_nat (patchW info))%Z.
Proof.
  eexists. eexists.
  split; [vm_compute; reflexivity|].
  split; [reflexivity|].
  split; [vm_compute; reflexivity|].
  split; [reflexivity|].
  destruct (region_indices_within_camera demo_wide "cam"%string
              (Some (Js.of_Z 14, Js.of_Z 41)) None _ eq_refl) as (l & Hl & Hs & Hb).
  vm_compute in Hl. inversion Hl; subst l. split; [exact Hs | exact Hb].
Defined.

(** X13. In a constructed inverse visualizer, every index that
    [getPatchIndicesForRegion] returns for a camera of the scene, whatever
    the pixel ranges, is one of the indices that [getAllPatchesForCamera]
    returns for that camera. *)
Theorem region_within_camera_patches lc attnWeights cameraImages cameraNames options this
    cam xRange yRange :
  InverseAttention.constructor lc attnWeights cameraImages cameraNames options = Ok this ->
  cam ∈ cameraNames ->
  exists region patches,
    InverseAttention.getPatchIndicesForRegion this cam xRange yRange = Ok region
    /\ InverseAttention.getAllPatchesForCamera this cam = Ok patches
    /\ forall g, g ∈ region -> exists k, k ∈ patches /\ g = Z.of_nat k.
Proof.
  intros Hc Hcam.
  assert (Hinfos : exists infos,
             map camName infos ≡ₚ cameraNames
             /\ Forall (info_of_arguments inverse_dims (InverseAttention.patchSize this)
                          cameraNames cameraImages) infos
             /\ InverseAttention._nameToInfo this = nameToInfo infos).
  { unfold InverseAttention.constructor in Hc.
    apply bind_ok in Hc as (infos & Hinfos & Hc). inversion Hc; subst this. cbn.
    exists infos. apply buildPatchInfo_inverse_walk in Hinfos as [cur Hw].
    apply layoutWalk_inverse_related in Hw as [Hperm Hall].
    split; [exact Hperm|]. split; [exact Hall | reflexivity]. }
  destruct Hinfos as (infos & Hperm & Hall & Htable).
  destruct (known_names_resolve _ _ cam Hperm Hcam) as (info & Hinfo & _ & Hin).
  rewrite <- Htable in Hinfo. apply inverse_info_own in Hinfo.
  rewrite Forall_forall in Hall. destruct (Hall info Hin) as (_ & _ & _ & _ & Hn).
  destruct (getPatchIndicesForRegion_spec this cam xRange yRange info Hinfo)
    as (region & Hregion & _ & Hbound).
  exists region, (map (fun i => startIdx info + i) (seq 0 (nPatches info))).
  split; [exact Hregion|].
  split; [apply getAllPatchesForCamera_known; exact Hinfo|].
  intros g Hg. apply Hbound in Hg. exists (Z.to_nat g). split; [|lia].
  apply elem_of_shifted_seq. rewrite Hn. nia.
Qed.

Lemma region_within_camera_patches_witness :
  exists region patches,
    InverseAttention.getPatchIndicesForRegion demo_wide "cam"
      (Some (Js.of_Z 14, Js.of_Z 41)) None = Ok region
    /\ InverseAttention.getAllPatchesForCamera demo_wide "cam" = Ok patches
    /\ forall g, g ∈ region -> exists k, k ∈ patches /\ g = Z.of_nat k.
Proof.
  apply (region_within_camera_patches Spec.caselessCompare (replicate 7 Js.zero)
           [mkImage 28 42 28 42] ["cam"%string]
           (mkVisualizerOptions (Some 1) None None None (Some (mkShape 1 1 1 7)))).
  - vm_compute. reflexivity.
  - apply elem_of_cons. left. reflexivity.
Defined.

(** ** Outcome of the inverse query *)

Lemma patchAttn_outcome this patchIndices options :
  match InverseAttention.patchAttn this patchIndices options with
  | Ok rows => heads_selected options = true
               /\ length rows = InverseAttention.nQueries this
  | Err e => e = HeadNotSpecified /\ heads_selected options = false
  end.
Proof.
  unfold InverseAttention.patchAttn, heads_selected. cbv zeta.
  destruct (default true (opt_meanHeads options)); cbn [orb].
  - split; [reflexivity|]. rewrite length_map, length_seq. reflexivity.
  - destruct (opt_headIdx options) as [h|]; cbn.
    + split; [reflexivity|]. rewrite length_map, length_seq. reflexivity.
    + split; reflexivity.
Qed.

Lemma aggregation_cases a :
  (String.eqb a "sum" = true /\ a = "sum"%string)
  \/ (String.eqb a "sum" = false /\ String.eqb a "max" = true /\ a = "max"%string)
  \/ (String.eqb a "sum" = false /\ String.eqb a "max" = false
      /\ String.eqb a "mean" = true /\ a = "mean"%string)
  \/ (String.eqb a "sum" = false /\ String.eqb a "max" = false
      /\ String.eqb a "mean" = false /\ ~ known_aggregation a).
Proof.
  destruct (String.eqb_spec a "sum") as [->|H1]; [left; split; reflexivity|].
  destruct (String.eqb_spec a "max") as [->|H2];
    [right; left; repeat split; reflexivity|].
  destruct (String.eqb_spec a "mean") as [->|H3];
    [right; right; left; repeat split; reflexivity|].
  right; right; right. repeat split. intros [H|[H|H]]; contradiction.
Qed.

Lemma bevMap_shape (gs : nat) (bevAttn : list Js.number) :
  length bevAttn = gs * gs ->
  let bevMap := map (fun y => map (fun x => bevAttn !! (y * gs + x)) (seq 0 gs)) (seq 0 gs) in
  length bevMap = gs
  /\ Forall (fun row => length row = gs /\ Forall is_Some row) bevMap.
Proof.
  intros Hlen bevMap. subst bevMap. split; [rewrite length_map, length_seq; reflexivity|].
  apply Forall_forall. intros row Hrow.
  apply list_elem_of_fmap in Hrow as (y & -> & Hy). apply elem_of_seq in Hy.
  split; [rewrite length_map, length_seq; reflexivity|].
  apply Forall_forall. intros c Hc.
  apply list_elem_of_fmap in Hc as (x & -> & Hx). apply elem_of_seq in Hx.
  apply lookup_lt_is_Some. nia.
Qed.

Lemma patchAttn_rows this patchIndices options rows :
  InverseAttention.patchAttn this patchIndices options = Ok rows ->
  Forall (fun qAttn => length qAttn = length patchIndices) rows.
Proof.
  unfold InverseAttention.patchAttn. cbv zeta. intros H.
  assert (Hmap : forall (f : nat -> nat -> option Js.number) Q,
             Forall (fun qAttn => length qAttn = length patchIndices)
               (map (fun q => map (f q) patchIndices) (seq 0 Q))).
  { intros f Q. apply Forall_forall. intros r Hr.
    apply list_elem_of_fmap in Hr as (q & -> & _). apply length_map. }
  destruct (default true (opt_meanHeads options)).
  - inversion H; subst rows. apply (Hmap (fun q kIdx => Some _)).
  - destruct (opt_headIdx options) as [h|]; [|discriminate H].
    inversion H; subst rows. apply (Hmap (fun q kIdx => _)).
Qed.

(** [patchAttn.map(qAttn => Math.max(...qAttn))] on rows of one length:
    the first row already exceeds the limit of the host, or none does. *)
Lemma mapM_spread {A B} limit (f : list A -> B) (n : nat) (rows : list (list A)) :
  Forall (fun qAttn => length qAttn = n) rows ->
  mapM (Js.spread limit f) rows
  = if (limit <? n) && negb (length rows =? 0) then Err HostRangeError
    else Ok (map f rows).
Proof.
  intros Hrows. destruct (Nat.ltb_spec limit n) as [Hlt|Hle]; cbn [andb].
  - destruct Hrows as [|qAttn rows Hq _]; [reflexivity|]. cbn [length Nat.eqb negb].
    apply mapM_err, spread_beyond. lia.
  - apply mapM_ok. eapply Forall_impl; [exact Hrows|].
    intros qAttn Hq. cbv beta in Hq. apply spread_within. lia.
Qed.

Lemma getInverseAttention_outcome limit this patchIndices options :
  Spec.inverse_wf this ->
  let aggregation := default "sum"%string (opt_aggregation options) in
  match InverseAttention.getInverseAttention limit this patchIndices options with
  | Ok bevMap =>
      heads_selected options = true /\ known_aggregation aggregation
      /\ ~ spread_overflow limit this patchIndices aggregation
      /\ length bevMap = InverseAttention.gridSize this
      /\ Forall (fun row => length row = InverseAttention.gridSize this /\ Forall is_Some row)
           bevMap
  | Err e =>
      (e = HeadNotSpecified /\ heads_selected options = false)
      \/ (e = UnknownAggregation aggregation /\ heads_selected options = true
          /\ ~ known_aggregation aggregation)
      \/ (e = HostRangeError /\ heads_selected options = true
          /\ spread_overflow limit this patchIndices aggregation)
  end.
Proof.
  intros Hwf aggregation. unfold InverseAttention.getInverseAttention. cbv zeta.
  fold aggregation.
  pose proof (patchAttn_outcome this patchIndices options) as Hp.
  pose proof (patchAttn_rows this patchIndices options) as Hrows.
  destruct (InverseAttention.patchAttn this patchIndices options) as [rows|e];
    cbn [mbind result_bind].
  2:{ left. exact Hp. }
  specialize (Hrows rows eq_refl).
  destruct Hp as [Hsel Hlen]. unfold Spec.inverse_wf in Hwf. rewrite Hwf in Hlen.
  unfold spread_overflow.
  destruct (aggregation_cases aggregation)
    as [[E1 Ha]|[(E1 & E2 & Ha)|[(E1 & E2 & E3 & Ha)|(E1 & E2 & E3 & Ha)]]];
    rewrite ?E1, ?E2, ?E3; cbn [mbind result_bind].
  - split; [exact Hsel|]. split; [left; exact Ha|].
    split; [rewrite Ha; intros [Hmax _]; discriminate Hmax|].
    apply bevMap_shape. rewrite length_map. exact Hlen.
  - rewrite (mapM_spread limit Js.Math_max _ rows Hrows).
    destruct (Nat.ltb_spec limit (length patchIndices)) as [Hlt|Hle]; cbn [andb].
    + destruct (Nat.eqb_spec (length rows) 0) as [Hz|Hnz]; cbn [negb mbind result_bind].
      * split; [exact Hsel|]. split; [right; left; exact Ha|].
        split; [intros (_ & _ & Hgs); apply Hgs; nia|].
        apply bevMap_shape. rewrite length_map. exact Hlen.
      * right; right. split; [reflexivity|]. split; [exact Hsel|].
        split; [exact Ha|]. split; [exact Hlt|]. intros Hgs. apply Hnz. nia.
    + cbn [mbind result_bind]. split; [exact Hsel|]. split; [right; left; exact Ha|].
      split; [intros (_ & Hlt & _); lia|].
      apply bevMap_shape. rewrite length_map. exact Hlen.
  - split; [exact Hsel|]. split; [right; right; exact Ha|].
    split; [rewrite Ha; intros [Hmax _]; discriminate Hmax|].
    apply bevMap_shape. rewrite length_map. exact Hlen.
  - right; left. split; [reflexivity|]. split; [exact Hsel | exact Ha].
Qed.

(** X14. On a visualizer with gridSize*gridSize queries,
    [getInverseAttention] fails in three cases only: no head selection
    (meanHeads false and no headIdx), reported first; an aggregation other
    than 'sum', 'max' and 'mean'; and, under 'max', a selection of more
    patch indices than the host accepts as arguments of the spread call
    [Math.max(...qAttn)] (a RangeError, as soon as there is one query).
    Otherwise it returns gridSize rows of gridSize defined cells, whatever
    the patch indices. *)
Theorem inverse_attention_outcome limit this patchIndices options :
  Spec.inverse_wf this ->
  let aggregation := default "sum"%string (opt_aggregation options) in
  match InverseAttention.getInverseAttention limit this patchIndices options with
  | Ok bevMap =>
      heads_selected options = true /\ known_aggregation aggregation
      /\ ~ spread_overflow limit this patchIndices aggregation
      /\ length bevMap = InverseAttention.gridSize this
      /\ Forall (fun row => length row = InverseAttention.gridSize this /\ Forall is_Some row)
           bevMap
  | Err e =>
      (e = HeadNotSpecified /\ heads_selected options = false)
      \/ (e = UnknownAggregation aggregation /\ heads_selected options = true
          /\ ~ known_aggregation aggregation)
      \/ (e = HostRangeError /\ heads_selected options = true
          /\ spread_overflow limit this patchIndices aggregation)
  end.
Proof. exact (getInverseAttention_outcome limit this patchIndices options). Qed.

Lemma inverse_attention_outcome_witness :
  Spec.inverse_wf demo_inverse
  /\ (exists bevMap,
        InverseAttention.getInverseAttention demo_limit demo_inverse [0]
          (mkQueryOptions None None (Some "max"%string)) = Ok bevMap
        /\ length bevMap = 1
        /\ Forall (fun row => length row = 1 /\ Forall is_Some row) bevMap)
  /\ InverseAttention.getInverseAttention 2 demo_inverse [0; 1; 0]
       (mkQueryOptions None None (Some "max"%string)) = Err HostRangeError
  /\ spread_overflow 2 demo_inverse [0; 1; 0] "max".
Proof.
  split; [reflexivity|]. split.
  - pose proof (inverse_attention_outcome demo_limit demo_inverse [0]
                  (mkQueryOptions None None (Some "max"%string)) eq_refl) as H.
    cbv zeta in H.
    destruct (InverseAttention.getInverseAttention demo_limit demo_inverse [0]
                (mkQueryOptions None None (Some "max"%string))) as [bevMap|e] eqn:E.
    + exists bevMap. split; [reflexivity|]. destruct H as (_ & _ & _ & Hl & Hr).
      split; [exact Hl | exact Hr].
    + vm_compute in E. discriminate E.
  - split; [vm_compute; reflexivity|].
    split; [reflexivity|]. split; [cbn; lia|]. vm_compute. discriminate.
Defined.

(** ** NaN in the inverse map *)

Lemma add_NaN_l y : Js.add Js.NaN y = Js.NaN.
Proof. reflexivity. Qed.

Lemma add_NaN_r x : Js.add x Js.NaN = Js.NaN.
Proof. destruct x; reflexivity. Qed.

Lemma div_NaN_l y : Js.div Js.NaN y = Js.NaN.
Proof. reflexivity. Qed.

Lemma max2_NaN_l y : Js.max2 Js.NaN y = Js.NaN.
Proof. reflexivity. Qed.

Lemma max2_NaN_r x : Js.max2 x Js.NaN = Js.NaN.
Proof. destruct x; reflexivity. Qed.

(** A fold whose step keeps NaN and turns to NaN on a NaN element ends in
    NaN when the list has such an element. *)
Lemma fold_absorbs {A} (step : Js.number -> A -> Js.number) (bad : A -> Prop) :
  (forall v, step Js.NaN v = Js.NaN) ->
  (forall acc v, bad v -> step acc v = Js.NaN) ->
  forall l init, Exists bad l -> fold_left step l init = Js.NaN.
Proof.
  intros Hkeep Hbad.
  assert (Hnan : forall l, fold_left step l Js.NaN = Js.NaN).
  { induction l as [|v l IH]; cbn; [reflexivity|]. rewrite Hkeep. exact IH. }
  induction l as [|v l IH]; intros init Hex; inversion Hex; subst; cbn.
  - rewrite Hbad by assumption. apply Hnan.
  - apply IH. assumption.
Qed.

Lemma reduce_sum_NaN qAttn :
  Exists (fun v => Js.toNumber v = Js.NaN) qAttn -> InverseAttention.reduce_sum qAttn = Js.NaN.
Proof.
  apply (fold_absorbs (fun sum val => Js.add sum (Js.toNumber val))).
  - intros v. apply add_NaN_l.
  - intros acc v Hv. rewrite Hv. apply add_NaN_r.
Qed.

Lemma Math_max_NaN qAttn :
  Exists (fun v => Js.toNumber v = Js.NaN) qAttn -> Js.Math_max qAttn = Js.NaN.
Proof.
  apply (fold_absorbs (fun acc v => Js.max2 acc (Js.toNumber v))).
  - intros v. apply max2_NaN_l.
  - intros acc v Hv. rewrite Hv. apply max2_NaN_r.
Qed.

Lemma head_sum_NaN this q kIdx h :
  h < InverseAttention.nHeads this ->
  Js.toNumber (InverseAttention._getAttnFlat this 0 h q kIdx) = Js.NaN ->
  for_loop (InverseAttention.nHeads this)
    (fun h sum => Js.add sum (Js.toNumber (InverseAttention._getAttnFlat this 0 h q kIdx)))
    Js.zero = Js.NaN.
Proof.
  intros Hh Hnan. unfold for_loop.
  apply (fold_absorbs (fun acc i =>
           Js.add acc (Js.toNumber (InverseAttention._getAttnFlat this 0 i q kIdx)))
           (fun i => i = h)).
  - intros v. apply add_NaN_l.
  - intros acc v ->. rewrite Hnan. apply add_NaN_r.
  - apply Exists_exists. exists h. split; [|reflexivity]. apply elem_of_seq. lia.
Qed.

Lemma patchAttn_row_NaN this patchIndices options rows q kIdx :
  InverseAttention.patchAttn this patchIndices options = Ok rows ->
  q < InverseAttention.nQueries this ->
  kIdx ∈ patchIndices ->
  reads_NaN this options q kIdx ->
  exists row, rows !! q = Some row
              /\ length row = length patchIndices
              /\ Exists (fun v => Js.toNumber v = Js.NaN) row.
Proof.
  unfold InverseAttention.patchAttn, reads_NaN. cbv zeta.
  intros Hrows Hq Hk (h & Hnan & Hsel).
  destruct (default true (opt_meanHeads options)).
  - inversion Hrows; subst rows. eexists. split.
    + rewrite list_lookup_fmap, lookup_seq_lt by exact Hq. reflexivity.
    + split; [apply length_map|]. apply Exists_exists. eexists. split.
      * apply list_elem_of_fmap. exists kIdx. split; [reflexivity | exact Hk].
      * cbv beta. change (0 + q) with q.
        rewrite (head_sum_NaN this q kIdx h Hsel Hnan). reflexivity.
  - rewrite Hsel in Hrows. inversion Hrows; subst rows. eexists. split.
    + rewrite list_lookup_fmap, lookup_seq_lt by exact Hq. reflexivity.
    + split; [apply length_map|]. apply Exists_exists. eexists. split.
      * apply list_elem_of_fmap. exists kIdx. split; [reflexivity | exact Hk].
      * exact Hnan.
Qed.

(** X15. A selected key whose tensor read is NaN or falls outside the flat
    array (for one of the averaged heads, or for the selected head) does not
    make [getInverseAttention] fail: the cell of the query holds NaN under
    each of the three aggregations. *)
Theorem unreadable_key_gives_NaN limit this patchIndices options bevMap q kIdx :
  Spec.inverse_wf this ->
  InverseAttention.getInverseAttention limit this patchIndices options = Ok bevMap ->
  q < InverseAttention.nQueries this ->
  kIdx ∈ patchIndices ->
  reads_NaN this options q kIdx ->
  bevMap !! (q / InverseAttention.gridSize this)
    ≫= (fun row => row !! (q mod InverseAttention.gridSize this))
  = Some (Some Js.NaN).
Proof.
  intros Hwf Hmap Hq Hk Hbad. unfold InverseAttention.getInverseAttention in Hmap.
  cbv zeta in Hmap.
  apply bind_ok in Hmap as (rows & Hrows & Hmap).
  apply bind_ok in Hmap as (bevAttn & Hagg & Hmap).
  inversion Hmap; subst bevMap. clear Hmap.
  rewrite bevMap_lookup by (rewrite <- Hwf; exact Hq).
  destruct (patchAttn_row_NaN _ _ _ _ _ _ Hrows Hq Hk Hbad) as (row & Hrow & _ & Hex).
  do 2 f_equal.
  destruct (aggregation_cases (default "sum"%string (opt_aggregation options)))
    as [[E1 Ha]|[(E1 & E2 & Ha)|[(E1 & E2 & E3 & Ha)|(E1 & E2 & E3 & Ha)]]];
    rewrite ?E1, ?E2, ?E3 in Hagg;
    try (apply mapM_spread_ok in Hagg; subst bevAttn);
    try (inversion Hagg; subst bevAttn);
    rewrite list_lookup_fmap, Hrow; cbn; f_equal.
  - apply reduce_sum_NaN. exact Hex.
  - apply Math_max_NaN. exact Hex.
  - rewrite (reduce_sum_NaN _ Hex). apply div_NaN_l.
Qed.

Lemma unreadable_key_gives_NaN_witness :
  exists bevMap,
    InverseAttention.getInverseAttention demo_limit demo_inverse [0; 7]
      (mkQueryOptions (Some false) (Some 1) (Some "max"%string)) = Ok bevMap
    /\ bevMap = [[Some Js.NaN]]
    /\ bevMap !! (0 / 1) ≫= (fun row => row !! (0 mod 1)) = Some (Some Js.NaN).
Proof.
  eexists. split; [vm_compute; reflexivity|]. split; [reflexivity|].
  apply (unreadable_key_gives_NaN demo_limit demo_inverse [0; 7]
           (mkQueryOptions (Some false) (Some 1) (Some "max"%string)) _ 0 7).
  - reflexivity.
  - vm_compute. reflexivity.
  - vm_compute. lia.
  - apply elem_of_cons. right. apply elem_of_cons. left. reflexivity.
  - exists 1. split; reflexivity.
Defined.

(** ** The dense mean and the selected columns *)

(** X16. [_meanOverHeads] returns one row of K values per query; with
    head averaging, the per-query attention that [getInverseAttention]
    computes for patch indices below K is the selection of these columns
    from the rows of [_meanOverHeads]. *)
Theorem patchAttn_selects_from_mean this patchIndices options :
  default true (opt_meanHeads options) = true ->
  Forall (fun kIdx => kIdx < keys (InverseAttention.attnWeightsShape this)) patchIndices ->
  length (InverseAttention._meanOverHeads this) = InverseAttention.nQueries this
  /\ Forall (fun row => length row = keys (InverseAttention.attnWeightsShape this))
       (InverseAttention._meanOverHeads this)
  /\ InverseAttention.patchAttn this patchIndices options
     = Ok (map (fun qAttn => map (fun kIdx => qAttn !! kIdx) patchIndices)
             (InverseAttention._meanOverHeads this)).
Proof.
  intros Hmean Hk. unfold InverseAttention._meanOverHeads, InverseAttention.patchAttn.
  cbv zeta. rewrite Hmean. split; [rewrite length_map, length_seq; reflexivity|]. split.
  - apply Forall_forall. intros row Hrow.
    apply list_elem_of_fmap in Hrow as (q & -> & _). rewrite length_map, length_seq.
    reflexivity.
  - f_equal. rewrite map_map. apply map_ext. intros q.
    apply map_ext_in. intros kIdx Hin.
    rewrite Forall_forall in Hk. apply list_elem_of_In, Hk in Hin.
    rewrite list_lookup_fmap, lookup_seq_lt by exact Hin. reflexivity.
Qed.

Lemma patchAttn_selects_from_mean_witness :
  InverseAttention._meanOverHeads demo_inverse
  = [[Js.div (Js.add (Js.add Js.zero (Js.float32_of_bits 1065353216))
                (Js.float32_of_bits 1065353217)) (Js.of_Z 2)]]
  /\ InverseAttention.patchAttn demo_inverse [0; 0] (mkQueryOptions None None None)
     = Ok (map (fun qAttn => map (fun kIdx => qAttn !! kIdx) [0; 0])
             (InverseAttention._meanOverHeads demo_inverse)).
Proof.
  split; [reflexivity|].
  apply (patchAttn_selects_from_mean demo_inverse [0; 0] (mkQueryOptions None None None)).
  - reflexivity.
  - repeat constructor.
Defined.

(** ** One map per camera *)

Lemma perCamera_fold_err limit this options names e :
  fold_left (fun (acc : result (gmap string (list (list (option Js.number))))) camName =>
       r ← acc;
       patches ← InverseAttention.getAllPatchesForCamera this camName;
       bevMap ← InverseAttention.getInverseAttention limit this patches options;
       Ok (<[camName := bevMap]> r)) names (Err e) = Err e.
Proof. induction names as [|c names IH]; [reflexivity | exact IH]. Qed.

(** The walk over the camera names stops at the first camera whose map
    fails and otherwise stores one map per name. *)
Lemma perCamera_fold limit this options names :
  (forall cam, cam ∈ names ->
     exists patches, InverseAttention.getAllPatchesForCamera this cam = Ok patches) ->
  forall acc,
  match
    fold_left (fun (acc : result (gmap string (list (list (option Js.number)))))
                   camName =>
         r ← acc;
         patches ← InverseAttention.getAllPatchesForCamera this camName;
         bevMap ← InverseAttention.getInverseAttention limit this patches options;
         Ok (<[camName := bevMap]> r)) names (Ok acc)
  with
  | Ok maps =>
      (forall cam, cam ∈ names ->
         exists patches bevMap,
           InverseAttention.getAllPatchesForCamera this cam = Ok patches
           /\ InverseAttention.getInverseAttention limit this patches options = Ok bevMap
           /\ maps !! cam = Some bevMap)
      /\ (forall cam, cam ∉ names -> maps !! cam = acc !! cam)
  | Err e =>
      exists cam patches,
        cam ∈ names
        /\ InverseAttention.getAllPatchesForCamera this cam = Ok patches
        /\ InverseAttention.getInverseAttention limit this patches options = Err e
  end.
Proof.
  induction names as [|c names IH]; intros Hall acc.
  - cbn [fold_left]. split; [intros cam Hc; inversion Hc | reflexivity].
  - destruct (Hall c) as (patches & Hp); [apply elem_of_cons; left; reflexivity|].
    cbn [fold_left mbind result_bind]. rewrite Hp. cbn [mbind result_bind].
    destruct (InverseAttention.getInverseAttention limit this patches options)
      as [bevMap|e] eqn:Hb; cbn [mbind result_bind].
    2:{ rewrite perCamera_fold_err. exists c, patches.
        split; [apply elem_of_cons; left; reflexivity|]. split; [exact Hp | exact Hb]. }
    specialize (IH (fun cam Hc => Hall cam (proj2 (elem_of_cons _ _ _) (or_intror Hc)))
                  (<[c := bevMap]> acc)).
    match type of IH with
    | match ?walk with _ => _ end => destruct walk as [maps|e]
    end.
    + destruct IH as [Hin Hout]. split.
      * intros cam Hc. destruct (decide (cam ∈ names)) as [Hn|Hn]; [apply Hin, Hn|].
        apply elem_of_cons in Hc as [-> | Hc]; [|contradiction].
        exists patches, bevMap. split; [exact Hp|]. split; [exact Hb|].
        rewrite (Hout c Hn). apply lookup_insert_eq.
      * intros cam Hc. apply not_elem_of_cons in Hc as [Hne Hc].
        rewrite (Hout cam Hc). apply lookup_insert_ne. congruence.
    + destruct IH as (cam & ps & Hc & Hps & He). exists cam, ps.
      split; [apply elem_of_cons; right; exact Hc|]. split; [exact Hps | exact He].
Qed.

(** X17. On a constructed visualizer, with a head selection and a known
    aggregation, [getInverseAttentionPerCamera] has one failure: under
    'max', a camera with more patches than the host accepts as arguments of
    the spread call [Math.max(...qAttn)] makes it throw a RangeError.
    Otherwise it succeeds; its result maps each camera name to the inverse
    map of all patches of that camera and has no other key. *)
Theorem per_camera_maps limit lc attnWeights cameraImages cameraNames options this qopts :
  InverseAttention.constructor lc attnWeights cameraImages cameraNames options = Ok this ->
  heads_selected qopts = true ->
  known_aggregation (default "sum"%string (opt_aggregation qopts)) ->
  let overflow :=
    exists cam patches,
      cam ∈ cameraNames
      /\ InverseAttention.getAllPatchesForCamera this cam = Ok patches
      /\ spread_overflow limit this patches (default "sum"%string (opt_aggregation qopts)) in
  match InverseAttention.getInverseAttentionPerCamera limit this qopts with
  | Ok result =>
      ~ overflow
      /\ (forall cam, cam ∈ cameraNames ->
            exists patches bevMap,
              InverseAttention.getAllPatchesForCamera this cam = Ok patches
              /\ InverseAttention.getInverseAttention limit this patches qopts = Ok bevMap
              /\ result !! cam = Some bevMap)
      /\ (forall cam, cam ∉ cameraNames -> result !! cam = None)
  | Err e => e = HostRangeError /\ overflow
  end.
Proof.
  intros Hc Hsel Hagg overflow.
  pose proof (inverse_constructor_wf _ _ _ _ _ _ Hc) as Hwf.
  assert (Hnames : InverseAttention.cameraNames this = cameraNames
                   /\ exists infos,
                        map camName infos ≡ₚ cameraNames
                        /\ InverseAttention._nameToInfo this = nameToInfo infos).
  { unfold InverseAttention.constructor in Hc.
    apply bind_ok in Hc as (infos & Hinfos & Hc). inversion Hc; subst this. cbn.
    split; [reflexivity|]. exists infos. split; [|reflexivity].
    apply buildPatchInfo_inverse_walk in Hinfos as [cur Hw].
    apply layoutWalk_inverse_related in Hw as [Hperm _]. exact Hperm. }
  destruct Hnames as (Hn & infos & Hperm & Htable).
  unfold InverseAttention.getInverseAttentionPerCamera. rewrite Hn.
  pose proof (perCamera_fold limit this qopts cameraNames) as Hfold.
  specialize (Hfold
    (fun cam Hcam =>
       match known_names_resolve _ _ cam Hperm Hcam with
       | ex_intro _ p (conj Hp _) =>
           ex_intro _ _
             (getAllPatchesForCamera_known this cam p
                (inverse_info_own this cam p (eq_trans (f_equal (fun m => m !! cam) Htable) Hp)))
       end)
    (∅ : gmap string (list (list (option Js.number))))).
  match type of Hfold with
  | match ?walk with _ => _ end => destruct walk as [result|e]
  end.
  - destruct Hfold as [Hin Hout]. split.
    + intros (cam & patches & Hcam & Hp & Hover).
      destruct (Hin cam Hcam) as (patches' & bevMap & Hp' & Hb & _).
      rewrite Hp in Hp'. inversion Hp'; subst patches'.
      pose proof (getInverseAttention_outcome limit this patches qopts Hwf) as Hout'.
      cbv zeta in Hout'. rewrite Hb in Hout'.
      destruct Hout' as (_ & _ & Hno & _). exact (Hno Hover).
    + split; [exact Hin|]. intros cam Hcam. rewrite (Hout cam Hcam). apply lookup_empty.
  - destruct Hfold as (cam & patches & Hcam & Hp & He).
    pose proof (getInverseAttention_outcome limit this patches qopts Hwf) as Hout'.
    cbv zeta in Hout'. rewrite He in Hout'.
    destruct Hout' as [[_ Hno] | [(_ & _ & Hno) | (-> & _ & Hover)]].
    + rewrite Hsel in Hno. discriminate Hno.
    + contradiction.
    + split; [reflexivity|]. exists cam, patches.
      split; [exact Hcam|]. split; [exact Hp | exact Hover].
Qed.

Lemma per_camera_maps_witness :
  InverseAttention.constructor Spec.caselessCompare (replicate 10 (Js.of_Z 1))
    [mkImage 28 28 28 28; mkImage 28 28 28 28] ["left"; "front"]%string
    (mkVisualizerOptions (Some 1) None None None (Some (mkShape 1 1 1 10))) = Ok demo_pair
  /\ (exists result,
        InverseAttention.getInverseAttentionPerCamera demo_limit demo_pair
          (mkQueryOptions None None (Some "max"%string)) = Ok result
        /\ (forall cam, cam ∈ ["left"; "front"]%string ->
              exists patches bevMap,
                InverseAttention.getAllPatchesForCamera demo_pair cam = Ok patches
                /\ InverseAttention.getInverseAttention demo_limit demo_pair patches
                     (mkQueryOptions None None (Some "max"%string)) = Ok bevMap
                /\ result !! cam = Some bevMap)
        /\ (forall cam, cam ∉ ["left"; "front"]%string -> result !! cam = None))
  /\ InverseAttention.getInverseAttentionPerCamera 3 demo_pair
       (mkQueryOptions None None (Some "max"%string)) = Err HostRangeError
  /\ InverseAttention.getAllPatchesForCamera demo_pair "front" = Ok [1; 2; 3; 4].
Proof.
  split; [vm_compute; reflexivity|]. split.
  - pose proof (per_camera_maps demo_limit Spec.caselessCompare (replicate 10 (Js.of_Z 1))
                  [mkImage 28 28 28 28; mkImage 28 28 28 28] ["left"; "front"]%string
                  (mkVisualizerOptions (Some 1) None None None (Some (mkShape 1 1 1 10)))
                  demo_pair (mkQueryOptions None None (Some "max"%string))) as H.
    cbv zeta in H.
    destruct (InverseAttention.getInverseAttentionPerCamera demo_limit demo_pair
                (mkQueryOptions None None (Some "max"%string))) as [result|e] eqn:E.
    + exists result. split; [reflexivity|].
      destruct H as (_ & Hin & Hout);
        [vm_compute; reflexivity | reflexivity | right; left; reflexivity |].
      split; [exact Hin | exact Hout].
    + vm_compute in E. discriminate E.
  - split; vm_compute; reflexivity.
Defined.

(** ** The order of Numbers *)

Ltac order_cases :=
  repeat match goal with
  | |- context [Z.compare ?a ?b] => destruct (Z.compare_spec a b)
  | |- context [Pos.compare_cont Eq ?a ?b] =>
      change (Pos.compare_cont Eq a b) with (Pos.compare a b);
      destruct (Pos.compare_spec a b)
  | H : context [Z.compare ?a ?b] |- _ => destruct (Z.compare_spec a b)
  | H : context [Pos.compare_cont Eq ?a ?b] |- _ =>
      change (Pos.compare_cont Eq a b) with (Pos.compare a b) in H;
      destruct (Pos.compare_spec a b)
  end.

Lemma compare_refl x : x <> Js.NaN -> Js.compare x x = Some Eq.
Proof.
  destruct x as [[]|[]| |[] m e]; cbv beta iota delta [Js.compare SFcompare];
    intros H; try reflexivity; try (exfalso; apply H; reflexivity);
    rewrite Z.compare_refl;
    change (Pos.compare_cont Eq m m) with (Pos.compare m m);
    rewrite Pos.compare_refl; reflexivity.
Qed.

Lemma compare_antisym x y : Js.compare y x = option_map CompOpp (Js.compare x y).
Proof.
  destruct x as [[]|[]| |[] mx ex], y as [[]|[]| |[] my ey];
    cbv beta iota delta [Js.compare SFcompare option_map]; try reflexivity;
    rewrite (Z.compare_antisym ex ey);
    destruct (Z.compare ex ey); cbn [CompOpp]; try reflexivity;
    change (Pos.compare_cont Eq my mx) with (Pos.compare my mx);
    change (Pos.compare_cont Eq mx my) with (Pos.compare mx my);
    rewrite (Pos.compare_antisym mx my); destruct (Pos.compare mx my); reflexivity.
Qed.

Lemma compare_total x y :
  x <> Js.NaN -> y <> Js.NaN -> exists c, Js.compare x y = Some c.
Proof.
  destruct x as [[]|[]| |[] mx ex], y as [[]|[]| |[] my ey];
    cbv beta iota delta [Js.compare SFcompare]; intros Hx Hy;
    try (exfalso; apply Hx; reflexivity); try (exfalso; apply Hy; reflexivity);
    eexists; reflexivity.
Qed.

Lemma num_le_trans x y z : num_le x y -> num_le y z -> num_le x z.
Proof.
  unfold num_le.
  destruct x as [[]|[]| |[] mx ex], y as [[]|[]| |[] my ey], z as [[]|[]| |[] mz ez];
    cbv beta iota delta [Js.compare SFcompare];
    intros [Hxy|Hxy] [Hyz|Hyz]; try discriminate; auto;
    revert Hxy Hyz; order_cases; intros Hxy Hyz; try discriminate; auto;
    try (exfalso; lia).
Qed.

Lemma num_le_refl x : x <> Js.NaN -> num_le x x.
Proof. intros H. right. apply compare_refl. exact H. Qed.

Lemma gt_true x y : Js.gt x y = true -> x <> Js.NaN /\ num_le y x.
Proof.
  unfold Js.gt, num_le. rewrite (compare_antisym x y).
  destruct (Js.compare x y) as [[]|] eqn:E; try discriminate. intros _. split.
  - intros ->. discriminate E.
  - left. reflexivity.
Qed.

Lemma gt_false x y : Js.gt x y = false -> x <> Js.NaN -> y <> Js.NaN -> num_le x y.
Proof.
  unfold Js.gt, num_le. intros H Hx Hy.
  destruct (compare_total x y Hx Hy) as [c Hc]. rewrite Hc in *.
  destruct c; [right | left | discriminate]; reflexivity.
Qed.

(** One update [if (v > maxVal) maxVal = v]. *)
Lemma max_update v m :
  m <> Js.NaN ->
  let m' := if Js.gt v m then v else m in
  m' <> Js.NaN /\ num_le m m' /\ (v <> Js.NaN -> num_le v m') /\ (m' = m \/ m' = v).
Proof.
  intros Hm. cbv zeta. destruct (Js.gt v m) eqn:E.
  - apply gt_true in E as [Hv Hle].
    split; [exact Hv|]. split; [exact Hle|]. split; [intros _; apply num_le_refl; exact Hv|].
    right. reflexivity.
  - split; [exact Hm|]. split; [apply num_le_refl; exact Hm|].
    split; [intros Hv; apply gt_false; assumption|]. left. reflexivity.
Qed.

Lemma maxOverCamera_spec this q options info : forall m0 m,
  ForwardAttention.maxOverCamera this q options info m0 = Ok m ->
  m0 <> Js.NaN ->
  m <> Js.NaN /\ num_le m0 m
  /\ (forall i, i < nPatches info ->
        forward_value this options q (startIdx info + i) <> Js.NaN ->
        num_le (forward_value this options q (startIdx info + i)) m)
  /\ (m = m0 \/ exists i, i < nPatches info
                          /\ m = forward_value this options q (startIdx info + i)).
Proof.
  unfold ForwardAttention.maxOverCamera. cbv zeta.
  induction (nPatches info) as [|n IH]; intros m0 m Hm Hm0.
  - inversion Hm; subst m. split; [exact Hm0|]. split; [apply num_le_refl; exact Hm0|].
    split; [intros i Hi; lia|]. left. reflexivity.
  - rewrite for_loopM_S in Hm. apply bind_ok in Hm as (m1 & H1 & Hm).
    destruct (IH m0 m1 H1 Hm0) as (Hn1 & Hle1 & Hall1 & Hatt1).
    apply bind_ok in Hm as (v & Hv & Hm). inversion Hm; subst m. clear Hm.
    assert (Ev : v = forward_value this options q (startIdx info + n)).
    { unfold forward_value. destruct (default true (opt_meanHeads options)).
      - inversion Hv. reflexivity.
      - destruct (opt_headIdx options); [inversion Hv; reflexivity | discriminate]. }
    destruct (max_update v m1 Hn1) as (Hn & Hle & Hv' & Hor).
    split; [exact Hn|]. split; [eapply num_le_trans; [exact Hle1 | exact Hle]|].
    split.
    + intros i Hi Hnan. destruct (decide (i = n)) as [->|Hne].
      * rewrite <- Ev in *. apply Hv'. exact Hnan.
      * eapply num_le_trans; [apply Hall1; [lia | exact Hnan] | exact Hle].
    + destruct Hor as [-> | ->].
      * destruct Hatt1 as [-> | (i & Hi & ->)]; [left; reflexivity|].
        right. exists i. split; [lia | reflexivity].
      * right. exists n. split; [lia | exact Ev].
Qed.

Lemma global_fold_err this q options names e :
  fold_left (fun maxVal camName =>
       maxVal ← maxVal;
       match ForwardAttention.getCameraInfo this camName with
       | Missing => Ok maxVal
       | Inherited => Ok maxVal
       | Own info => ForwardAttention.maxOverCamera this q options info maxVal
       end) names (Err e) = Err e.
Proof. induction names as [|c names IH]; [reflexivity | exact IH]. Qed.

Lemma global_fold_spec this q options names : forall m0 m,
  fold_left (fun maxVal camName =>
       maxVal ← maxVal;
       match ForwardAttention.getCameraInfo this camName with
       | Missing => Ok maxVal
       | Inherited => Ok maxVal
       | Own info => ForwardAttention.maxOverCamera this q options info maxVal
       end) names (Ok m0) = Ok m ->
  m0 <> Js.NaN ->
  m <> Js.NaN /\ num_le m0 m
  /\ (forall cam info i, cam ∈ names ->
        ForwardAttention.getCameraInfo this cam = Own info -> i < nPatches info ->
        forward_value this options q (startIdx info + i) <> Js.NaN ->
        num_le (forward_value this options q (startIdx info + i)) m)
  /\ (m = m0 \/ exists cam info i, cam ∈ names
        /\ ForwardAttention.getCameraInfo this cam = Own info /\ i < nPatches info
        /\ m = forward_value this options q (startIdx info + i)).
Proof.
  induction names as [|c names IH]; intros m0 m Hm Hm0.
  - inversion Hm; subst m. split; [exact Hm0|]. split; [apply num_le_refl; exact Hm0|].
    split; [intros cam info i Hc; inversion Hc|]. left. reflexivity.
  - cbn [fold_left mbind result_bind] in Hm.
    destruct (ForwardAttention.getCameraInfo this c) as [info| |] eqn:Hinfo.
    + destruct (ForwardAttention.maxOverCamera this q options info m0) as [m1|e] eqn:H1.
      2:{ rewrite global_fold_err in Hm. discriminate Hm. }
      destruct (maxOverCamera_spec _ _ _ _ _ _ H1 Hm0) as (Hn1 & Hle1 & Hall1 & Hatt1).
      destruct (IH m1 m Hm Hn1) as (Hn & Hle & Hall & Hatt).
      split; [exact Hn|]. split; [eapply num_le_trans; [exact Hle1 | exact Hle]|].
      split.
      * intros cam info' i Hc Hinfo' Hi Hnan.
        apply elem_of_cons in Hc as [-> | Hc].
        -- rewrite Hinfo in Hinfo'. inversion Hinfo'; subst info'.
           eapply num_le_trans; [apply Hall1; [exact Hi | exact Hnan] | exact Hle].
        -- apply (Hall cam info' i Hc Hinfo' Hi Hnan).
      * destruct Hatt as [-> | (cam & info' & i & Hc & Hi' & Hi & ->)].
        -- destruct Hatt1 as [-> | (i & Hi & ->)]; [left; reflexivity|].
           right. exists c, info, i. split; [apply elem_of_cons; left; reflexivity|].
           split; [exact Hinfo|]. split; [exact Hi | reflexivity].
        -- right. exists cam, info', i. split; [apply elem_of_cons; right; exact Hc|].
           split; [exact Hi'|]. split; [exact Hi | reflexivity].
    + destruct (IH m0 m Hm Hm0) as (Hn & Hle & Hall & Hatt).
      split; [exact Hn|]. split; [exact Hle|]. split.
      * intros cam info' i Hc Hinfo' Hi Hnan.
        apply elem_of_cons in Hc as [-> | Hc]; [congruence|].
        apply (Hall cam info' i Hc Hinfo' Hi Hnan).
      * destruct Hatt as [-> | (cam & info' & i & Hc & Hi' & Hi & ->)]; [left; reflexivity|].
        right. exists cam, info', i. split; [apply elem_of_cons; right; exact Hc|].
        split; [exact Hi'|]. split; [exact Hi | reflexivity].
    + destruct (IH m0 m Hm Hm0) as (Hn & Hle & Hall & Hatt).
      split; [exact Hn|]. split; [exact Hle|]. split.
      * intros cam info' i Hc Hinfo' Hi Hnan.
        apply elem_of_cons in Hc as [-> | Hc]; [congruence|].
        apply (Hall cam info' i Hc Hinfo' Hi Hnan).
      * destruct Hatt as [-> | (cam & info' & i & Hc & Hi' & Hi & ->)]; [left; reflexivity|].
        right. exists cam, info', i. split; [apply elem_of_cons; right; exact Hc|].
        split; [exact Hi'|]. split; [exact Hi | reflexivity].
Qed.

Lemma for_loopM_always_err {A} (n : nat) (body : nat -> A -> result A) (init : A) e :
  (forall i acc, body i acc = Err e) ->
  for_loopM n body init = if n =? 0 then Ok init else Err e.
Proof.
  intros Hb. induction n as [|n IH]; [reflexivity|].
  rewrite for_loopM_S, IH. destruct n; cbn; [apply Hb | reflexivity].
Qed.

Lemma store_loop_filled (n : nat) (val : nat -> Js.number) :
  Spec.filled n (fun i => Js.fround (val i)) n
    (for_loop n (fun i acc => Js.store32 acc i (val i)) (Js.Float32Array_new n)).
Proof.
  apply (for_loop_ind (fun m out => Spec.filled n (fun i => Js.fround (val i)) m out)).
  - apply filled_new.
  - intros i acc Hi Hacc. apply filled_store; [exact Hi | reflexivity | exact Hacc].
Qed.

(** The query on a camera whose info is an own property of the table. *)
Lemma getCameraPatchAttentionForQuery_own this q cam options info :
  ForwardAttention.getCameraInfo this cam = Own info ->
  if heads_selected options || (nPatches info =? 0) then
    exists out,
      ForwardAttention.getCameraPatchAttentionForQuery this q cam options = Ok out
      /\ length out = nPatches info
      /\ forall i, i < nPatches info ->
           out !! i = Some (Js.fround (forward_value this options q (startIdx info + i)))
  else
    ForwardAttention.getCameraPatchAttentionForQuery this q cam options
    = Err HeadNotSpecified.
Proof.
  intros Hinfo.
  unfold ForwardAttention.getCameraPatchAttentionForQuery, heads_selected, forward_value.
  rewrite Hinfo. cbv zeta.
  destruct (default true (opt_meanHeads options)); cbn [orb].
  - eexists. split; [apply for_loopM_ok; intros i acc; reflexivity|].
    exact (store_loop_filled (nPatches info)
             (fun i => head_mean (ForwardAttention.attnWeightsFlat this)
                         (ForwardAttention.attnWeightsShape this)
                         (ForwardAttention.nHeads this) q (startIdx info + i))).
  - destruct (opt_headIdx options) as [h|]; cbn [bool_decide orb].
    + rewrite bool_decide_eq_true_2 by (eexists; reflexivity). cbn [orb].
      eexists. split; [apply for_loopM_ok; intros i acc; reflexivity|].
      exact (store_loop_filled (nPatches info)
               (fun i => Js.toNumber
                           (ForwardAttention._getAttnFlat this 0 h q (startIdx info + i)))).
    + rewrite bool_decide_eq_false_2 by (intros [x Hx]; discriminate Hx). cbn [orb].
      rewrite (for_loopM_always_err _ _ _ HeadNotSpecified) by reflexivity.
      destruct (nPatches info =? 0) eqn:E; [|reflexivity].
      apply Nat.eqb_eq in E. rewrite E.
      exists []. split; [reflexivity|]. split; [reflexivity|]. intros i Hi. lia.
Qed.

(** What the query returns at [i] is the binary32 rounding of the value
    read for key startIdx + i. *)
Lemma getCameraPatchAttentionForQuery_value this q cam options info out i v :
  ForwardAttention.getCameraInfo this cam = Own info ->
  ForwardAttention.getCameraPatchAttentionForQuery this q cam options = Ok out ->
  out !! i = Some v ->
  i < nPatches info
  /\ v = Js.fround (forward_value this options q (startIdx info + i)).
Proof.
  intros Hinfo Hout Hv.
  pose proof (getCameraPatchAttentionForQuery_own this q cam options info Hinfo) as H.
  destruct (heads_selected options || (nPatches info =? 0)).
  - destruct H as (out' & Hout' & Hlen & Hval). rewrite Hout in Hout'.
    inversion Hout'; subst out'.
    assert (Hi : i < nPatches info).
    { rewrite <- Hlen. apply lookup_lt_is_Some. exists v. exact Hv. }
    split; [exact Hi|]. rewrite (Hval i Hi) in Hv. inversion Hv. reflexivity.
  - rewrite Hout in H. discriminate H.
Qed.

(** X18. The value returned by [getGlobalMaxPatchAttentionForQuery] is
    never NaN and never below 0. It is taken over the values the method
    reads in double precision, before any rounding to binary32 (the mean of
    the heads, or the element of the selected head): it is at least every
    such value, of every patch of every known camera, that is not NaN, and
    it is 0 or one of them. What [getCameraPatchAttentionForQuery] returns
    for a patch is the binary32 rounding of that value: with one selected
    head on a tensor of binary32 values the rounding changes nothing, and
    the maximum is at least every returned patch attention that is not NaN;
    with head averaging a returned attention can exceed the maximum. *)
Theorem global_max_dominates this q options m :
  ForwardAttention.getGlobalMaxPatchAttentionForQuery this q options = Ok m ->
  m <> Js.NaN /\ num_le Js.zero m
  /\ (forall cam info i, cam ∈ ForwardAttention.cameraNames this ->
        ForwardAttention.getCameraInfo this cam = Own info -> i < nPatches info ->
        forward_value this options q (startIdx info + i) <> Js.NaN ->
        num_le (forward_value this options q (startIdx info + i)) m)
  /\ (m = Js.zero \/ exists cam info i, cam ∈ ForwardAttention.cameraNames this
        /\ ForwardAttention.getCameraInfo this cam = Own info /\ i < nPatches info
        /\ m = forward_value this options q (startIdx info + i))
  /\ (forall cam info out i v, cam ∈ ForwardAttention.cameraNames this ->
        ForwardAttention.getCameraInfo this cam = Own info ->
        ForwardAttention.getCameraPatchAttentionForQuery this q cam options = Ok out ->
        out !! i = Some v ->
        v = Js.fround (forward_value this options q (startIdx info + i))
        /\ (default true (opt_meanHeads options) = false ->
            Forall (fun x => Js.fround x = x) (ForwardAttention.attnWeightsFlat this) ->
            v <> Js.NaN -> num_le v m)).
Proof.
  intros H.
  destruct (global_fold_spec this q options _ Js.zero m H) as (Hn & Hle & Hall & Hatt);
    [discriminate|].
  split; [exact Hn|]. split; [exact Hle|]. split; [exact Hall|]. split; [exact Hatt|].
  intros cam info out i v Hcam Hinfo Hout Hv.
  destruct (getCameraPatchAttentionForQuery_value _ _ _ _ _ _ _ _ Hinfo Hout Hv) as [Hi ->].
  split; [reflexivity|]. intros Hsingle Hf32 Hnan.
  specialize (Hall cam info i Hcam Hinfo Hi). revert Hall Hnan.
  unfold forward_value. rewrite Hsingle.
  destruct (opt_headIdx options) as [h|]; [|intros _ Hnan; exfalso; apply Hnan; reflexivity].
  unfold ForwardAttention._getAttnFlat.
  destruct (ForwardAttention.attnWeightsFlat this !! _) as [x|] eqn:Ex;
    [|intros _ Hnan; exfalso; apply Hnan; reflexivity].
  unfold Js.toNumber. cbn [default]. change (id x) with x. rewrite Forall_forall in Hf32.
  rewrite (Hf32 x) by (eapply list_elem_of_lookup_2; exact Ex).
  intros Hall Hnan. apply Hall. exact Hnan.
Qed.

Lemma global_max_dominates_witness :
  (exists m,
     ForwardAttention.getGlobalMaxPatchAttentionForQuery demo_forward 0
       (mkQueryOptions (Some false) (Some 1) None) = Ok m
     /\ m = Js.float32_of_bits 1065353217
     /\ m <> Js.NaN /\ num_le Js.zero m
     /\ ForwardAttention.getCameraPatchAttentionForQuery demo_forward 0 "cam"
          (mkQueryOptions (Some false) (Some 1) None) = Ok [Js.float32_of_bits 1065353217]
     /\ num_le (Js.float32_of_bits 1065353217) m)
  /\ (exists m v,
        ForwardAttention.getGlobalMaxPatchAttentionForQuery demo_rounding 0
          (mkQueryOptions None None None) = Ok m
        /\ ForwardAttention.getCameraPatchAttentionForQuery demo_rounding 0 "cam"
             (mkQueryOptions None None None) = Ok [v]
        /\ v = Js.fround m
        /\ Js.compare v m = Some Gt).
Proof.
  split.
  - eexists. split; [vm_compute; reflexivity|]. split; [vm_compute; reflexivity|].
    destruct (global_max_dominates demo_forward 0 (mkQueryOptions (Some false) (Some 1) None)
                (S754_finite false 4503600164241408 (-52)))
      as (Hn & Hle & _ & _ & Hret).
    + vm_compute. reflexivity.
    + split; [exact Hn|]. split; [exact Hle|]. split; [vm_compute; reflexivity|].
      apply (Hret "cam"%string demo_info [Js.float32_of_bits 1065353217] 0).
      * apply elem_of_cons. left. reflexivity.
      * vm_compute. reflexivity.
      * vm_compute. reflexivity.
      * vm_compute. reflexivity.
      * reflexivity.
      * repeat constructor.
      * discriminate.
  - eexists. eexists. split; [vm_compute; reflexivity|].
    split; [vm_compute; reflexivity|]. split; vm_compute; reflexivity.
Defined.

(** ** Outcome of the forward query *)



Import CameraOrder.


(** * Further properties of the camera order *)

(** ** The UI order of the cameras *)

Lemma findIndex_from_spec {A} (p : A -> nat -> bool) (arr : list A) : forall i idx,
  findIndex_from p i arr = Some idx ->
  i <= idx < i + length arr /\ exists n, arr !! (idx - i) = Some n /\ p n idx = true.
Proof.
  induction arr as [|n arr IH]; intros i idx H; [discriminate|].
  cbn [findIndex_from] in H. destruct (p n i) eqn:E.
  - inversion H; subst idx. cbn [length]. split; [lia|].
    exists n. rewrite Nat.sub_diag. split; [reflexivity | exact E].
  - apply IH in H as (Hi & m & Hm & Hp). cbn [length]. split; [lia|].
    exists m. split; [|exact Hp].
    replace (idx - i) with (S (idx - S i)) by lia. exact Hm.
Qed.

Lemma push_unused_fold (used : list bool) (l : list string) : forall k acc,
  fold_left (fun ordered '(i, name) =>
       if negb (default false (used !! i)) then ordered ++ [name] else ordered)
    (imap (fun i name => (k + i, name)) l) acc
  = acc ++ unused_from k l used.
Proof.
  induction l as [|name l IH]; intros k acc.
  - cbn. rewrite app_nil_r. reflexivity.
  - rewrite imap_cons. cbn [fold_left unused_from]. rewrite Nat.add_0_r.
    rewrite (imap_ext _ (fun i name => (S k + i, name))).
    2:{ intros i x _. cbn. f_equal. lia. }
    rewrite IH. destruct (negb (default false (used !! k))).
    + rewrite <- app_assoc. reflexivity.
    + reflexivity.
Qed.

Lemma unused_from_fresh l : forall k n, unused_from k l (replicate n false) = l.
Proof.
  induction l as [|name l IH]; intros k n; [reflexivity|].
  cbn [unused_from].
  assert (E : default false (replicate n false !! k) = false).
  { destruct (replicate n false !! k) as [b|] eqn:Hb; [|reflexivity].
    apply lookup_replicate in Hb as [-> _]. reflexivity. }
  rewrite E. cbn [negb]. rewrite IH. reflexivity.
Qed.

Lemma unused_from_insert_before l : forall k idx used,
  idx < k -> unused_from k l (<[idx := true]> used) = unused_from k l used.
Proof.
  induction l as [|name l IH]; intros k idx used Hlt; [reflexivity|].
  cbn [unused_from]. rewrite list_lookup_insert_ne by lia.
  rewrite IH by lia. reflexivity.
Qed.

Lemma unused_from_insert l : forall k idx used x,
  k <= idx -> l !! (idx - k) = Some x -> used !! idx = Some false ->
  unused_from k l (<[idx := true]> used) ++ [x] ≡ₚ unused_from k l used.
Proof.
  induction l as [|name l IH]; intros k idx used x Hk Hx Hu; [discriminate|].
  cbn [unused_from]. destruct (decide (idx = k)) as [->|Hne].
  - rewrite Nat.sub_diag in Hx. inversion Hx; subst name.
    rewrite list_lookup_insert_eq by (apply lookup_lt_is_Some; eexists; exact Hu).
    rewrite Hu. cbn [default from_option negb id].
    rewrite unused_from_insert_before by lia.
    rewrite Permutation_app_comm. reflexivity.
  - rewrite list_lookup_insert_ne by congruence.
    replace (idx - k) with (S (idx - S k)) in Hx by lia.
    specialize (IH (S k) idx used x ltac:(lia) Hx Hu).
    destruct (negb (default false (used !! k))).
    + cbn [app]. rewrite IH. reflexivity.
    + exact IH.
Qed.

Lemma orderFor_permutation (l : list string) (canon : list jskey) (desired : list string) :
  length canon = length l -> ordered (orderFor l canon desired) ≡ₚ l.
Proof.
  intros Hlen. unfold orderFor.
  set (step := fun '(ordered, used, matchCount) want => _).
  assert (Hinv : forall ds st,
             (length st.1.2 = length l /\ st.1.1 ++ unused_from 0 l st.1.2 ≡ₚ l) ->
             let st' := fold_left step ds st in
             length st'.1.2 = length l /\ st'.1.1 ++ unused_from 0 l st'.1.2 ≡ₚ l).
  { induction ds as [|want ds IH]; intros st Hst; [exact Hst|].
    cbn [fold_left]. apply IH. destruct st as [[ord used] mc]. cbn [fst snd] in *.
    destruct Hst as [Hl Hp]. unfold step.
    destruct (findIndex _ canon) as [idx|] eqn:E; cbn [fst snd]; [|split; assumption].
    apply findIndex_from_spec in E as (Hidx & n & _ & Hpn).
    apply andb_prop in Hpn as [Hused _].
    assert (Hlt : idx < length l) by lia.
    destruct (lookup_lt_is_Some_2 l idx Hlt) as [x Hx].
    destruct (lookup_lt_is_Some_2 used idx ltac:(lia)) as [b Hb].
    rewrite Hb in Hused. cbn in Hused. destruct b; [discriminate|].
    rewrite Hx. cbn [default from_option id]. split.
    - rewrite length_insert. exact Hl.
    - rewrite <- app_assoc.
      rewrite (Permutation_app_comm [x]).
      rewrite (unused_from_insert l 0 idx used x ltac:(lia)); [exact Hp | | exact Hb].
      rewrite Nat.sub_0_r. exact Hx. }
  specialize (Hinv desired ([], replicate (length l) false, 0)).
  cbn [fst snd] in Hinv.
  destruct (fold_left step desired ([], replicate (length l) false, 0))
    as [[ord used] mc] eqn:E.
  cbn [fst snd ordered] in *.
  destruct Hinv as [_ Hp].
  { split; [apply length_replicate|]. rewrite unused_from_fresh. reflexivity. }
  rewrite (imap_ext pair (fun i name => (0 + i, name))) by reflexivity.
  rewrite push_unused_fold. exact Hp.
Qed.

Lemma datasets_extend (init : list string) (keys : list string) :
  exists more,
    fold_left (fun datasets ds =>
         if bool_decide (ds ∈ datasets) then datasets else datasets ++ [ds]) keys init
    = init ++ more
    /\ Forall (fun ds => ds ∈ keys) more.
Proof.
  revert init. induction keys as [|k keys IH]; intros init.
  - exists []. split; [cbn; rewrite app_nil_r; reflexivity | constructor].
  - cbn [fold_left]. destruct (bool_decide (k ∈ init)).
    + destruct (IH init) as (more & -> & Hall). exists more. split; [reflexivity|].
      eapply Forall_impl; [exact Hall|]. intros x Hx. apply elem_of_cons. right. exact Hx.
    + destruct (IH (init ++ [k])) as (more & -> & Hall). exists (k :: more).
      split; [rewrite <- app_assoc; reflexivity|]. constructor.
      * apply elem_of_cons. left. reflexivity.
      * eapply Forall_impl; [exact Hall|]. intros x Hx. apply elem_of_cons. right. exact Hx.
Qed.

Lemma UI_ORDER_keys_own ds :
  ds ∈ map fst UI_ORDER -> exists desired, get UI_ORDER ds = Own desired.
Proof.
  intros H. cbn in H.
  repeat (apply elem_of_cons in H as [-> | H]; [eexists; reflexivity|]).
  inversion H.
Qed.

Lemma best_fold_err (l : list string) (namesCanon : list string) (datasets : list string) e :
  fold_left (fun (best : result (option Candidate)) dataset =>
       best ← best;
       match get UI_ORDER dataset with
       | Missing => Ok best
       | Inherited => Err HostTypeError
       | Own desired =>
           let canon := map (fun name => normalizeForDataset name dataset) namesCanon in
           let candidate := orderFor l canon desired in
           match best with
           | Some b =>
               if matchCount b <? matchCount candidate then Ok (Some candidate)
               else Ok best
           | None => Ok (Some candidate)
           end
       end) datasets (Err e) = Err e.
Proof. induction datasets as [|d datasets IH]; [reflexivity | exact IH]. Qed.

Lemma best_fold_spec (l : list string) (namesCanon : list string) :
  length namesCanon = length l ->
  forall (datasets : list string) (best : option Candidate),
  (forall b, best = Some b -> ordered b ≡ₚ l) ->
  match
    fold_left (fun (best : result (option Candidate)) dataset =>
         best ← best;
         match get UI_ORDER dataset with
         | Missing => Ok best
         | Inherited => Err HostTypeError
         | Own desired =>
             let canon := map (fun name => normalizeForDataset name dataset) namesCanon in
             let candidate := orderFor l canon desired in
             match best with
             | Some b =>
                 if matchCount b <? matchCount candidate then Ok (Some candidate)
                 else Ok best
             | None => Ok (Some candidate)
             end
         end) datasets (Ok best)
  with
  | Ok best' => forall b, best' = Some b -> ordered b ≡ₚ l
  | Err e => e = HostTypeError /\ exists ds, ds ∈ datasets /\ get UI_ORDER ds = Inherited
  end.
Proof.
  intros Hlen. induction datasets as [|d datasets IH]; intros best Hbest; [exact Hbest|].
  cbn [fold_left mbind result_bind].
  destruct (get UI_ORDER d) as [desired| |] eqn:Hd.
  - cbv zeta.
    assert (Hcand : ordered (orderFor l (map (fun name => normalizeForDataset name d)
                                           namesCanon) desired) ≡ₚ l).
    { apply orderFor_permutation. rewrite length_map. exact Hlen. }
    set (candidate := orderFor l _ desired) in *.
    assert (Hnext : exists best1,
               match best with
               | Some b => if matchCount b <? matchCount candidate then Ok (Some candidate)
                           else Ok best
               | None => Ok (Some candidate)
               end = Ok best1 /\ forall b, best1 = Some b -> ordered b ≡ₚ l).
    { destruct best as [b|].
      - destruct (matchCount b <? matchCount candidate).
        + eexists. split; [reflexivity|]. intros b' Hb'. inversion Hb'; subst b'. exact Hcand.
        + eexists. split; [reflexivity|]. exact Hbest.
      - eexists. split; [reflexivity|]. intros b' Hb'. inversion Hb'; subst b'. exact Hcand. }
    destruct Hnext as (best1 & -> & Hbest1).
    specialize (IH best1 Hbest1).
    destruct (fold_left _ datasets (Ok best1)) as [best'|e]; [exact IH|].
    destruct IH as (He & ds & Hds & Hin). split; [exact He|].
    exists ds. split; [apply elem_of_cons; right; exact Hds | exact Hin].
  - rewrite best_fold_err. split; [reflexivity|].
    exists d. split; [apply elem_of_cons; left; reflexivity | exact Hd].
  - specialize (IH best Hbest).
    destruct (fold_left _ datasets (Ok best)) as [best'|e]; [exact IH|].
    destruct IH as (He & ds & Hds & Hin). split; [exact He|].
    exists ds. split; [apply elem_of_cons; right; exact Hds | exact Hin].
Qed.

Lemma orderCameraNamesForUi_outcome names datasetHint :
  match orderCameraNamesForUi names datasetHint with
  | Ok ordered => ordered ≡ₚ names
  | Err e =>
      e = HostTypeError
      /\ exists h, datasetHint = Some h
                   /\ get UI_ORDER (JsString.toLowerCase h) = Inherited
  end.
Proof.
  unfold orderCameraNamesForUi. cbv zeta.
  destruct (length names =? 0) eqn:E0.
  { apply Nat.eqb_eq in E0. destruct names; [reflexivity | discriminate]. }
  set (hint := match datasetHint with
               | Some (String c rest) => JsString.toLowerCase (String c rest)
               | _ => EmptyString
               end).
  set (init := if nonempty hint && defined (get UI_ORDER hint) then [hint] else []).
  destruct (datasets_extend init (map fst UI_ORDER)) as (more & -> & Hmore).
  pose proof (best_fold_spec names (map canonicalizeName names) (length_map _ _)
                (init ++ more) None ltac:(discriminate)) as Hfold.
  destruct (fold_left _ (init ++ more) (Ok None)) as [best|e]; cbn [mbind result_bind].
  - destruct best as [b|]; [|reflexivity].
    destruct (_ <=? matchCount b); [|reflexivity]. apply Hfold. reflexivity.
  - destruct Hfold as (He & ds & Hds & Hin). split; [exact He|].
    apply elem_of_app in Hds as [Hds|Hds].
    + subst init. destruct (nonempty hint && defined (get UI_ORDER hint)) eqn:Ehint;
        [|inversion Hds].
      apply list_elem_of_singleton in Hds. subst ds.
      apply andb_prop in Ehint as [Hne _]. subst hint.
      destruct datasetHint as [[|c rest]|]; try discriminate Hne.
      exists (String c rest). split; [reflexivity | exact Hin].
    + rewrite Forall_forall in Hmore. apply Hmore, UI_ORDER_keys_own in Hds as [desired Hd].
      congruence.
Qed.

(** X20. [orderCameraNamesForUi] returns a permutation of the names it is
    given: no camera is dropped or repeated. It raises only a TypeError, and
    only when the lower-cased dataset hint names a property that the table
    UI_ORDER inherits. *)
Theorem ui_order_is_permutation names datasetHint :
  match orderCameraNamesForUi names datasetHint with
  | Ok ordered => ordered ≡ₚ names
  | Err e =>
      e = HostTypeError
      /\ exists h, datasetHint = Some h
                   /\ get UI_ORDER (JsString.toLowerCase h) = Inherited
  end.
Proof. exact (orderCameraNamesForUi_outcome names datasetHint). Qed.

(** X21. For a non-empty list of names, a dataset hint whose lower-casing
    names an inherited property of UI_ORDER ("constructor", "__proto__")
    makes [orderCameraNamesForUi] raise a TypeError. *)
Theorem ui_order_inherited_hint names h :
  names <> [] ->
  get UI_ORDER (JsString.toLowerCase h) = Inherited ->
  orderCameraNamesForUi names (Some h) = Err HostTypeError.
Proof.
  intros Hnames Hget. unfold orderCameraNamesForUi. cbv zeta.
  destruct (length names =? 0) eqn:E0.
  { apply Nat.eqb_eq in E0. destruct names; [contradiction | discriminate]. }
  assert (Hhint : match h with
                  | String c rest => JsString.toLowerCase (String c rest)
                  | EmptyString => EmptyString
                  end = JsString.toLowerCase h) by (destruct h; reflexivity).
  rewrite Hhint.
  assert (Hne : nonempty (JsString.toLowerCase h) = true).
  { destruct (JsString.toLowerCase h); [discriminate Hget | reflexivity]. }
  rewrite Hne, Hget. cbn [andb defined].
  destruct (datasets_extend [JsString.toLowerCase h] (map fst UI_ORDER)) as (more & -> & _).
  cbn [app fold_left mbind result_bind]. rewrite Hget, best_fold_err. reflexivity.
Qed.

Lemma ui_order_inherited_hint_witness :
  orderCameraNamesForUi ["front"; "left"]%string (Some "Constructor"%string)
  = Err HostTypeError.
Proof.
  apply ui_order_inherited_hint; [discriminate | vm_compute; reflexivity].
Defined.

(** ** The display order of a loaded scene *)

Lemma elem_of_filter_list {A} (p : A -> bool) (l : list A) x :
  x ∈ List.filter p l <-> x ∈ l /\ p x = true.
Proof.
  rewrite !list_elem_of_In. rewrite filter_In. reflexivity.
Qed.

Lemma NoDup_filter_list {A} (p : A -> bool) (l : list A) :
  NoDup l -> NoDup (List.filter p l).
Proof.
  induction 1 as [|x l Hx Hnd IH]; cbn; [constructor|].
  destruct (p x); [|exact IH]. constructor; [|exact IH].
  rewrite elem_of_filter_list. intros [Hin _]. contradiction.
Qed.

(** X22. The display order computed by [loadSceneData] holds exactly the
    image names: every name occurs, and nothing else. It is a permutation of
    the names when they are distinct and the order given by the metadata, if
    any, has no repetition. The only error is that of
    [orderCameraNamesForUi]. *)
Theorem display_order_covers_cameras image_names datasetHint image_display_order :
  match SceneLoader.imageDisplayOrder image_names datasetHint image_display_order with
  | Ok order =>
      (forall name, name ∈ order <-> name ∈ image_names)
      /\ (NoDup image_names ->
          (forall m, image_display_order = Some m -> NoDup m) ->
          order ≡ₚ image_names)
  | Err e =>
      e = HostTypeError
      /\ exists h, datasetHint = Some h
                   /\ get UI_ORDER (JsString.toLowerCase h) = Inherited
  end.
Proof.
  unfold SceneLoader.imageDisplayOrder.
  pose proof (orderCameraNamesForUi_outcome image_names datasetHint) as Hhelper.
  destruct (orderCameraNamesForUi image_names datasetHint) as [helperOrder|e];
    cbn [mbind result_bind]; [|exact Hhelper].
  cbv zeta. destruct (_ && _).
  { split; [intros name; rewrite Hhelper; reflexivity | intros _ _; exact Hhelper]. }
  destruct image_display_order as [[|m rest]|];
    try (split; [intros name; reflexivity | intros _ _; reflexivity]).
  set (meta := m :: rest).
  set (baseOrder := List.filter (fun name => bool_decide (name ∈ image_names)) meta).
  assert (Hmem : forall name,
             name ∈ baseOrder
                  ++ List.filter (fun name => negb (bool_decide (name ∈ baseOrder))) image_names
             <-> name ∈ image_names).
  { intros name. rewrite elem_of_app. split.
    - intros [H | H].
      + apply elem_of_filter_list in H as [_ H]. apply bool_decide_eq_true in H. exact H.
      + apply elem_of_filter_list in H as [H _]. exact H.
    - intros H. destruct (decide (name ∈ baseOrder)) as [Hb|Hb]; [left; exact Hb|].
      right. apply elem_of_filter_list. split; [exact H|].
      apply negb_true_iff, bool_decide_eq_false. exact Hb. }
  split; [exact Hmem|]. intros Hnd Hmeta.
  apply NoDup_Permutation; [|exact Hnd|exact Hmem].
  apply NoDup_app. split; [|split].
  - apply NoDup_filter_list. apply (Hmeta meta). reflexivity.
  - intros name Hb Hmiss. apply elem_of_filter_list in Hmiss as [_ Hmiss].
    apply negb_true_iff, bool_decide_eq_false in Hmiss. contradiction.
  - apply NoDup_filter_list. exact Hnd.
Qed.

Lemma display_order_covers_cameras_witness :
  exists order,
    SceneLoader.imageDisplayOrder ["a"; "b"; "c"]%string None (Some ["c"; "x"; "a"]%string)
    = Ok order
    /\ order = ["c"; "a"; "b"]%string
    /\ (forall name, name ∈ order <-> name ∈ ["a"; "b"; "c"]%string)
    /\ order ≡ₚ ["a"; "b"; "c"]%string.
Proof.
  pose proof (display_order_covers_cameras ["a"; "b"; "c"]%string None
                (Some ["c"; "x"; "a"]%string)) as H.
  destruct (SceneLoader.imageDisplayOrder ["a"; "b"; "c"]%string None
              (Some ["c"; "x"; "a"]%string)) as [order|e] eqn:E.
  - exists order. split; [reflexivity|]. split; [vm_compute in E; congruence|].
    destruct H as [Hmem Hperm]. split; [exact Hmem|]. apply Hperm.
    + apply (bool_decide_unpack _). vm_compute. reflexivity.
    + intros m Hm. inversion Hm; subst m. apply (bool_decide_unpack _). vm_compute.
      reflexivity.
  - vm_compute in E. discriminate E.
Defined.

(** ** Canonical camera names *)

Lemma lower_char_idempotent c :
  JsString.lower_char (JsString.lower_char c) = JsString.lower_char c.
Proof. destruct c as [[] [] [] [] [] [] [] []]; vm_compute; reflexivity. Qed.

Lemma is_separator_lower c : is_separator (JsString.lower_char c) = is_separator c.
Proof. destruct c as [[] [] [] [] [] [] [] []]; vm_compute; reflexivity. Qed.

Lemma canonical_replace_runs s : forall in_run,
  canonical (replace_runs in_run (JsString.toLowerCase s)) = true.
Proof.
  induction s as [|c s IH]; intros in_run; [reflexivity|].
  cbn [JsString.toLowerCase replace_runs].
  destruct (is_separator (JsString.lower_char c)) eqn:E.
  - destruct in_run; [apply IH|]. cbn [canonical]. rewrite IH. reflexivity.
  - cbn [canonical]. rewrite E, lower_char_idempotent, Ascii.eqb_refl, IH. reflexivity.
Qed.

Lemma canonical_no_whitespace s :
  canonical s = true -> JsString.trimStart s = s.
Proof.
  destruct s as [|c s]; [reflexivity|]. cbn [canonical JsString.trimStart].
  intros H. apply andb_prop in H as [H _]. apply andb_prop in H as [H _].
  unfold is_separator in H. apply negb_true_iff, orb_false_elim in H as [_ H].
  rewrite H. reflexivity.
Qed.

Lemma canonical_app a b : canonical (String.append a b) = canonical a && canonical b.
Proof.
  induction a as [|c a IH]; [reflexivity|].
  rewrite str_app_cons. cbn [canonical]. rewrite IH, andb_assoc. reflexivity.
Qed.

Lemma canonical_reverse s : canonical (JsString.reverse s) = canonical s.
Proof.
  induction s as [|c s IH]; [reflexivity|].
  rewrite reverse_cons, canonical_app, IH. cbn [canonical].
  rewrite andb_true_r. apply andb_comm.
Qed.

Lemma reverse_involutive s : JsString.reverse (JsString.reverse s) = s.
Proof.
  induction s as [|c s IH]; [reflexivity|].
  rewrite reverse_cons, reverse_app, IH. reflexivity.
Qed.

Lemma canonical_trim s : canonical s = true -> JsString.trim s = s.
Proof.
  intros H. unfold JsString.trim, JsString.trimEnd.
  rewrite (canonical_no_whitespace s H).
  rewrite canonical_no_whitespace by (rewrite canonical_reverse; exact H).
  apply reverse_involutive.
Qed.

Lemma canonical_lower s : canonical s = true -> JsString.toLowerCase s = s.
Proof.
  induction s as [|c s IH]; [reflexivity|]. cbn [canonical JsString.toLowerCase].
  intros H. apply andb_prop in H as [H Hs]. apply andb_prop in H as [_ Hc].
  apply Ascii.eqb_eq in Hc. rewrite Hc, (IH Hs). reflexivity.
Qed.

Lemma canonical_runs s : forall in_run, canonical s = true -> replace_runs in_run s = s.
Proof.
  induction s as [|c s IH]; intros in_run; [reflexivity|]. cbn [canonical replace_runs].
  intros H. apply andb_prop in H as [H Hs]. apply andb_prop in H as [Hc _].
  apply negb_true_iff in Hc. rewrite Hc, (IH false Hs). reflexivity.
Qed.

Lemma canonicalizeName_canonical name : canonical (canonicalizeName name) = true.
Proof.
  unfold canonicalizeName. destruct name as [|c rest]; [reflexivity|].
  apply canonical_replace_runs.
Qed.

(** X23. A name returned by [canonicalizeName] holds no hyphen, no white
    space and no upper-case letter, and canonicalizing it again gives the
    same name. *)
Theorem canonicalizeName_idempotent name :
  canonical (canonicalizeName name) = true
  /\ canonicalizeName (canonicalizeName name) = canonicalizeName name.
Proof.
  pose proof (canonicalizeName_canonical name) as H. split; [exact H|].
  set (t := canonicalizeName name) in *. unfold canonicalizeName.
  destruct t as [|c rest] eqn:E; [reflexivity|].
  rewrite (canonical_trim _ H), (canonical_lower _ H). apply canonical_runs. exact H.
Qed.
